(** * Observability monitors: state comparison and state metrics

    A shallow embedding of the two monitors of the repository,
    [state_comparison_monitor.py] and [state_metrics_monitor.py], and the
    properties of their scalar projection, bounded history, high-water time,
    snapshots and renderings.

    Conventions of the embedding.
    - A Python [float] is a rational number ([Qc]) with exact arithmetic:
      rounding, infinities and NaN are outside the model.  The one place
      where the conversion [float(int)] raises ([OverflowError] for an
      integer beyond the range of a double) is kept, as a raised exception.
    - A Python [dict] used as a map is a [gmap]; a [dict] whose iteration
      order is what the code reads (the values of an input mapping) is an
      association list in insertion order.
    - The time of an input signal is a number ([int], [bool] or [float]);
      the monitors convert it with [float], which raises on an integer
      beyond the range of a double as it does for a value.
    - Code that may raise returns a [result]; a statement that raises
      half-way leaves the state as mutated so far. *)

From stdpp Require Import gmap strings list fin_maps numbers sorting pretty.
From Stdlib Require Import QArith Qcanon Qround Qabs Lqa OrdersEx.

Set Warnings "-register-all".

Open Scope Qc_scope.
Open Scope string_scope.
Open Scope list_scope.

(* ===================================================================== *)
(** * Part I: definitions *)
(* ===================================================================== *)

(** ** Exceptions and results *)

Inductive exn := OverflowError | KeyError.
#[global] Instance exn_eq_dec : EqDecision exn.
Proof. solve_decision. Defined.

Inductive result (A : Type) :=
| Ok (a : A)
| Raise (e : exn).
Arguments Ok {A} a.
Arguments Raise {A} e.

#[global] Instance result_ret : MRet result := λ A a, Ok a.
#[global] Instance result_bind : MBind result := λ A B f r,
  match r with
  | Ok a => f a
  | Raise e => Raise e
  end.
#[global] Instance result_fmap : FMap result := λ A B f r,
  match r with
  | Ok a => Ok (f a)
  | Raise e => Raise e
  end.

#[global] Instance result_eq_dec `{EqDecision A} : EqDecision (result A).
Proof. solve_decision. Defined.

Definition is_Ok {A} (r : result A) : Prop := ∃ a, r = Ok a.

(** [d[k]] on a dict: [KeyError] when the key is missing. *)
Definition getitem {V} (d : gmap string V) (k : string) : result V :=
  match d !! k with
  | Some v => Ok v
  | None => Raise KeyError
  end.

(** ** Python values *)

Module Py.

(** The values a signal can carry.  [PyDict] keeps its entries in insertion
    order (the order [dict.values()] yields them). *)
Inductive obj :=
| PyNone
| PyBool (b : bool)
| PyInt (z : Z)
| PyFloat (q : Qc)
| PyStr (s : string)
| PyTuple (items : list obj)
| PyList (items : list obj)
| PyDict (entries : list (string * obj)).

(** The numbers: what [isinstance(v, (int, float))] accepts.  [bool] is a
    subclass of [int]. *)
Inductive number :=
| NBool (b : bool)
| NInt (z : Z)
| NFloat (q : Qc).

#[global] Instance number_eq_dec : EqDecision number.
Proof. solve_decision. Defined.

Definition as_number (v : obj) : option number :=
  match v with
  | PyBool b => Some (NBool b)
  | PyInt z => Some (NInt z)
  | PyFloat q => Some (NFloat q)
  | _ => None
  end.

Definition is_dict (v : obj) : bool :=
  match v with PyDict _ => true | _ => false end.

Definition is_list (v : obj) : bool :=
  match v with PyList _ => true | _ => false end.

(** The integers [float] converts: those that round (to nearest, ties to
    even) to a finite double, that is, below [2^1024 - 2^970] in absolute
    value. *)
Definition float_overflow_bound : Z := 2 ^ 1024 - 2 ^ 970.

Definition float_of_int (z : Z) : result Qc :=
  if bool_decide (Z.abs z < float_overflow_bound)%Z
  then Ok (Qc_of_Z z)
  else Raise OverflowError.

(** [float(n)] for a number. *)
Definition float (n : number) : result Qc :=
  match n with
  | NFloat q => Ok q
  | NInt z => float_of_int z
  | NBool b => Ok (if b then 1 else 0)
  end.

(** [sum(nums)]: left to right from [0]. *)
Definition sum (nums : list Qc) : Qc := fold_left Qcplus nums 0.

(** [len(l)] as a float operand. *)
Definition len {A} (l : list A) : Qc := Qc_of_Z (Z.of_nat (length l)).

(** [max(a, b)]: the first argument unless the second is greater. *)
Definition max (a b : Qc) : Qc := if bool_decide (a < b) then b else a.

(** [min(a, b)]: the first argument unless the second is smaller. *)
Definition min (a b : Qc) : Qc := if bool_decide (b < a) then b else a.

(** [l[start:]] for any integer [start]: a negative [start] counts from the
    end, and [-0] is [0]. *)
Definition slice_from {A} (start : Z) (l : list A) : list A :=
  if bool_decide (start < 0)%Z
  then drop (Z.to_nat (Z.of_nat (length l) + start)) l
  else drop (Z.to_nat start) l.

(** [[float(v) for v in vs if isinstance(v, (int, float))]]: the first
    conversion that raises ends the comprehension. *)
Fixpoint floats_of (vs : list obj) : result (list Qc) :=
  match vs with
  | [] => Ok []
  | v :: rest =>
      match as_number v with
      | Some n => x ← float n; xs ← floats_of rest; Ok (x :: xs)
      | None => floats_of rest
      end
  end.

(** [dict.values()] and the contents of a list, by shape. *)
Definition dict_values (v : obj) : list obj :=
  match v with PyDict entries => entries.*2 | _ => [] end.

Definition list_items (v : obj) : list obj :=
  match v with PyList items => items | _ => [] end.

End Py.

Export Py (PyNone, PyBool, PyInt, PyFloat, PyStr, PyTuple, PyList, PyDict).

(** ** The scalar projection *)

(** [if nums: return float(sum(nums) / len(nums))]: the mean when there is
    one, nothing when [nums] is empty and the code falls through. *)
Definition mean_if_any (nums : list Qc) : option Qc :=
  match nums with
  | [] => None
  | _ :: _ => Some (Py.sum nums / Py.len nums)
  end.

(** [StateComparisonMonitor._scalar_projection]. *)
Definition _scalar_projection (v : Py.obj) : result Qc :=
  match Py.as_number v with
  | Some n => Py.float n
  | None =>
      from_dict ← (if Py.is_dict v
                   then nums ← Py.floats_of (Py.dict_values v); Ok (mean_if_any nums)
                   else Ok None);
      match from_dict with
      | Some x => Ok x
      | None =>
          from_list ← (if Py.is_list v
                       then nums ← Py.floats_of (Py.list_items v); Ok (mean_if_any nums)
                       else Ok None);
          match from_list with
          | Some x => Ok x
          | None => Ok 0
          end
      end
  end.

(** [StateMetricsMonitor._extract_scalar]: the same function, its mapping
    branch written as a comprehension. *)
Definition _extract_scalar (v : Py.obj) : result Qc :=
  match Py.as_number v with
  | Some n => Py.float n
  | None =>
      from_dict ← (if Py.is_dict v
                   then nums ← Py.floats_of (Py.dict_values v); Ok (mean_if_any nums)
                   else Ok None);
      match from_dict with
      | Some x => Ok x
      | None =>
          from_list ← (if Py.is_list v
                       then nums ← Py.floats_of (Py.list_items v); Ok (mean_if_any nums)
                       else Ok None);
          match from_list with
          | Some x => Ok x
          | None => Ok 0
          end
      end
  end.

(** ** Signals *)

(** Modelled from the spec: the signal type of the host framework
    ([biosim.signals.BioSignal] and [SignalMetadata], not part of this
    repository's sources).  A signal carries (source, name, value, time,
    metadata); the metadata has a description and a kind tag.  The time is
    a number: the monitors read it through [float(sig.time)] and write it
    as a float. *)
Record SignalMetadata := {
  description : option string;
  kind : option string;
}.
#[global] Instance SignalMetadata_eq_dec : EqDecision SignalMetadata.
Proof. solve_decision. Defined.

Record BioSignal (V : Type) := {
  sig_source : string;
  sig_name : string;
  sig_value : V;
  sig_time : Py.number;
  sig_metadata : SignalMetadata;
}.
Arguments sig_source {V} _.
Arguments sig_name {V} _.
Arguments sig_value {V} _.
Arguments sig_time {V} _.
Arguments sig_metadata {V} _.
#[global] Instance BioSignal_eq_dec `{EqDecision V} : EqDecision (BioSignal V).
Proof. solve_decision. Defined.

(** The argument of [set_inputs]: a dict from stream name to signal. *)
Abbreviation signals := (gmap string (BioSignal Py.obj)).

(** ** Sorting names *)

(** The order of Python strings (by code point). *)
Definition str_le (a b : string) : Prop := String_as_OT.compare a b ≠ Gt.
Definition str_lt (a b : string) : Prop := String_as_OT.compare a b = Lt.

#[global] Instance str_le_dec : RelDecision str_le.
Proof. intros a b. unfold str_le. apply _. Defined.
#[global] Instance str_lt_dec : RelDecision str_lt.
Proof. intros a b. unfold str_lt. apply _. Defined.

(** [sorted(names)]. *)
Definition sorted (names : list string) : list string := merge_sort str_le names.

(** [sorted(d.keys())]. *)
Definition sorted_keys {V} (d : gmap string V) : list string :=
  sorted (elements (dom d)).

(** [sorted(d.items())]: pairs compare by key first, and the keys of a dict
    are distinct. *)
Definition item_le {V} (x y : string * V) : Prop := str_le x.1 y.1.
#[global] Instance item_le_dec {V} : RelDecision (@item_le V).
Proof. intros x y. unfold item_le. apply _. Defined.

Definition sorted_items {V} (d : gmap string V) : list (string * V) :=
  merge_sort item_le (map_to_list d).

(** [inputs()], the same set for both monitors. *)
Definition inputs : gset string :=
  {[ "state_a"; "state_b"; "state_c"; "state_d" ]}.

(** ** The bounded history store *)

(** The two statements both monitors run on their history dict [d]:
[[
    d.setdefault(name, []).append(x)
    if len(d[name]) > max_points:
        d[name] = d[name][-max_points:]
]] *)
Definition push {A} (max_points : Z) (name : string) (x : A)
    (d : gmap string (list A)) : gmap string (list A) :=
  let appended := default [] (d !! name) ++ [x] in
  if bool_decide (max_points < Z.of_nat (length appended))%Z
  then <[name := Py.slice_from (- max_points) appended]> d
  else <[name := appended]> d.

(** ** The loop of [set_inputs] *)

(** [[
    for name in sorted(self.inputs()):
        sig = signals.get(name)
        if sig is None:
            continue
        body
]]
    over a monitor state [M]; [body] gives the state it leaves and whether
    it raised.  When [body] raises, the loop ends and the state is what the
    iterations before it, and the statements of [body] before the one that
    raised, left. *)
Fixpoint for_each_input {M} (body : string → BioSignal Py.obj → M → M * result ())
    (names : list string) (sigs : signals) (m : M) : M * result () :=
  match names with
  | [] => (m, Ok ())
  | name :: rest =>
      match sigs !! name with
      | None => for_each_input body rest sigs m
      | Some sig =>
          match body name sig m with
          | (m', Ok _) => for_each_input body rest sigs m'
          | (m', Raise e) => (m', Raise e)
          end
      end
  end.

(** ** Display strings *)

(** Round to the nearest integer, ties to even. *)
Definition round_half_even (q : Q) : Z :=
  let fl := Qfloor q in
  match Qcompare (q - inject_Z fl)%Q (1 # 2) with
  | Lt => fl
  | Gt => (fl + 1)%Z
  | Eq => if Z.even fl then fl else (fl + 1)%Z
  end.

Definition digit (n : Z) : string :=
  String (Ascii.ascii_of_N (48 + Z.to_N (n `mod` 10))) "".

(** The six digits of [n mod 10^6], zero padded. *)
Definition six_digits (n : Z) : string :=
  digit (n `div` 100000) +:+ digit (n `div` 10000) +:+ digit (n `div` 1000)
  +:+ digit (n `div` 100) +:+ digit (n `div` 10) +:+ digit n.

(** [f"{x:.6f}"]: sign, integer part, a point and six decimals, the value
    rounded half to even at the sixth decimal. *)
Definition format_6f (x : Qc) : string :=
  let scaled := round_half_even (Qabs x * inject_Z 1000000)%Q in
  (if bool_decide (x < 0) then "-" else "")
  +:+ pretty (scaled `div` 1000000)%Z +:+ "." +:+ six_digits scaled.

(** [int(x)] of a float truncates towards zero; [str] of the integer. *)
Definition int_of_float (x : Qc) : Z := Z.quot (Qnum x) (Z.pos (Qden x)).
Definition str_of_int (z : Z) : string := pretty z.

(** ** Render blocks *)

(** A point of a series is the two-element list [[x, y]]. *)
Record series := {
  series_name : string;
  series_points : list (Qc * Qc);
}.
#[global] Instance series_eq_dec : EqDecision series.
Proof. solve_decision. Defined.

Inductive render_data :=
| TimeseriesData (title : string) (all_series : list series)
| TableData (columns : list string) (rows : list (list string)).
#[global] Instance render_data_eq_dec : EqDecision render_data.
Proof. solve_decision. Defined.

Record block := {
  render : string;
  data : render_data;
  block_description : string;
}.
#[global] Instance block_eq_dec : EqDecision block.
Proof. solve_decision. Defined.

(** ** Calls of the host *)

(** What the host does to a monitor between two queries: a batch of
    updates, an advance, a reset, or setting the module's world name. *)
Inductive call :=
| SetInputs (sigs : signals)
| AdvanceTo (t : Qc)
| ResetCall
| Attach (world_name : string).

(** ** The state comparison monitor *)

Module Comparison.

(** An entry of [_latest]: the dict with keys ["t"], ["scalar"], ["source"]. *)
Record latest := {
  latest_t : Qc;
  latest_scalar : Qc;
  latest_source : string;
}.
#[global] Instance latest_eq_dec : EqDecision latest.
Proof. solve_decision. Defined.

(** The value of the [comparison_state] signal: the dict with keys ["t"],
    ["latest_values"], ["pairwise_deltas"], ["n_streams"]. *)
Record payload := {
  t : Qc;
  latest_values : gmap string Qc;
  pairwise_deltas : gmap string Qc;
  n_streams : nat;
}.
#[global] Instance payload_eq_dec : EqDecision payload.
Proof. solve_decision. Defined.

(** The attributes of a [StateComparisonMonitor].  [_world_name] is the
    attribute the host may set on the module; [getattr] reads it with the
    class name as default. *)
Record monitor := {
  min_dt : Qc;
  max_points : Z;
  _latest : gmap string latest;
  _series : gmap string (list (Qc * Qc));
  _last_t : Qc;
  _outputs : gmap string (BioSignal payload);
  _world_name : option string;
}.

(** [StateComparisonMonitor(max_points, min_dt)]. *)
Definition init (max_points : Z) (min_dt : Qc) : monitor := {|
  min_dt := min_dt;
  max_points := max_points;
  _latest := ∅;
  _series := ∅;
  _last_t := 0;
  _outputs := ∅;
  _world_name := None;
|}.

Definition outputs : gset string := {[ "comparison_state" ]}.

Definition reset (m : monitor) : monitor := {|
  min_dt := min_dt m;
  max_points := max_points m;
  _latest := ∅;
  _series := ∅;
  _last_t := 0;
  _outputs := ∅;
  _world_name := _world_name m;
|}.

(** The body of the loop of [set_inputs] for one present stream:
[[
    t = float(sig.time)
    scalar = self._scalar_projection(sig.value)
    self._latest[name] = {...}
    self._series.setdefault(name, []).append([t, scalar])
    ...
    self._last_t = max(self._last_t, t)
]]
    Both conversions come before the first assignment: when one raises, the
    monitor is as it was. *)
Definition ingest (name : string) (sig : BioSignal Py.obj) (m : monitor)
    : monitor * result () :=
  match Py.float (sig_time sig) with
  | Raise e => (m, Raise e)
  | Ok t =>
      match _scalar_projection (sig_value sig) with
      | Raise e => (m, Raise e)
      | Ok scalar =>
          ({|
            min_dt := min_dt m;
            max_points := max_points m;
            _latest := <[name := {| latest_t := t; latest_scalar := scalar;
                                    latest_source := sig_source sig |}]> (_latest m);
            _series := push (max_points m) name (t, scalar) (_series m);
            _last_t := Py.max (_last_t m) t;
            _outputs := _outputs m;
            _world_name := _world_name m;
          |}, Ok ())
      end
  end.

Definition set_inputs (sigs : signals) (m : monitor) : monitor * result () :=
  for_each_input ingest (sorted (elements inputs)) sigs m.

(** [f"{left}_minus_{right}"]. *)
Definition delta_key (left' right' : string) : string :=
  left' +:+ "_minus_" +:+ right'.

(** The inner loop: [for right in active[i + 1:]: deltas[key] = ...]. *)
Fixpoint deltas_of_left (latest_values : gmap string Qc) (left' : string)
    (rights : list string) (deltas : gmap string Qc) : result (gmap string Qc) :=
  match rights with
  | [] => Ok deltas
  | right' :: rest =>
      l ← getitem latest_values left';
      r ← getitem latest_values right';
      deltas_of_left latest_values left' rest
        (<[delta_key left' right' := l - r]> deltas)
  end.

(** The outer loop: [for i, left in enumerate(active)]; at position [i] the
    slice [active[i + 1:]] is the rest of the list. *)
Fixpoint deltas_loop (latest_values : gmap string Qc) (active : list string)
    (deltas : gmap string Qc) : result (gmap string Qc) :=
  match active with
  | [] => Ok deltas
  | left' :: rest =>
      deltas' ← deltas_of_left latest_values left' rest deltas;
      deltas_loop latest_values rest deltas'
  end.

(** [{k: float(self._latest[k]["scalar"]) for k in active}]. *)
Fixpoint latest_values_of (latest_map : gmap string latest) (active : list string)
    (acc : gmap string Qc) : result (gmap string Qc) :=
  match active with
  | [] => Ok acc
  | k :: rest =>
      e ← getitem latest_map k;
      latest_values_of latest_map rest (<[k := latest_scalar e]> acc)
  end.

Definition class_name : string := "StateComparisonMonitor".

Definition advance_to (t : Qc) (m : monitor) : result monitor :=
  let now := Py.max t (_last_t m) in
  let active := filter (λ k, k ∈ inputs) (sorted_keys (_latest m)) in
  latest_values ← latest_values_of (_latest m) active ∅;
  deltas ← deltas_loop latest_values active ∅;
  let source_name := default class_name (_world_name m) in
  Ok {|
    min_dt := min_dt m;
    max_points := max_points m;
    _latest := _latest m;
    _series := _series m;
    _last_t := _last_t m;
    _outputs := {[ "comparison_state" := {|
      sig_source := source_name;
      sig_name := "comparison_state";
      sig_value := {|
        t := now;
        latest_values := latest_values;
        pairwise_deltas := deltas;
        n_streams := length active;
      |};
      sig_time := Py.NFloat now;
      sig_metadata := {| description := Some "State comparison summary";
                         kind := Some "state" |};
    |} ]};
    _world_name := _world_name m;
  |}.

(** [dict(self._outputs)], as a value; the copy as an object is in
    [Module Heap]. *)
Definition get_outputs (m : monitor) : gmap string (BioSignal payload) :=
  _outputs m.

(** The rows of the table: [for k in sorted(latest_values.keys())]. *)
Fixpoint rows_of (latest_values : gmap string Qc) (keys : list string)
    : result (list (list string)) :=
  match keys with
  | [] => Ok []
  | k :: rest =>
      v ← getitem latest_values k;
      rows ← rows_of latest_values rest;
      Ok ([k; format_6f v] :: rows)
  end.

Definition visualize (m : monitor) : result (option (list block)) :=
  if bool_decide (_series m = ∅) then Ok None else
  let timeseries := {|
    render := "timeseries";
    data := TimeseriesData "State Stream Comparison"
      ((λ item, {| series_name := item.1; series_points := item.2 |})
         <$> sorted_items (_series m));
    block_description := "Scalar projections for each incoming state stream.";
  |} in
  let latest_values :=
    match _outputs m !! "comparison_state" with
    | Some sig => latest_values (sig_value sig)
    | None => ∅
    end in
  rows ← rows_of latest_values (sorted_keys latest_values);
  let table := {|
    render := "table";
    data := TableData ["Stream"; "Latest Scalar"] rows;
    block_description := "Latest scalar value per state input stream.";
  |} in
  Ok (Some [timeseries; table]).

(** One call of the host; an [advance_to] that raised would leave the
    attributes as they were. *)
Definition step (m : monitor) (c : call) : monitor :=
  match c with
  | SetInputs sigs => (set_inputs sigs m).1
  | AdvanceTo t =>
      match advance_to t m with
      | Ok m' => m'
      | Raise _ => m
      end
  | ResetCall => reset m
  | Attach w => {|
      min_dt := min_dt m; max_points := max_points m; _latest := _latest m;
      _series := _series m; _last_t := _last_t m; _outputs := _outputs m;
      _world_name := Some w |}
  end.

Definition run (calls : list call) (m : monitor) : monitor :=
  fold_left step calls m.

(** The states a monitor built with [max_points] can be in. *)
Definition reachable (max_points : Z) (m : monitor) : Prop :=
  ∃ min_dt calls, m = run calls (init max_points min_dt).

End Comparison.

(** ** The state metrics monitor *)

Module Metrics.

(** The dict [_summary] returns, with keys ["count"], ["mean"], ["min"],
    ["max"]. *)
Record summary := {
  count : Qc;
  mean : Qc;
  min : Qc;
  max : Qc;
}.
#[global] Instance summary_eq_dec : EqDecision summary.
Proof. solve_decision. Defined.

(** The value of the [metrics] signal: the dict with keys ["t"],
    ["stream_metrics"], ["stream_count"]. *)
Record payload := {
  t : Qc;
  stream_metrics : gmap string summary;
  stream_count : nat;
}.
#[global] Instance payload_eq_dec : EqDecision payload.
Proof. solve_decision. Defined.

Record monitor := {
  min_dt : Qc;
  max_points : Z;
  _history : gmap string (list Qc);
  _latest_t : Qc;
  _outputs : gmap string (BioSignal payload);
  _world_name : option string;
}.

(** [StateMetricsMonitor(max_points, min_dt)]. *)
Definition init (max_points : Z) (min_dt : Qc) : monitor := {|
  min_dt := min_dt;
  max_points := max_points;
  _history := ∅;
  _latest_t := 0;
  _outputs := ∅;
  _world_name := None;
|}.

Definition outputs : gset string := {[ "metrics" ]}.

Definition reset (m : monitor) : monitor := {|
  min_dt := min_dt m;
  max_points := max_points m;
  _history := ∅;
  _latest_t := 0;
  _outputs := ∅;
  _world_name := _world_name m;
|}.

(** The body of the loop of [set_inputs] for one present stream:
[[
    scalar = self._extract_scalar(sig.value)
    self._history.setdefault(name, []).append(scalar)
    ...
    self._latest_t = max(self._latest_t, float(sig.time))
]]
    The time is converted last: when that raises, the scalar is already in
    the history. *)
Definition ingest (name : string) (sig : BioSignal Py.obj) (m : monitor)
    : monitor * result () :=
  match _extract_scalar (sig_value sig) with
  | Raise e => (m, Raise e)
  | Ok scalar =>
      let appended := {|
        min_dt := min_dt m;
        max_points := max_points m;
        _history := push (max_points m) name scalar (_history m);
        _latest_t := _latest_t m;
        _outputs := _outputs m;
        _world_name := _world_name m;
      |} in
      match Py.float (sig_time sig) with
      | Raise e => (appended, Raise e)
      | Ok t =>
          ({|
            min_dt := min_dt appended;
            max_points := max_points appended;
            _history := _history appended;
            _latest_t := Py.max (_latest_t appended) t;
            _outputs := _outputs appended;
            _world_name := _world_name appended;
          |}, Ok ())
      end
  end.

Definition set_inputs (sigs : signals) (m : monitor) : monitor * result () :=
  for_each_input ingest (sorted (elements inputs)) sigs m.

(** [_summary(values)]; [min(values)] and [max(values)] scan from the first
    element. *)
Definition _summary (values : list Qc) : summary :=
  match values with
  | [] => {| count := 0; mean := 0; min := 0; max := 0 |}
  | first :: rest => {|
      count := Py.len values;
      mean := Py.sum values / Py.len values;
      min := fold_left Py.min rest first;
      max := fold_left Py.max rest first;
    |}
  end.

Definition class_name : string := "StateMetricsMonitor".

(** [{k: self._summary(v) for k, v in items}]. *)
Definition per_stream_of (items : list (string * list Qc)) : gmap string summary :=
  fold_left (λ acc item, <[item.1 := _summary item.2]> acc) items ∅.

Definition advance_to (t : Qc) (m : monitor) : monitor :=
  let now := Py.max t (_latest_t m) in
  let per_stream := per_stream_of (sorted_items (_history m)) in
  let source_name := default class_name (_world_name m) in
  {|
    min_dt := min_dt m;
    max_points := max_points m;
    _history := _history m;
    _latest_t := _latest_t m;
    _outputs := {[ "metrics" := {|
      sig_source := source_name;
      sig_name := "metrics";
      sig_value := {|
        t := now;
        stream_metrics := per_stream;
        stream_count := size per_stream;
      |};
      sig_time := Py.NFloat now;
      sig_metadata := {| description := Some "State stream metrics summary";
                         kind := Some "state" |};
    |} ]};
    _world_name := _world_name m;
  |}.

(** [dict(self._outputs)], as a value; the copy as an object is in
    [Module Heap]. *)
Definition get_outputs (m : monitor) : gmap string (BioSignal payload) :=
  _outputs m.

(** [[[float(i), float(v)] for i, v in enumerate(vals)]]. *)
Definition points_of (vals : list Qc) : list (Qc * Qc) :=
  imap (λ i v, (Qc_of_Z (Z.of_nat i), v)) vals.

(** The rows of the table: [for name in sorted(metrics.keys())]. *)
Fixpoint rows_of (metrics : gmap string summary) (keys : list string)
    : result (list (list string)) :=
  match keys with
  | [] => Ok []
  | name :: rest =>
      m ← getitem metrics name;
      rows ← rows_of metrics rest;
      Ok ([name; str_of_int (int_of_float (count m)); format_6f (mean m);
           format_6f (min m); format_6f (max m)] :: rows)
  end.

Definition visualize (m : monitor) : result (option (list block)) :=
  if bool_decide (_history m = ∅) then Ok None else
  let all_series :=
    (λ item, {| series_name := item.1; series_points := points_of item.2 |})
      <$> sorted_items (_history m) in
  let metrics :=
    match _outputs m !! "metrics" with
    | Some sig => stream_metrics (sig_value sig)
    | None => ∅
    end in
  rows ← rows_of metrics (sorted_keys metrics);
  Ok (Some [
    {| render := "timeseries";
       data := TimeseriesData "State Stream Metrics (Scalar History)" all_series;
       block_description := "Scalar history per stream for quick trend checks." |};
    {| render := "table";
       data := TableData ["Stream"; "Count"; "Mean"; "Min"; "Max"] rows;
       block_description := "Descriptive metrics for each stream." |}
  ]).

(** One call of the host. *)
Definition step (m : monitor) (c : call) : monitor :=
  match c with
  | SetInputs sigs => (set_inputs sigs m).1
  | AdvanceTo t => advance_to t m
  | ResetCall => reset m
  | Attach w => {|
      min_dt := min_dt m; max_points := max_points m; _history := _history m;
      _latest_t := _latest_t m; _outputs := _outputs m;
      _world_name := Some w |}
  end.

Definition run (calls : list call) (m : monitor) : monitor :=
  fold_left step calls m.

(** The states a monitor built with [max_points] can be in. *)
Definition reachable (max_points : Z) (m : monitor) : Prop :=
  ∃ min_dt calls, m = run calls (init max_points min_dt).

End Metrics.

(** ** The output dict as an object *)

(** [self._outputs] holds a reference to a dict, [get_outputs] returns a
    reference to a new dict, and the caller may mutate what it was handed.
    The dicts live in a store, by identity; the entries they hold (signals)
    are shared between a dict and its copy. *)
Module Heap.

Definition loc := positive.

(** A mutation of a dict in place. *)
Inductive mutation (V : Type) :=
| SetItem (k : string) (v : V)
| DelItem (k : string)
| Clear
| Update (other : gmap string V).
Arguments SetItem {V} k v.
Arguments DelItem {V} k.
Arguments Clear {V}.
Arguments Update {V} other.

(** What happens to a monitor object: a call of the host, a [get_outputs]
    whose result the caller keeps, or a mutation by the caller of a dict it
    holds. *)
Inductive event (V : Type) :=
| HostCall (c : call)
| GetOutputs
| Mutate (l : loc) (mu : mutation V).
Arguments HostCall {V} c.
Arguments GetOutputs {V}.
Arguments Mutate {V} l mu.

(** The store of dicts and the attribute [_outputs] of the monitor. *)
Record world (V : Type) := {
  dicts : gmap loc (gmap string V);
  self_outputs : loc;
}.
Arguments dicts {V} _.
Arguments self_outputs {V} _.

Record state (V M : Type) := {
  monitor : M;
  objects : world V;
  returned : list loc;
}.
Arguments monitor {V M} _.
Arguments objects {V M} _.
Arguments returned {V M} _.

Section objects.
Context {V M : Type}.
(** The monitor on its other attributes, and the dict its methods compute
    for [_outputs]. *)
Context (step : M → call → M) (outs : M → gmap string V).

Definition apply_mutation (mu : mutation V) (d : gmap string V) : gmap string V :=
  match mu with
  | SetItem k v => <[k := v]> d
  | DelItem k => delete k d
  | Clear => ∅
  | Update other => other ∪ d
  end.

(** A new dict object with the entries [d]. *)
Definition alloc (d : gmap string V) (h : gmap loc (gmap string V))
    : loc * gmap loc (gmap string V) :=
  let l := fresh (dom h) in (l, <[l := d]> h).

(** [self._outputs = {...}]: the attribute is bound to a new dict. *)
Definition bind_outputs (d : gmap string V) (w : world V) : world V :=
  let (l, h) := alloc d (dicts w) in {| dicts := h; self_outputs := l |}.

(** [get_outputs()]: [return dict(self._outputs)], a new dict with the
    entries of the one the attribute refers to. *)
Definition get_outputs (w : world V) : option (loc * world V) :=
  d ← dicts w !! self_outputs w;
  let (l, h) := alloc d (dicts w) in
  Some (l, {| dicts := h; self_outputs := self_outputs w |}).

Definition mutate (l : loc) (mu : mutation V) (w : world V) : world V :=
  {| dicts := alter (apply_mutation mu) l (dicts w);
     self_outputs := self_outputs w |}.

(** The calls that assign [self._outputs]. *)
Definition rebinds (c : call) : bool :=
  match c with
  | AdvanceTo _ | ResetCall => true
  | SetInputs _ | Attach _ => false
  end.

Definition exec_event (s : state V M) (e : event V) : state V M :=
  match e with
  | HostCall c =>
      let m' := step (monitor s) c in
      {| monitor := m';
         objects := if rebinds c then bind_outputs (outs m') (objects s)
                    else objects s;
         returned := returned s |}
  | GetOutputs =>
      match get_outputs (objects s) with
      | Some (l, w') =>
          {| monitor := monitor s; objects := w'; returned := l :: returned s |}
      | None => s
      end
  | Mutate l mu =>
      if bool_decide (l ∈ returned s)
      then {| monitor := monitor s; objects := mutate l mu (objects s);
              returned := returned s |}
      else s
  end.

Definition exec (evs : list (event V)) (s : state V M) : state V M :=
  fold_left exec_event evs s.

(** A monitor just constructed: [self._outputs = {}]. *)
Definition start (m0 : M) : state V M := {|
  monitor := m0;
  objects := {| dicts := {[ 1%positive := ∅ ]}; self_outputs := 1%positive |};
  returned := [];
|}.

(** The caller mutating, one mutation after the other, a dict it holds. *)
Definition mutate_all (l : loc) (mus : list (mutation V)) (w : world V) : world V :=
  fold_left (λ w mu, mutate l mu w) mus w.

(** The dict the attribute refers to. *)
Definition stored (w : world V) : option (gmap string V) :=
  dicts w !! self_outputs w.

(** The monitor's dict holds what its methods computed, the caller does
    not hold it, and what the caller holds exists. *)
Definition consistent (s : state V M) : Prop :=
  stored (objects s) = Some (outs (monitor s))
  ∧ self_outputs (objects s) ∉ returned s
  ∧ ∀ l, l ∈ returned s → l ∈ dom (dicts (objects s)).

(** The calls of the host among the events. *)
Definition host_calls (evs : list (event V)) : list call :=
  omap (λ e, match e with HostCall c => Some c | _ => None end) evs.
End objects.

End Heap.

(** ** Vocabulary of the properties: updates, observations, windows *)

(** An update a monitor has taken in: stream, timestamp, projected scalar
    and source.  The timestamp is a float ([update]), or a float if the
    conversion of the signal's time got that far ([appended_update], for
    the metrics monitor, which appends the scalar before it converts the
    time). *)
Record update_ (T : Type) := {
  u_name : string;
  u_time : T;
  u_scalar : Qc;
  u_source : string;
}.
Arguments u_name {T} _.
Arguments u_time {T} _.
Arguments u_scalar {T} _.
Arguments u_source {T} _.
#[global] Instance update_eq_dec `{EqDecision T} : EqDecision (update_ T).
Proof. solve_decision. Defined.

Abbreviation update := (update_ Qc).
Abbreviation appended_update := (update_ (option Qc)).

(** The four input slots in lexical order. *)
Definition input_names : list string :=
  ["state_a"; "state_b"; "state_c"; "state_d"].

(** The updates one [set_inputs] call takes in whole: the input slots
    present in the batch, in lexical order, each with its time as a float
    and its projection, up to the first whose time or value does not
    convert. *)
Fixpoint ingested (proj : Py.obj → result Qc) (names : list string)
    (sigs : signals) : list update :=
  match names with
  | [] => []
  | name :: rest =>
      match sigs !! name with
      | None => ingested proj rest sigs
      | Some sig =>
          match Py.float (sig_time sig), proj (sig_value sig) with
          | Ok t, Ok scalar =>
              {| u_name := name; u_time := t; u_scalar := scalar;
                 u_source := sig_source sig |} :: ingested proj rest sigs
          | _, _ => []
          end
      end
  end.

(** The scalars one [set_inputs] call of the metrics monitor appends: those
    of the updates taken in whole, and after them that of the stream at
    which the call stopped, when its value projected and its time did not
    convert. *)
Fixpoint appended (proj : Py.obj → result Qc) (names : list string)
    (sigs : signals) : list appended_update :=
  match names with
  | [] => []
  | name :: rest =>
      match sigs !! name with
      | None => appended proj rest sigs
      | Some sig =>
          match proj (sig_value sig) with
          | Raise _ => []
          | Ok scalar =>
              match Py.float (sig_time sig) with
              | Ok t =>
                  {| u_name := name; u_time := Some t; u_scalar := scalar;
                     u_source := sig_source sig |} :: appended proj rest sigs
              | Raise _ =>
                  [{| u_name := name; u_time := None; u_scalar := scalar;
                      u_source := sig_source sig |}]
              end
          end
      end
  end.

(** What a monitor has recorded since construction or the last reset, in
    arrival order, when a [set_inputs] call records [taken sigs]. *)
Definition record_call {T} (taken : signals → list (update_ T))
    (ups : list (update_ T)) (c : call) : list (update_ T) :=
  match c with
  | SetInputs sigs => ups ++ taken sigs
  | ResetCall => []
  | AdvanceTo _ | Attach _ => ups
  end.

Definition recorded {T} (taken : signals → list (update_ T))
    (calls : list call) : list (update_ T) :=
  fold_left (record_call taken) calls [].

(** The updates taken in whole, and the scalars the metrics monitor
    appended, since construction or the last reset. *)
Definition updates (proj : Py.obj → result Qc) (calls : list call) : list update :=
  recorded (ingested proj input_names) calls.

Definition appends (proj : Py.obj → result Qc) (calls : list call)
    : list appended_update :=
  recorded (appended proj input_names) calls.

Definition updates_of {T} (name : string) (ups : list (update_ T))
    : list (update_ T) :=
  filter (λ u, u_name u = name) ups.

(** The projected observations of a stream, as the comparison monitor keeps
    them ([[t, scalar]]) and as the metrics monitor keeps them (scalars). *)
Definition observations (name : string) (ups : list update) : list (Qc * Qc) :=
  (λ u, (u_time u, u_scalar u)) <$> updates_of name ups.

(** The timestamps of a batch of updates, in arrival order; for the
    metrics monitor, those that converted. *)
Definition timestamps (ups : list update) : list Qc := u_time <$> ups.

Definition stamps (ups : list appended_update) : list Qc := omap u_time ups.

Definition scalars {T} (name : string) (ups : list (update_ T)) : list Qc :=
  u_scalar <$> updates_of name ups.

(** The time of a signal as a float, when it converts. *)
Definition float_time {V} (sig : BioSignal V) : option Qc :=
  match Py.float (sig_time sig) with
  | Ok t => Some t
  | Raise _ => None
  end.

(** The timestamps of the input streams present in a batch, in lexical
    order of the streams. *)
Definition batch_times (sigs : signals) : list Qc :=
  omap (λ name, sigs !! name ≫= float_time) input_names.

(** The streams that received at least one update. *)
Definition active_streams {T} (ups : list (update_ T)) : gset string :=
  list_to_set (u_name <$> ups).

(** The most recent [n] elements of [l], in order. *)
Definition most_recent {A} (n : nat) (l : list A) : list A :=
  drop (length l - n) l.

(** The retained history of a stream whose observations are [obs]: none
    when the stream never received data. *)
Definition retained {A} (max_points : Z) (obs : list A) : option (list A) :=
  match obs with
  | [] => None
  | _ :: _ => Some (most_recent (Z.to_nat max_points) obs)
  end.

(** The history store after the updates [ups], each stream keeping [f u]
    of its updates. *)
Definition store_after {T A} (max_points : Z) (f : update_ T → A)
    (ups : list (update_ T)) (d : gmap string (list A)) : gmap string (list A) :=
  fold_left (λ d u, push max_points (u_name u) (f u) d) ups d.

Definition observation (u : update) : Qc * Qc := (u_time u, u_scalar u).

(** The latest entry per stream after the updates [ups]. *)
Definition latest_entry (u : update) : Comparison.latest := {|
  Comparison.latest_t := u_time u;
  Comparison.latest_scalar := u_scalar u;
  Comparison.latest_source := u_source u;
|}.

Definition latest_after (ups : list update)
    (d : gmap string Comparison.latest) : gmap string Comparison.latest :=
  fold_left (λ d u, <[u_name u := latest_entry u]> d) ups d.

(** The high-water time after the timestamps [ts], from [t0]. *)
Definition high_water (ts : list Qc) (t0 : Qc) : Qc := fold_left Py.max ts t0.

(** The pairs (x, y) of a list with x before y. *)
Fixpoint ordered_pairs (names : list string) : list (string * string) :=
  match names with
  | [] => []
  | x :: rest => ((λ y, (x, y)) <$> rest) ++ ordered_pairs rest
  end.

(** The entry of [pairwise_deltas] for a pair of streams. *)
Definition delta_entry (latest_values : gmap string Qc) (p : string * string)
    : string * Qc :=
  (Comparison.delta_key p.1 p.2,
   default 0 (latest_values !! p.1) - default 0 (latest_values !! p.2)).

(** The names [advance_to] of the comparison monitor iterates over. *)
Definition active_names (latest_map : gmap string Comparison.latest) : list string :=
  filter (λ k, k ∈ inputs) (sorted_keys latest_map).

(** The snapshot of the comparison monitor, from its [_latest] dict. *)
Definition snapshot_latest_values (latest_map : gmap string Comparison.latest)
    : gmap string Qc :=
  Comparison.latest_scalar <$> filter (λ kv, kv.1 ∈ inputs) latest_map.

Definition snapshot_deltas (latest_values : gmap string Qc) (active : list string)
    : gmap string Qc :=
  fold_left (λ d kv, <[kv.1 := kv.2]> d)
    (delta_entry latest_values <$> ordered_pairs active) ∅.

(** What taking in one update does to each monitor. *)
Definition comparison_take (m : Comparison.monitor) (u : update)
    : Comparison.monitor := {|
  Comparison.min_dt := Comparison.min_dt m;
  Comparison.max_points := Comparison.max_points m;
  Comparison._latest := <[u_name u := latest_entry u]> (Comparison._latest m);
  Comparison._series :=
    push (Comparison.max_points m) (u_name u) (observation u) (Comparison._series m);
  Comparison._last_t := Py.max (Comparison._last_t m) (u_time u);
  Comparison._outputs := Comparison._outputs m;
  Comparison._world_name := Comparison._world_name m;
|}.

Definition metrics_take (m : Metrics.monitor) (u : appended_update)
    : Metrics.monitor := {|
  Metrics.min_dt := Metrics.min_dt m;
  Metrics.max_points := Metrics.max_points m;
  Metrics._history :=
    push (Metrics.max_points m) (u_name u) (u_scalar u) (Metrics._history m);
  Metrics._latest_t :=
    match u_time u with
    | Some t => Py.max (Metrics._latest_t m) t
    | None => Metrics._latest_t m
    end;
  Metrics._outputs := Metrics._outputs m;
  Metrics._world_name := Metrics._world_name m;
|}.

(** The least and the greatest element of a window. *)
Definition is_minimum (m : Qc) (l : list Qc) : Prop :=
  m ∈ l ∧ Forall (λ x, m <= x) l.

Definition is_maximum (m : Qc) (l : list Qc) : Prop :=
  m ∈ l ∧ Forall (λ x, x <= m) l.

(** The snapshot aggregate [visualize] reads its table from: that of the
    stored signal, empty when there is none. *)
Definition stored_latest_values (m : Comparison.monitor) : gmap string Qc :=
  match Comparison._outputs m !! "comparison_state" with
  | Some sig => Comparison.latest_values (sig_value sig)
  | None => ∅
  end.

Definition stored_stream_metrics (m : Metrics.monitor) : gmap string Metrics.summary :=
  match Metrics._outputs m !! "metrics" with
  | Some sig => Metrics.stream_metrics (sig_value sig)
  | None => ∅
  end.

(** The row of the table for one stream of the aggregate. *)
Definition comparison_row (item : string * Qc) : list string :=
  [item.1; format_6f item.2].

Definition metrics_row (item : string * Metrics.summary) : list string :=
  [item.1; str_of_int (int_of_float (Metrics.count item.2));
   format_6f (Metrics.mean item.2); format_6f (Metrics.min item.2);
   format_6f (Metrics.max item.2)].

(** Whether an advance happened since construction or the last reset. *)
Definition advanced (calls : list call) : bool :=
  fold_left (λ b c,
    match c with
    | AdvanceTo _ => true
    | ResetCall => false
    | SetInputs _ | Attach _ => b
    end) calls false.

(** ** Sample inputs *)

Definition sample_signal (source name : string) (v : Py.obj) (t : Qc)
    : BioSignal Py.obj := {|
  sig_source := source;
  sig_name := name;
  sig_value := v;
  sig_time := Py.NFloat t;
  sig_metadata := {| description := None; kind := Some "state" |};
|}.

(** Three batches for [state_a], at times 1, 2, 3 with values 10, 20, 30. *)
Definition three_updates : list call := [
  SetInputs {[ "state_a" := sample_signal "a" "state_a" (PyFloat (Qc_of_Z 10)) (Qc_of_Z 1) ]};
  SetInputs {[ "state_a" := sample_signal "a" "state_a" (PyFloat (Qc_of_Z 20)) (Qc_of_Z 2) ]};
  SetInputs {[ "state_a" := sample_signal "a" "state_a" (PyFloat (Qc_of_Z 30)) (Qc_of_Z 3) ]}
].

(** The comparison scenario: [state_a = {x: 10, y: 20}] and
    [state_b = {x: 4, z: 8}] at t = 1. *)
Definition comparison_scenario : list call := [
  SetInputs {[
    "state_a" := sample_signal "a" "state_a"
                   (PyDict [("x", PyFloat (Qc_of_Z 10)); ("y", PyFloat (Qc_of_Z 20))]) 1;
    "state_b" := sample_signal "b" "state_b"
                   (PyDict [("x", PyFloat (Qc_of_Z 4)); ("z", PyFloat (Qc_of_Z 8))]) 1
  ]}
].

(** The metrics scenario: [state_a = {x: 1, y: 3}] and [state_b = 5.0] at
    t = 1, then [state_a = {x: 3, y: 5}] at t = 2. *)
Definition metrics_scenario : list call := [
  SetInputs {[
    "state_a" := sample_signal "a" "state_a"
                   (PyDict [("x", PyFloat 1); ("y", PyFloat (Qc_of_Z 3))]) 1;
    "state_b" := sample_signal "b" "state_b" (PyFloat (Qc_of_Z 5)) 1
  ]};
  SetInputs {[
    "state_a" := sample_signal "a" "state_a"
                   (PyDict [("x", PyFloat (Qc_of_Z 3)); ("y", PyFloat (Qc_of_Z 5))])
                   (Qc_of_Z 2)
  ]}
].

(** ** The projection as the specification words it *)

(** The number a numeric value stands for. *)
Definition number_value (n : Py.number) : Qc :=
  match n with
  | Py.NBool b => if b then 1 else 0
  | Py.NInt z => Qc_of_Z z
  | Py.NFloat q => q
  end.

(** The numeric entries of a collection, the others ignored. *)
Definition numeric_entries (vs : list Py.obj) : list Qc :=
  omap (λ v, number_value <$> Py.as_number v) vs.

Definition arithmetic_mean (xs : list Qc) : Qc :=
  foldr Qcplus 0 xs / Qc_of_Z (Z.of_nat (length xs)).

Definition mean_or_zero (xs : list Qc) : Qc :=
  match xs with
  | [] => 0
  | _ :: _ => arithmetic_mean xs
  end.

(** Number: itself.  Mapping, list: the mean of the numeric entries, 0 when
    there is none.  Any other shape: 0. *)
Definition projection_spec (v : Py.obj) : Qc :=
  match v with
  | PyBool b => if b then 1 else 0
  | PyInt z => Qc_of_Z z
  | PyFloat q => q
  | PyDict entries => mean_or_zero (numeric_entries entries.*2)
  | PyList items => mean_or_zero (numeric_entries items)
  | PyNone | PyStr _ | PyTuple _ => 0
  end.

(** An integer that [float] converts, and a value all of whose integers
    (itself, or its entries) are such. *)
Definition int_in_range (v : Py.obj) : bool :=
  match v with
  | PyInt z => bool_decide (Z.abs z < Py.float_overflow_bound)%Z
  | _ => true
  end.

Definition convertible (v : Py.obj) : bool :=
  match v with
  | PyInt _ => int_in_range v
  | PyDict entries => forallb int_in_range entries.*2
  | PyList items => forallb int_in_range items
  | _ => true
  end.

(** ** Vocabulary of the further properties *)

(** What [push] keeps of the list it appended to, whatever the capacity:
    the list itself, or its slice [[-max_points:]] when it is longer than
    [max_points]. *)
Definition window_of {A} (max_points : Z) (l : list A) : list A :=
  if bool_decide (max_points < Z.of_nat (length l))%Z
  then Py.slice_from (- max_points) l
  else l.

(** The signals of a batch under the names the monitors read. *)
Definition known (sigs : signals) : signals :=
  filter (λ kv, kv.1 ∈ inputs) sigs.

(** The update a present signal gives rise to, when its time converts to
    [t] and its value projects to [scalar]. *)
Definition update_of (name : string) (sig : BioSignal Py.obj) (t scalar : Qc)
    : update := {|
  u_name := name;
  u_time := t;
  u_scalar := scalar;
  u_source := sig_source sig;
|}.

(** A number that [float] converts, and a signal whose time and value both
    convert. *)
Definition time_converts (n : Py.number) : bool :=
  match n with
  | Py.NInt z => bool_decide (Z.abs z < Py.float_overflow_bound)%Z
  | _ => true
  end.

Definition converts (sig : BioSignal Py.obj) : bool :=
  time_converts (sig_time sig) && convertible (sig_value sig).

(** Whether every signal a batch holds under [names] converts. *)
Definition names_convert (names : list string) (sigs : signals) : bool :=
  forallb (λ name, from_option converts true (sigs !! name)) names.

(** The update a signal that converts gives rise to, and the updates of the
    signals a batch holds under [names]. *)
Definition whole_update (name : string) (sig : BioSignal Py.obj) : update :=
  update_of name sig (number_value (sig_time sig)) (projection_spec (sig_value sig)).

Definition whole_updates (names : list string) (sigs : signals) : list update :=
  omap (λ name, whole_update name <$> sigs !! name) names.

(** An update taken in whole, as the metrics monitor appends it; and the
    scalar of a signal, appended without its time. *)
Definition timed (u : update) : appended_update := {|
  u_name := u_name u;
  u_time := Some (u_time u);
  u_scalar := u_scalar u;
  u_source := u_source u;
|}.

Definition stranded_update (name : string) (sig : BioSignal Py.obj)
    : appended_update := {|
  u_name := name;
  u_time := None;
  u_scalar := projection_spec (sig_value sig);
  u_source := sig_source sig;
|}.

(** Whether the time of every signal a batch holds under [names]
    converts, and whether that is so in every batch of a list of calls. *)
Definition batch_times_convert (names : list string) (sigs : signals) : bool :=
  forallb (λ name,
    from_option (λ sig, time_converts (sig_time sig)) true (sigs !! name)) names.

Definition times_convert (calls : list call) : bool :=
  forallb (λ c,
    match c with
    | SetInputs sigs => batch_times_convert input_names sigs
    | _ => true
    end) calls.

(** The world name the host set last. *)
Definition last_world_name (calls : list call) : option string :=
  fold_left (λ w c, match c with Attach n => Some n | _ => w end) calls None.

Definition attach_of (w : option string) : list call :=
  match w with
  | Some n => [Attach n]
  | None => []
  end.

(** A batch fed one stream per call, in the order [names]. *)
Definition one_by_one (names : list string) (sigs : signals) : list call :=
  omap (λ name, (λ sig, SetInputs {[ name := sig ]}) <$> sigs !! name) names.

(** The summary [_summary] gives an empty window. *)
Definition zero_summary : Metrics.summary :=
  {| Metrics.count := 0; Metrics.mean := 0; Metrics.min := 0; Metrics.max := 0 |}.

(** Two monitors that differ at most in [min_dt]. *)
Definition comparison_same_but_min_dt (a b : Comparison.monitor) : Prop :=
  Comparison.max_points a = Comparison.max_points b
  ∧ Comparison._latest a = Comparison._latest b
  ∧ Comparison._series a = Comparison._series b
  ∧ Comparison._last_t a = Comparison._last_t b
  ∧ Comparison._outputs a = Comparison._outputs b
  ∧ Comparison._world_name a = Comparison._world_name b.

Definition metrics_same_but_min_dt (a b : Metrics.monitor) : Prop :=
  Metrics.max_points a = Metrics.max_points b
  ∧ Metrics._history a = Metrics._history b
  ∧ Metrics._latest_t a = Metrics._latest_t b
  ∧ Metrics._outputs a = Metrics._outputs b
  ∧ Metrics._world_name a = Metrics._world_name b.

(** A stored snapshot of the comparison monitor whose parts agree. *)
Definition comparison_snapshot_ok (sig : BioSignal Comparison.payload) : Prop :=
  sig_name sig = "comparison_state"
  ∧ sig_time sig = Py.NFloat (Comparison.t (sig_value sig))
  ∧ sig_metadata sig = {| description := Some "State comparison summary";
                          kind := Some "state" |}
  ∧ dom (Comparison.latest_values (sig_value sig)) ⊆ inputs
  ∧ Comparison.n_streams (sig_value sig)
    = size (Comparison.latest_values (sig_value sig))
  ∧ (2 * size (Comparison.pairwise_deltas (sig_value sig))
     = Comparison.n_streams (sig_value sig)
       * (Comparison.n_streams (sig_value sig) - 1))%nat
  ∧ ∀ key v,
      Comparison.pairwise_deltas (sig_value sig) !! key = Some v
      ↔ ∃ l r x y,
          Comparison.latest_values (sig_value sig) !! l = Some x
          ∧ Comparison.latest_values (sig_value sig) !! r = Some y
          ∧ str_lt l r
          ∧ key = Comparison.delta_key l r
          ∧ v = x - y.

Definition metrics_snapshot_ok (sig : BioSignal Metrics.payload) : Prop :=
  sig_name sig = "metrics"
  ∧ sig_time sig = Py.NFloat (Metrics.t (sig_value sig))
  ∧ sig_metadata sig = {| description := Some "State stream metrics summary";
                          kind := Some "state" |}
  ∧ dom (Metrics.stream_metrics (sig_value sig)) ⊆ inputs
  ∧ Metrics.stream_count (sig_value sig)
    = size (Metrics.stream_metrics (sig_value sig)).

(** The history of a stream whose observations are [obs] when nothing is
    ever discarded, and when nothing is ever kept. *)
Definition kept_whole {A} (obs : list A) : option (list A) :=
  match obs with
  | [] => None
  | _ :: _ => Some obs
  end.

Definition kept_empty {A} (obs : list A) : option (list A) :=
  match obs with
  | [] => None
  | _ :: _ => Some []
  end.

(** The history of a stream built append by append, for any capacity. *)
Definition history_by_appends {A} (max_points : Z) (obs : list A)
    : option (list A) :=
  fold_left (λ h x, Some (window_of max_points (default [] h ++ [x]))) obs None.

(** A batch with a stream the monitors do not read. *)
Definition unknown_batch : signals :=
  {[ "state_z" := sample_signal "z" "state_z" (PyFloat 1) 1 ]}.

(** A batch whose second stream holds an integer beyond the range of a
    double. *)
Definition overflowing_batch : signals :=
  {[ "state_a" := sample_signal "a" "state_a" (PyFloat 1) 1;
     "state_b" := sample_signal "b" "state_b" (PyInt (10 ^ 400)) (Qc_of_Z 2);
     "state_c" := sample_signal "c" "state_c" (PyFloat 1) (Qc_of_Z 3) ]}.

(** A batch whose second stream is stamped with an integer beyond the
    range of a double. *)
Definition late_batch : signals :=
  {[ "state_a" := sample_signal "a" "state_a" (PyFloat 1) 1;
     "state_b" := {| sig_source := "b"; sig_name := "state_b";
                     sig_value := PyFloat (Qc_of_Z 2);
                     sig_time := Py.NInt (10 ^ 400);
                     sig_metadata := {| description := None;
                                        kind := Some "state" |} |};
     "state_c" := sample_signal "c" "state_c" (PyFloat 1) (Qc_of_Z 3) ]}.

(** A batch of two input streams and one stream the monitors do not read. *)
Definition two_stream_batch : signals :=
  {[ "state_a" := sample_signal "a" "state_a" (PyFloat (Qc_of_Z 7)) (Qc_of_Z 2);
     "state_c" := sample_signal "c" "state_c" (PyList [PyInt 1; PyInt 2]) 1;
     "state_z" := sample_signal "z" "state_z" (PyFloat 1) (Qc_of_Z 5) ]}.

(* ===================================================================== *)
(** * Part II: properties *)
(* ===================================================================== *)

(** ** The scalar projection *)

Lemma extract_scalar_eq v : _extract_scalar v = _scalar_projection v.
Proof. reflexivity. Qed.

Lemma sum_foldr xs : Py.sum xs = foldr Qcplus 0 xs.
Proof.
  unfold Py.sum. apply fold_symmetric; intros; ring.
Qed.

Lemma mean_if_any_spec xs : default 0 (mean_if_any xs) = mean_or_zero xs.
Proof.
  destruct xs as [|x xs]; [done|]. cbn [mean_if_any mean_or_zero default].
  unfold arithmetic_mean. by rewrite sum_foldr.
Qed.

Lemma floats_of_spec vs :
  Py.floats_of vs =
    if forallb int_in_range vs then Ok (numeric_entries vs) else Raise OverflowError.
Proof.
  induction vs as [|v vs IH]; [done|].
  cbn [Py.floats_of forallb]. unfold numeric_entries in *. cbn [omap list_omap].
  destruct v as [ |b|z|q|s|items|items|entries]; cbn; try exact IH.
  - rewrite IH. by destruct (forallb int_in_range vs).
  - unfold Py.float_of_int. case_bool_decide; cbn; [|done].
    rewrite IH. by destruct (forallb int_in_range vs).
  - rewrite IH. by destruct (forallb int_in_range vs).
Qed.

Lemma projection_of_collection vs :
  (nums ← Py.floats_of vs; Ok (mean_if_any nums)) ≫=
     (λ r : option Qc, match r with Some x => Ok x | None => Ok 0 end)
  = if forallb int_in_range vs then Ok (mean_or_zero (numeric_entries vs))
    else Raise OverflowError.
Proof.
  rewrite floats_of_spec. destruct (forallb int_in_range vs); [|done].
  cbn. rewrite <- mean_if_any_spec. by destruct (mean_if_any _).
Qed.

Lemma scalar_projection_spec v :
  _scalar_projection v =
    if convertible v then Ok (projection_spec v) else Raise OverflowError.
Proof.
  destruct v as [ |b|z|q|s|items|items|entries]; try done.
  - unfold _scalar_projection. cbn [Py.as_number Py.is_dict Py.is_list Py.list_items convertible projection_spec].
    cbn [mbind result_bind]. rewrite <- projection_of_collection. cbn.
    by destruct (Py.floats_of items).
  - unfold _scalar_projection. cbn [Py.as_number Py.is_dict Py.is_list Py.dict_values convertible projection_spec].
    rewrite <- projection_of_collection. cbn.
    destruct (Py.floats_of entries.*2) as [nums|]; cbn; [|done].
    by destruct (mean_if_any nums).
Qed.

(** C1 as stated fails, in two ways.  The projection is not total: [float]
    raises [OverflowError] on an integer beyond the range of a double, bare
    or as an entry of a mapping, in both monitors' projections.  And not
    every sequence is averaged: the code tests [isinstance(value, list)], so
    the tuple [(1, 3)] falls through to 0 where the list [[1, 3]] projects
    to its mean 2. *)
Lemma scalar_projection_overflow_and_tuple :
  _scalar_projection (PyInt (10 ^ 400)) = Raise OverflowError
  ∧ _extract_scalar (PyDict [("x", PyFloat 1); ("y", PyInt (10 ^ 400))])
    = Raise OverflowError
  ∧ ¬ (∀ v, is_Ok (_scalar_projection v))
  ∧ _scalar_projection (PyTuple [PyInt 1; PyInt 3]) = Ok 0
  ∧ _extract_scalar (PyTuple [PyInt 1; PyInt 3]) = Ok 0
  ∧ _scalar_projection (PyList [PyInt 1; PyInt 3]) = Ok (Qc_of_Z 2).
Proof.
  split_and!; [compute_done|compute_done| |compute_done..].
  intros Htotal. destruct (Htotal (PyInt (10 ^ 400))) as [x Hx].
  by vm_compute in Hx.
Qed.

(** C1 (amended): the projection is shape-directed, and total on every value
    whose integers are within the range of a double.  On such a value a
    number projects to itself, a mapping and a list to the arithmetic mean of
    their numeric entries (the others ignored, 0 when there is none), any
    other shape, a tuple included, to 0; on a value with an integer beyond
    that range it raises [OverflowError].  Both monitors' projections are
    this function. *)
Theorem scalar_projection_shape_directed (v : Py.obj) :
  _scalar_projection v
    = (if convertible v then Ok (projection_spec v) else Raise OverflowError)
  ∧ _extract_scalar v = _scalar_projection v.
Proof. split; [apply scalar_projection_spec | apply extract_scalar_eq]. Qed.

(** C10: Booleans are numbers for the projection.  [True] projects to 1 and
    [False] to 0, a Boolean entry of a mapping or a list contributes its
    number to the mean, and [{"x": True, "y": 3}] projects to 2. *)
Theorem scalar_projection_bool :
  (∀ b, _scalar_projection (PyBool b) = Ok (if b then 1 else 0)
        ∧ _extract_scalar (PyBool b) = Ok (if b then 1 else 0))
  ∧ (∀ b vs, Py.floats_of (PyBool b :: vs)
             = cons (if b then 1 else 0) <$> Py.floats_of vs)
  ∧ _scalar_projection (PyDict [("x", PyBool true); ("y", PyInt 3)])
    = Ok (Qc_of_Z 2)
  ∧ _extract_scalar (PyDict [("x", PyBool true); ("y", PyInt 3)])
    = Ok (Qc_of_Z 2)
  ∧ _scalar_projection (PyList [PyBool true; PyInt 3]) = Ok (Qc_of_Z 2)
  ∧ _scalar_projection (PyList [PyBool false; PyStr "n/a"; PyBool true])
    = Ok (Q2Qc (1 # 2)).
Proof.
  split_and!; [done| |compute_done..].
  intros b vs. cbn. by destruct (Py.floats_of vs).
Qed.

(** ** The bounded history store *)

Section window.
Context {T A : Type}.
Implicit Types (l : list A) (x : A) (d : gmap string (list A)).

Lemma most_recent_length n l : length (most_recent n l) = Nat.min n (length l).
Proof. unfold most_recent. rewrite length_drop. lia. Qed.

Lemma most_recent_all n l : (length l ≤ n)%nat → most_recent n l = l.
Proof.
  intros Hle. unfold most_recent.
  by replace (length l - n)%nat with 0%nat by lia.
Qed.

Lemma most_recent_snoc n l x :
  (0 < n)%nat → most_recent n (most_recent n l ++ [x]) = most_recent n (l ++ [x]).
Proof.
  intros Hn. unfold most_recent.
  rewrite !length_app, length_drop. cbn [length].
  destruct (decide (length l ≤ n)%nat) as [Hle|Hgt].
  - replace (length l - n)%nat with 0%nat by lia. cbn [drop].
    by replace (length l - 0 + 1 - n)%nat with (length l + 1 - n)%nat by lia.
  - replace (length l - (length l - n) + 1 - n)%nat with 1%nat by lia.
    replace (length l + 1 - n)%nat with (length l - n + 1)%nat by lia.
    rewrite !drop_app_le by (rewrite ?length_drop; lia).
    by rewrite drop_drop.
Qed.

(** The suffix of [l] is a suffix: the elements kept are the last ones, in
    order. *)
Lemma most_recent_suffix n l : most_recent n l `suffix_of` l.
Proof. apply suffix_drop. Qed.

(** [l[-n:]] of a list longer than a positive [n] is its last [n]
    elements. *)
Lemma slice_from_neg (n : Z) l :
  (0 < n)%Z → Py.slice_from (- n) l = most_recent (Z.to_nat n) l.
Proof.
  intros Hn. unfold Py.slice_from, most_recent.
  rewrite bool_decide_eq_true_2 by lia. f_equal. lia.
Qed.

(** One append to the store, for a positive capacity. *)
Lemma push_lookup (mp : Z) name x d :
  (0 < mp)%Z →
  push mp name x d !! name
    = Some (most_recent (Z.to_nat mp) (default [] (d !! name) ++ [x])).
Proof.
  intros Hmp. unfold push. case_bool_decide as Hlen.
  - rewrite lookup_insert_eq. by rewrite slice_from_neg.
  - rewrite lookup_insert_eq. rewrite most_recent_all; [done|lia].
Qed.

Lemma push_lookup_ne (mp : Z) name name' x d :
  name ≠ name' → push mp name x d !! name' = d !! name'.
Proof.
  intros Hne. unfold push. case_bool_decide; by rewrite lookup_insert_ne.
Qed.

Lemma push_dom (mp : Z) name x d : dom (push mp name x d) = {[name]} ∪ dom d.
Proof. unfold push. case_bool_decide; by rewrite dom_insert_L. Qed.

Lemma store_after_lookup (mp : Z) (f : update_ T → A) ups name :
  (0 < mp)%Z →
  store_after mp f ups ∅ !! name = retained mp (f <$> updates_of name ups).
Proof.
  intros Hmp. induction ups as [|u ups IH] using rev_ind; [done|].
  unfold store_after, updates_of in *. rewrite fold_left_app. cbn [fold_left].
  rewrite filter_app, fmap_app.
  destruct (decide (u_name u = name)) as [<-|Hne].
  - rewrite push_lookup by done. rewrite IH.
    rewrite (filter_cons_True _ u) by done. cbn [filter list_filter fmap list_fmap].
    destruct (f <$> filter _ ups) as [|o obs]; cbn [retained default app].
    + done.
    + unfold id. by rewrite (most_recent_snoc _ (o :: obs)) by lia.
  - rewrite push_lookup_ne by done. rewrite IH.
    rewrite (filter_cons_False _ u) by done. cbn [filter list_filter fmap list_fmap].
    by rewrite app_nil_r.
Qed.

Lemma store_after_dom (mp : Z) (f : update_ T → A) ups d :
  dom (store_after mp f ups d) = active_streams ups ∪ dom d.
Proof.
  revert d. unfold store_after, active_streams.
  induction ups as [|u ups IH]; intros d; cbn [fold_left fmap list_fmap list_to_set].
  - set_solver.
  - rewrite IH, push_dom. set_solver.
Qed.
End window.

(** ** Ingestion: a batch of updates, and a run of calls *)

Lemma sorted_inputs : sorted (elements inputs) = input_names.
Proof. by vm_compute. Qed.

Lemma comparison_set_inputs_ingested sigs m :
  (Comparison.set_inputs sigs m).1
    = fold_left comparison_take (ingested _scalar_projection input_names sigs) m.
Proof.
  unfold Comparison.set_inputs. rewrite sorted_inputs.
  generalize input_names as names. intros names. revert m.
  induction names as [|name names IH]; intros m; [done|].
  cbn [for_each_input ingested].
  destruct (sigs !! name) as [sig|]; [|apply IH].
  unfold Comparison.ingest at 1.
  destruct (Py.float (sig_time sig)) as [t|e]; [|reflexivity].
  destruct (_scalar_projection (sig_value sig)) as [scalar|e]; [|reflexivity].
  cbn [fold_left]. apply IH.
Qed.

Lemma metrics_set_inputs_ingested sigs m :
  (Metrics.set_inputs sigs m).1
    = fold_left metrics_take (appended _extract_scalar input_names sigs) m.
Proof.
  unfold Metrics.set_inputs. rewrite sorted_inputs.
  generalize input_names as names. intros names. revert m.
  induction names as [|name names IH]; intros m; [done|].
  cbn [for_each_input appended].
  destruct (sigs !! name) as [sig|]; [|apply IH].
  unfold Metrics.ingest at 1.
  destruct (_extract_scalar (sig_value sig)) as [scalar|e]; [|reflexivity].
  destruct (Py.float (sig_time sig)) as [t|e]; [|reflexivity].
  cbn [fold_left]. apply IH.
Qed.

(** The times the metrics monitor has converted are those of the updates
    taken in whole. *)
Lemma stamps_appended proj names sigs :
  stamps (appended proj names sigs) = timestamps (ingested proj names sigs).
Proof.
  induction names as [|name names IH]; [reflexivity|].
  cbn [appended ingested].
  destruct (sigs !! name) as [sig|]; [|exact IH].
  destruct (proj (sig_value sig)) as [scalar|e];
    destruct (Py.float (sig_time sig)) as [t|e']; try reflexivity.
  unfold stamps, timestamps in *. cbn [omap list_omap u_time fmap list_fmap].
  by rewrite IH.
Qed.

(** The attributes after a batch of updates. *)
Lemma comparison_take_all ups m :
  let m' := fold_left comparison_take ups m in
  Comparison.max_points m' = Comparison.max_points m
  ∧ Comparison.min_dt m' = Comparison.min_dt m
  ∧ Comparison._series m'
    = store_after (Comparison.max_points m) observation ups (Comparison._series m)
  ∧ Comparison._latest m' = latest_after ups (Comparison._latest m)
  ∧ Comparison._last_t m' = high_water (timestamps ups) (Comparison._last_t m)
  ∧ Comparison._outputs m' = Comparison._outputs m
  ∧ Comparison._world_name m' = Comparison._world_name m.
Proof.
  revert m. induction ups as [|u ups IH]; intros m; [done|].
  cbn [fold_left]. destruct (IH (comparison_take m u)) as (-> & -> & -> & -> & -> & -> & ->).
  done.
Qed.

Lemma metrics_take_all ups m :
  let m' := fold_left metrics_take ups m in
  Metrics.max_points m' = Metrics.max_points m
  ∧ Metrics.min_dt m' = Metrics.min_dt m
  ∧ Metrics._history m'
    = store_after (Metrics.max_points m) u_scalar ups (Metrics._history m)
  ∧ Metrics._latest_t m' = high_water (stamps ups) (Metrics._latest_t m)
  ∧ Metrics._outputs m' = Metrics._outputs m
  ∧ Metrics._world_name m' = Metrics._world_name m.
Proof.
  revert m. induction ups as [|u ups IH]; intros m; [done|].
  cbn [fold_left]. destruct (IH (metrics_take m u)) as (-> & -> & -> & -> & -> & ->).
  split_and!; try reflexivity.
  unfold stamps. cbn [omap list_omap metrics_take Metrics._latest_t].
  by destruct (u_time u).
Qed.

(** ** The order of names and [sorted] *)

Lemma str_compare_gt a b : String_as_OT.compare a b = Gt → str_lt b a.
Proof.
  intros H. destruct (String_as_OT.compare_spec a b) as [?|?|Hlt]; try done.
Qed.

Lemma str_lt_irrefl a : ¬ str_lt a a.
Proof. apply (irreflexivity String_as_OT.lt). Qed.

Lemma str_lt_trans a b c : str_lt a b → str_lt b c → str_lt a c.
Proof. apply (transitivity (R := String_as_OT.lt)). Qed.

Lemma str_le_lt_eq a b : str_le a b ↔ str_lt a b ∨ a = b.
Proof.
  unfold str_le, str_lt. split.
  - intros H. destruct (String_as_OT.compare_spec a b) as [?|?|?]; auto. done.
  - intros [->| ->]; [done|].
    destruct (String_as_OT.compare_spec b b) as [?|?|Hlt]; try done.
    by apply str_lt_irrefl in Hlt.
Qed.

#[global] Instance str_le_total : Total str_le.
Proof.
  intros a b. unfold str_le.
  destruct (String_as_OT.compare a b) eqn:Hab; auto.
  right. by rewrite (str_compare_gt _ _ Hab).
Qed.

#[global] Instance str_le_trans : Transitive str_le.
Proof.
  intros a b c. rewrite !str_le_lt_eq.
  intros [Hab| ->] [Hbc| ->]; eauto using str_lt_trans.
Qed.

Lemma str_lt_asym a b : str_lt a b → ¬ str_lt b a.
Proof. intros Hab Hba. exact (str_lt_irrefl a (str_lt_trans _ _ _ Hab Hba)). Qed.

(** A sorted list without repetition is strictly sorted. *)
Lemma strictly_sorted l :
  NoDup l → StronglySorted str_le l → StronglySorted str_lt l.
Proof.
  induction 2 as [|x l Hl IH Hx]; [constructor|].
  apply NoDup_cons in H as [Hnotin Hnodup].
  constructor; [by apply IH|].
  apply Forall_forall. intros y Hy.
  rewrite Forall_forall in Hx. specialize (Hx y Hy).
  apply str_le_lt_eq in Hx as [?| ->]; done.
Qed.

Lemma sorted_perm l : sorted l ≡ₚ l.
Proof. apply merge_sort_Permutation. Qed.

Lemma sorted_keys_elem {V} (d : gmap string V) k : k ∈ sorted_keys d ↔ k ∈ dom d.
Proof. unfold sorted_keys. by rewrite sorted_perm, elem_of_elements. Qed.

Lemma sorted_keys_NoDup {V} (d : gmap string V) : NoDup (sorted_keys d).
Proof. unfold sorted_keys. rewrite sorted_perm. apply NoDup_elements. Qed.

Lemma sorted_keys_sorted {V} (d : gmap string V) :
  StronglySorted str_lt (sorted_keys d).
Proof.
  apply strictly_sorted; [apply sorted_keys_NoDup|].
  apply StronglySorted_merge_sort; apply _.
Qed.

Lemma sorted_items_perm {V} (d : gmap string V) : sorted_items d ≡ₚ map_to_list d.
Proof. apply merge_sort_Permutation. Qed.

Lemma sorted_items_elem {V} (d : gmap string V) k v :
  (k, v) ∈ sorted_items d ↔ d !! k = Some v.
Proof. by rewrite sorted_items_perm, elem_of_map_to_list. Qed.

Lemma sorted_items_keys {V} (d : gmap string V) :
  (sorted_items d).*1 = sorted_keys d.
Proof.
  (* two strictly sorted lists with the same elements are equal *)
  assert (Hperm : (sorted_items d).*1 ≡ₚ sorted_keys d).
  { apply NoDup_Permutation.
    - rewrite sorted_items_perm. apply NoDup_fst_map_to_list.
    - apply sorted_keys_NoDup.
    - intros k. rewrite sorted_keys_elem, elem_of_dom, list_elem_of_fmap.
      split.
      + intros [[k' v] [-> Hin]]. apply sorted_items_elem in Hin. by eexists.
      + intros [v Hv]. exists (k, v). by rewrite sorted_items_elem. }
  assert (Hs1 : StronglySorted str_le (sorted_items d).*1).
  { assert (Hs : StronglySorted item_le (sorted_items d)).
    { apply StronglySorted_merge_sort.
      - intros x y z. unfold item_le. apply str_le_trans.
      - intros x y. unfold item_le. apply str_le_total. }
    clear Hperm. induction Hs as [|x l Hl IH Hx]; [constructor|].
    cbn. constructor; [done|]. by apply Forall_fmap. }
  assert (Hs2 : StronglySorted str_le (sorted_keys d)).
  { apply StronglySorted_merge_sort; apply _. }
  apply (StronglySorted_unique_strong str_le); [|done..].
  intros a b _ _. rewrite !str_le_lt_eq.
  intros [Hab|Heq] [Hba|Heq']; [|done..]. by apply str_lt_asym in Hab.
Qed.

(** ** Dicts built by a loop of assignments *)

Lemma fold_insert_list_to_map {V} (l : list (string * V)) (acc : gmap string V) :
  fold_left (λ d kv, <[kv.1 := kv.2]> d) l acc = list_to_map (reverse l) ∪ acc.
Proof.
  revert acc. induction l as [|[k v] l IH]; intros acc.
  - cbn. by rewrite (left_id_L ∅ (∪)).
  - cbn [fold_left]. rewrite IH, reverse_cons, list_to_map_app. cbn.
    rewrite <- (assoc_L (∪)). f_equal.
    rewrite insert_empty. by rewrite <- insert_union_singleton_l.
Qed.

Lemma fold_insert_lookup {V} (l : list (string * V)) k v :
  NoDup l.*1 →
  fold_left (λ d kv, <[kv.1 := kv.2]> d) l (∅ : gmap string V) !! k = Some v
  ↔ (k, v) ∈ l.
Proof.
  intros Hnodup. rewrite fold_insert_list_to_map, (right_id_L ∅ (∪)).
  rewrite <- elem_of_list_to_map by (by rewrite fmap_reverse, reverse_Permutation).
  by rewrite elem_of_reverse.
Qed.

Lemma fold_insert_fmap {A V} (f : A → string * V) (l : list A)
    (acc : gmap string V) :
  fold_left (λ d x, <[(f x).1 := (f x).2]> d) l acc
    = fold_left (λ d kv, <[kv.1 := kv.2]> d) (f <$> l) acc.
Proof. revert acc. induction l as [|x l IH]; intros acc; [done|]. cbn. apply IH. Qed.

(** A dict comprehension over [sorted(d.items())] maps the values of [d]. *)
Lemma comprehension_sorted_items {V W} (f : V → W) (d : gmap string V) :
  fold_left (λ acc item, <[item.1 := f item.2]> acc) (sorted_items d) ∅ = f <$> d.
Proof.
  apply map_eq. intros k. apply option_eq. intros w.
  rewrite (fold_insert_fmap (λ item, (item.1, f item.2))).
  rewrite fold_insert_lookup.
  - rewrite lookup_fmap, fmap_Some, list_elem_of_fmap. split.
    + intros [[k' v] [[= -> ->] Hin]]. apply sorted_items_elem in Hin. eauto.
    + intros [v [Hv ->]]. exists (k, v). by rewrite sorted_items_elem.
  - rewrite <- list_fmap_compose.
    change (NoDup (sorted_items d).*1).
    rewrite sorted_items_keys. apply sorted_keys_NoDup.
Qed.

(** ** Ordered pairs of active streams *)

Lemma StronglySorted_filter {A} (R : relation A) (P : A → Prop)
    `{∀ x, Decision (P x)} l :
  StronglySorted R l → StronglySorted R (filter P l).
Proof.
  induction 1 as [|x l Hl IH Hx]; [constructor|].
  rewrite filter_cons. case_decide; [|done].
  constructor; [done|].
  rewrite Forall_forall in Hx. apply Forall_forall.
  intros y [_ Hy]%list_elem_of_filter. by apply Hx.
Qed.

Lemma active_names_sorted latest_map : StronglySorted str_lt (active_names latest_map).
Proof. apply StronglySorted_filter, sorted_keys_sorted. Qed.

Lemma active_names_NoDup latest_map : NoDup (active_names latest_map).
Proof. apply NoDup_filter, sorted_keys_NoDup. Qed.

Lemma active_names_elem latest_map k :
  k ∈ active_names latest_map ↔ k ∈ inputs ∧ is_Some (latest_map !! k).
Proof.
  unfold active_names. rewrite list_elem_of_filter, sorted_keys_elem, elem_of_dom.
  done.
Qed.

Lemma ordered_pairs_elem l x y :
  StronglySorted str_lt l →
  (x, y) ∈ ordered_pairs l ↔ x ∈ l ∧ y ∈ l ∧ str_lt x y.
Proof.
  induction 1 as [|z l Hl IH Hz]; cbn [ordered_pairs].
  - rewrite !elem_of_nil. tauto.
  - rewrite Forall_forall in Hz.
    rewrite elem_of_app, list_elem_of_fmap, IH, !elem_of_cons. split.
    + intros [(y' & [= -> ->] & Hy)|(Hx & Hy & Hlt)]; eauto 6.
    + intros ([->|Hx] & [->|Hy] & Hlt).
      * by apply str_lt_irrefl in Hlt.
      * left. eauto.
      * exfalso. eapply str_lt_asym; [exact Hlt|]. by apply Hz.
      * right. eauto.
Qed.

Lemma ordered_pairs_members l x y : (x, y) ∈ ordered_pairs l → x ∈ l ∧ y ∈ l.
Proof.
  induction l as [|z l IH]; cbn [ordered_pairs].
  - by rewrite elem_of_nil.
  - rewrite elem_of_app, list_elem_of_fmap, !elem_of_cons.
    intros [(y' & [= -> ->] & Hy)|Hin]; [eauto|].
    apply IH in Hin as [??]. eauto.
Qed.

Lemma ordered_pairs_NoDup l : NoDup l → NoDup (ordered_pairs l).
Proof.
  induction 1 as [|z l Hz Hl IH]; cbn [ordered_pairs]; [constructor|].
  apply NoDup_app. split_and!.
  - apply NoDup_fmap_2; [|done]. by intros ?? [= ->].
  - intros [x y] (y' & [= -> ->] & Hy)%list_elem_of_fmap Hin.
    by apply ordered_pairs_members in Hin as [??].
  - done.
Qed.

Lemma ordered_pairs_length l :
  (2 * length (ordered_pairs l) = length l * (length l - 1))%nat.
Proof.
  induction l as [|z l IH]; [done|].
  cbn [ordered_pairs]. rewrite length_app, length_fmap. cbn [length]. nia.
Qed.

(** The labels of two pairs of input streams differ when the pairs do. *)
Lemma delta_key_inj_inputs :
  Forall (λ a, Forall (λ b, Forall (λ c, Forall (λ d,
    Comparison.delta_key a b = Comparison.delta_key c d → a = c ∧ b = d)
    input_names) input_names) input_names) input_names.
Proof. compute_done. Qed.

Lemma delta_key_inj a b c d :
  a ∈ inputs → b ∈ inputs → c ∈ inputs → d ∈ inputs →
  Comparison.delta_key a b = Comparison.delta_key c d → a = c ∧ b = d.
Proof.
  assert (Hin : ∀ x, x ∈ inputs → x ∈ input_names).
  { intros x. unfold inputs, input_names. set_solver. }
  intros Ha%Hin Hb%Hin Hc%Hin Hd%Hin.
  pose proof delta_key_inj_inputs as H.
  rewrite Forall_forall in H. specialize (H a Ha).
  rewrite Forall_forall in H. specialize (H b Hb).
  rewrite Forall_forall in H. specialize (H c Hc).
  rewrite Forall_forall in H. exact (H d Hd).
Qed.

(** ** [advance_to] of the comparison monitor *)

Lemma latest_values_of_fold latest_map active acc :
  (∀ k, k ∈ active → is_Some (latest_map !! k)) →
  Comparison.latest_values_of latest_map active acc
    = Ok (fold_left (λ d kv, <[kv.1 := kv.2]> d)
            ((λ k, (k, default 0 (Comparison.latest_scalar <$> latest_map !! k)))
               <$> active) acc).
Proof.
  revert acc. induction active as [|k active IH]; intros acc Hin; [done|].
  cbn [Comparison.latest_values_of fmap list_fmap fold_left].
  destruct (Hin k) as [e He]; [left|]. unfold getitem. rewrite He. cbn.
  apply IH. intros k' Hk'. apply Hin. by right.
Qed.

Lemma latest_values_of_snapshot latest_map :
  Comparison.latest_values_of latest_map (active_names latest_map) ∅
    = Ok (snapshot_latest_values latest_map).
Proof.
  rewrite latest_values_of_fold by (by intros k [_ ?]%active_names_elem).
  f_equal. apply map_eq. intros k. apply option_eq. intros x.
  rewrite fold_insert_lookup.
  - unfold snapshot_latest_values.
    rewrite lookup_fmap, fmap_Some, list_elem_of_fmap. split.
    + intros (k' & [= -> ->] & [Hk [e He]]%active_names_elem).
      exists e. rewrite He. split; [|done].
      by apply map_lookup_filter_Some.
    + intros (e & [He Hk]%map_lookup_filter_Some & ->). exists k.
      rewrite He. split; [done|]. apply active_names_elem. eauto.
  - rewrite <- list_fmap_compose.
    rewrite (list_fmap_ext _ id (active_names latest_map)) by done.
    rewrite list_fmap_id. apply active_names_NoDup.
Qed.

Lemma deltas_of_left_fold lv left' rights deltas :
  is_Some (lv !! left') → (∀ r, r ∈ rights → is_Some (lv !! r)) →
  Comparison.deltas_of_left lv left' rights deltas
    = Ok (fold_left (λ d kv, <[kv.1 := kv.2]> d)
            (delta_entry lv <$> ((λ y, (left', y)) <$> rights)) deltas).
Proof.
  intros [x Hx]. revert deltas.
  induction rights as [|r rights IH]; intros deltas Hin; [done|].
  cbn [Comparison.deltas_of_left fmap list_fmap fold_left].
  destruct (Hin r) as [y Hy]; [left|]. unfold getitem. rewrite Hx, Hy. cbn.
  rewrite IH by (intros r' Hr'; apply Hin; by right).
  by rewrite Hx, Hy.
Qed.

Lemma deltas_loop_fold lv active deltas :
  (∀ k, k ∈ active → is_Some (lv !! k)) →
  Comparison.deltas_loop lv active deltas
    = Ok (fold_left (λ d kv, <[kv.1 := kv.2]> d)
            (delta_entry lv <$> ordered_pairs active) deltas).
Proof.
  revert deltas. induction active as [|k active IH]; intros deltas Hin; [done|].
  cbn [Comparison.deltas_loop ordered_pairs].
  rewrite deltas_of_left_fold.
  - cbn. rewrite IH by (intros k' Hk'; apply Hin; by right).
    by rewrite fmap_app, fold_left_app.
  - apply Hin. by left.
  - intros r Hr. apply Hin. by right.
Qed.

Lemma snapshot_latest_values_lookup latest_map k :
  snapshot_latest_values latest_map !! k
    = if decide (k ∈ inputs) then Comparison.latest_scalar <$> latest_map !! k
      else None.
Proof.
  unfold snapshot_latest_values. rewrite lookup_fmap, map_lookup_filter.
  destruct (latest_map !! k) as [e|]; cbn; [|by case_decide].
  case_guard; done.
Qed.

(** [advance_to] never raises, and leaves everything but [_outputs] alone. *)
Lemma comparison_advance_to t m :
  Comparison.advance_to t m = Ok {|
    Comparison.min_dt := Comparison.min_dt m;
    Comparison.max_points := Comparison.max_points m;
    Comparison._latest := Comparison._latest m;
    Comparison._series := Comparison._series m;
    Comparison._last_t := Comparison._last_t m;
    Comparison._outputs := {[ "comparison_state" := {|
      sig_source := default Comparison.class_name (Comparison._world_name m);
      sig_name := "comparison_state";
      sig_value := {|
        Comparison.t := Py.max t (Comparison._last_t m);
        Comparison.latest_values := snapshot_latest_values (Comparison._latest m);
        Comparison.pairwise_deltas :=
          snapshot_deltas (snapshot_latest_values (Comparison._latest m))
            (active_names (Comparison._latest m));
        Comparison.n_streams := length (active_names (Comparison._latest m));
      |};
      sig_time := Py.NFloat (Py.max t (Comparison._last_t m));
      sig_metadata := {| description := Some "State comparison summary";
                         kind := Some "state" |};
    |} ]};
    Comparison._world_name := Comparison._world_name m;
  |}.
Proof.
  unfold Comparison.advance_to. fold (active_names (Comparison._latest m)).
  rewrite latest_values_of_snapshot. cbn [mbind result_bind].
  rewrite deltas_loop_fold; [done|].
  intros k [Hk [e He]]%active_names_elem.
  rewrite snapshot_latest_values_lookup, decide_True, He by done. by eexists.
Qed.

(** ** High-water time *)

Lemma py_max_l a b : a <= Py.max a b.
Proof.
  unfold Py.max. case_bool_decide; [by apply Qclt_le_weak|apply Qcle_refl].
Qed.

Lemma py_max_r a b : b <= Py.max a b.
Proof.
  unfold Py.max. case_bool_decide; [apply Qcle_refl|by apply Qcnot_lt_le].
Qed.

Lemma py_max_cases a b : Py.max a b = a ∨ Py.max a b = b.
Proof. unfold Py.max. case_bool_decide; auto. Qed.

Lemma py_max_absorb a b : b <= a → Py.max a b = a.
Proof.
  intros Hle. unfold Py.max. case_bool_decide as Hlt; [|done].
  by apply Qclt_not_le in Hlt.
Qed.

Lemma high_water_ge_start ts t0 : t0 <= high_water ts t0.
Proof.
  revert t0. induction ts as [|t ts IH]; intros t0; [apply Qcle_refl|].
  cbn. eapply Qcle_trans; [apply (py_max_l t0 t)|apply IH].
Qed.

Lemma high_water_ge_each ts t0 t : t ∈ ts → t <= high_water ts t0.
Proof.
  revert t0. induction ts as [|t' ts IH]; intros t0; [by rewrite elem_of_nil|].
  rewrite elem_of_cons. intros [->|Hin]; cbn.
  - eapply Qcle_trans; [apply (py_max_r t0 t')|apply high_water_ge_start].
  - by apply IH.
Qed.

Lemma high_water_attained ts t0 : high_water ts t0 ∈ t0 :: ts.
Proof.
  revert t0. induction ts as [|t ts IH]; intros t0; [by left|].
  cbn. specialize (IH (Py.max t0 t)).
  apply elem_of_cons in IH as [Heq|Hin].
  - unfold high_water in Heq. rewrite Heq.
    destruct (py_max_cases t0 t) as [-> | ->]; [by left|right; by left].
  - right. by right.
Qed.

Lemma high_water_unchanged ts t0 : Forall (λ t, t <= t0) ts → high_water ts t0 = t0.
Proof.
  revert t0. induction ts as [|t ts IH]; intros t0 Hall; [done|].
  apply Forall_cons in Hall as [Ht Hts]. cbn.
  rewrite py_max_absorb by done. by apply IH.
Qed.

Lemma high_water_app ts1 ts2 t0 :
  high_water (ts1 ++ ts2) t0 = high_water ts2 (high_water ts1 t0).
Proof. apply fold_left_app. Qed.

(** ** The attributes of a reachable monitor, from the updates it took in *)

Lemma ingested_names proj names sigs :
  Forall (λ u, u_name u ∈ names) (ingested proj names sigs).
Proof.
  induction names as [|name names IH]; [constructor|].
  cbn [ingested].
  assert (Hrest : Forall (λ u, u_name u ∈ name :: names) (ingested proj names sigs)).
  { eapply Forall_impl; [exact IH|]. intros u Hu. by right. }
  destruct (sigs !! name) as [sig|]; [|done].
  destruct (Py.float (sig_time sig)); [|constructor].
  destruct (proj (sig_value sig)); [|constructor].
  constructor; [by left|done].
Qed.

Lemma appended_names proj names sigs :
  Forall (λ u, u_name u ∈ names) (appended proj names sigs).
Proof.
  induction names as [|name names IH]; [constructor|].
  cbn [appended].
  assert (Hrest : Forall (λ u, u_name u ∈ name :: names) (appended proj names sigs)).
  { eapply Forall_impl; [exact IH|]. intros u Hu. by right. }
  destruct (sigs !! name) as [sig|]; [|done].
  destruct (proj (sig_value sig)); [|constructor].
  destruct (Py.float (sig_time sig)).
  - constructor; [by left|done].
  - constructor; [by left|constructor].
Qed.

Lemma recorded_names {T} (taken : signals → list (update_ T)) calls :
  (∀ sigs, Forall (λ u, u_name u ∈ input_names) (taken sigs)) →
  Forall (λ u, u_name u ∈ inputs) (recorded taken calls).
Proof.
  intros Htaken.
  unfold recorded. induction calls as [|c calls IH] using rev_ind; [constructor|].
  rewrite fold_left_app. cbn [fold_left].
  destruct c; cbn [record_call]; [|done|constructor|done].
  apply Forall_app. split; [done|].
  eapply Forall_impl; [apply Htaken|].
  intros u. unfold inputs, input_names. set_solver.
Qed.

Lemma updates_names proj calls :
  Forall (λ u, u_name u ∈ inputs) (updates proj calls).
Proof. apply recorded_names. intros sigs. apply ingested_names. Qed.

Lemma appends_names proj calls :
  Forall (λ u, u_name u ∈ inputs) (appends proj calls).
Proof. apply recorded_names. intros sigs. apply appended_names. Qed.

Lemma recorded_snoc {T} (taken : signals → list (update_ T)) calls c :
  recorded taken (calls ++ [c]) = record_call taken (recorded taken calls) c.
Proof. unfold recorded. by rewrite fold_left_app. Qed.

Lemma updates_snoc proj calls c :
  updates proj (calls ++ [c])
  = record_call (ingested proj input_names) (updates proj calls) c.
Proof. apply recorded_snoc. Qed.

Lemma appends_snoc proj calls c :
  appends proj (calls ++ [c])
  = record_call (appended proj input_names) (appends proj calls) c.
Proof. apply recorded_snoc. Qed.

(** The times the metrics monitor converted are the times of the updates
    taken in whole. *)
Lemma stamps_appends proj calls :
  stamps (appends proj calls) = timestamps (updates proj calls).
Proof.
  induction calls as [|c calls IH] using rev_ind; [reflexivity|].
  rewrite appends_snoc, updates_snoc.
  destruct c as [sigs|t| |w]; cbn [record_call]; try exact IH; [|reflexivity].
  unfold stamps, timestamps in *.
  rewrite omap_app, fmap_app, IH. f_equal. apply stamps_appended.
Qed.

Lemma comparison_run_snoc calls c m :
  Comparison.run (calls ++ [c]) m = Comparison.step (Comparison.run calls m) c.
Proof. unfold Comparison.run. by rewrite fold_left_app. Qed.

Lemma metrics_run_snoc calls c m :
  Metrics.run (calls ++ [c]) m = Metrics.step (Metrics.run calls m) c.
Proof. unfold Metrics.run. by rewrite fold_left_app. Qed.

Lemma comparison_run_attributes mp dt calls :
  let m := Comparison.run calls (Comparison.init mp dt) in
  let ups := updates _scalar_projection calls in
  Comparison.max_points m = mp
  ∧ Comparison.min_dt m = dt
  ∧ Comparison._series m = store_after mp observation ups ∅
  ∧ Comparison._latest m = latest_after ups ∅
  ∧ Comparison._last_t m = high_water (timestamps ups) 0.
Proof.
  induction calls as [|c calls IH] using rev_ind; [done|].
  cbn zeta in *. rewrite comparison_run_snoc, updates_snoc.
  destruct IH as (Hmp & Hdt & Hseries & Hlatest & Ht).
  set (m := Comparison.run calls _) in *.
  destruct c as [sigs|t| |w]; cbn [Comparison.step record_call].
  - rewrite comparison_set_inputs_ingested.
    destruct (comparison_take_all (ingested _scalar_projection input_names sigs) m)
      as (-> & -> & -> & -> & -> & _).
    rewrite Hmp, Hdt, Hseries, Hlatest, Ht.
    unfold store_after, latest_after, timestamps.
    by rewrite !fold_left_app, fmap_app, high_water_app.
  - by rewrite comparison_advance_to.
  - done.
  - done.
Qed.

Lemma metrics_run_attributes mp dt calls :
  let m := Metrics.run calls (Metrics.init mp dt) in
  let ups := appends _extract_scalar calls in
  Metrics.max_points m = mp
  ∧ Metrics.min_dt m = dt
  ∧ Metrics._history m = store_after mp u_scalar ups ∅
  ∧ Metrics._latest_t m = high_water (stamps ups) 0.
Proof.
  induction calls as [|c calls IH] using rev_ind; [done|].
  cbn zeta in *. rewrite metrics_run_snoc, appends_snoc.
  destruct IH as (Hmp & Hdt & Hhistory & Ht).
  set (m := Metrics.run calls _) in *.
  destruct c as [sigs|t| |w]; cbn [Metrics.step record_call]; [|done..].
  rewrite metrics_set_inputs_ingested.
  destruct (metrics_take_all (appended _extract_scalar input_names sigs) m)
    as (-> & -> & -> & -> & _).
  rewrite Hmp, Hdt, Hhistory, Ht.
  unfold store_after, stamps.
  by rewrite !fold_left_app, omap_app, high_water_app.
Qed.

Lemma metrics_run_latest_t mp dt calls :
  Metrics._latest_t (Metrics.run calls (Metrics.init mp dt))
  = high_water (timestamps (updates _extract_scalar calls)) 0.
Proof.
  destruct (metrics_run_attributes mp dt calls) as (_ & _ & _ & ->).
  by rewrite stamps_appends.
Qed.

Lemma comparison_set_inputs_ok sigs m :
  (Comparison.set_inputs sigs m).2 = Ok () →
  timestamps (ingested _scalar_projection input_names sigs) = batch_times sigs.
Proof.
  unfold Comparison.set_inputs, batch_times. rewrite sorted_inputs.
  generalize input_names as names. intros names. revert m.
  induction names as [|name names IH]; intros m; [done|].
  cbn [for_each_input ingested omap list_omap].
  destruct (sigs !! name) as [sig|]; cbn [mbind option_bind]; [|apply IH].
  unfold Comparison.ingest at 1, float_time.
  destruct (Py.float (sig_time sig)) as [t|e]; [|intros Hok; discriminate Hok].
  destruct (_scalar_projection (sig_value sig)) as [scalar|e];
    [|intros Hok; discriminate Hok].
  intros Hok. cbn [timestamps fmap list_fmap u_time]. f_equal. by eapply IH.
Qed.

Lemma metrics_set_inputs_ok sigs m :
  (Metrics.set_inputs sigs m).2 = Ok () →
  timestamps (ingested _extract_scalar input_names sigs) = batch_times sigs.
Proof.
  unfold Metrics.set_inputs, batch_times. rewrite sorted_inputs.
  generalize input_names as names. intros names. revert m.
  induction names as [|name names IH]; intros m; [done|].
  cbn [for_each_input ingested omap list_omap].
  destruct (sigs !! name) as [sig|]; cbn [mbind option_bind]; [|apply IH].
  unfold Metrics.ingest at 1, float_time.
  destruct (_extract_scalar (sig_value sig)) as [scalar|e];
    [|intros Hok; discriminate Hok].
  destruct (Py.float (sig_time sig)) as [t|e]; [|intros Hok; discriminate Hok].
  intros Hok. cbn [timestamps fmap list_fmap u_time]. f_equal. by eapply IH.
Qed.

Lemma comparison_step_last_t m c :
  c ≠ ResetCall → Comparison._last_t m <= Comparison._last_t (Comparison.step m c).
Proof.
  intros Hc. destruct c as [sigs|t| |w]; cbn [Comparison.step].
  - rewrite comparison_set_inputs_ingested.
    destruct (comparison_take_all (ingested _scalar_projection input_names sigs) m)
      as (_ & _ & _ & _ & -> & _).
    apply high_water_ge_start.
  - rewrite comparison_advance_to. apply Qcle_refl.
  - done.
  - apply Qcle_refl.
Qed.

Lemma metrics_step_latest_t m c :
  c ≠ ResetCall → Metrics._latest_t m <= Metrics._latest_t (Metrics.step m c).
Proof.
  intros Hc. destruct c as [sigs|t| |w]; cbn [Metrics.step].
  - rewrite metrics_set_inputs_ingested.
    destruct (metrics_take_all (appended _extract_scalar input_names sigs) m)
      as (_ & _ & _ & -> & _).
    apply high_water_ge_start.
  - apply Qcle_refl.
  - done.
  - apply Qcle_refl.
Qed.

(** The time after a batch: the running maximum over the timestamps taken
    in, which is their maximum together with the time before. *)
Lemma high_water_is_max ts t0 :
  t0 <= high_water ts t0
  ∧ Forall (λ t, t <= high_water ts t0) ts
  ∧ high_water ts t0 ∈ t0 :: ts
  ∧ (Forall (λ t, t <= t0) ts → high_water ts t0 = t0).
Proof.
  split_and!.
  - apply high_water_ge_start.
  - apply Forall_forall. intros t Ht. by apply high_water_ge_each.
  - apply high_water_attained.
  - apply high_water_unchanged.
Qed.

(** C3: the high-water time never decreases over [set_inputs] calls.  After
    a call it is the maximum of its value before and the timestamps the call
    took in (all those of the input streams present, when the call did not
    raise); a call with only older timestamps leaves it unchanged; and over
    any run of calls without a reset it does not decrease.  For both
    monitors. *)
Theorem high_water_time_monotone :
  (∀ sigs m,
     let m' := (Comparison.set_inputs sigs m).1 in
     let ts := timestamps (ingested _scalar_projection input_names sigs) in
     Comparison._last_t m' = high_water ts (Comparison._last_t m)
     ∧ Comparison._last_t m <= Comparison._last_t m'
     ∧ Forall (λ t, t <= Comparison._last_t m') ts
     ∧ Comparison._last_t m' ∈ Comparison._last_t m :: ts
     ∧ (Forall (λ t, t <= Comparison._last_t m) ts
        → Comparison._last_t m' = Comparison._last_t m)
     ∧ ((Comparison.set_inputs sigs m).2 = Ok () → ts = batch_times sigs))
  ∧ (∀ sigs m,
     let m' := (Metrics.set_inputs sigs m).1 in
     let ts := timestamps (ingested _extract_scalar input_names sigs) in
     Metrics._latest_t m' = high_water ts (Metrics._latest_t m)
     ∧ Metrics._latest_t m <= Metrics._latest_t m'
     ∧ Forall (λ t, t <= Metrics._latest_t m') ts
     ∧ Metrics._latest_t m' ∈ Metrics._latest_t m :: ts
     ∧ (Forall (λ t, t <= Metrics._latest_t m) ts
        → Metrics._latest_t m' = Metrics._latest_t m)
     ∧ ((Metrics.set_inputs sigs m).2 = Ok () → ts = batch_times sigs))
  ∧ (∀ calls m, ResetCall ∉ calls →
       Comparison._last_t m <= Comparison._last_t (Comparison.run calls m))
  ∧ (∀ calls m, ResetCall ∉ calls →
       Metrics._latest_t m <= Metrics._latest_t (Metrics.run calls m)).
Proof.
  split_and!.
  - intros sigs m m' ts. subst m' ts.
    rewrite comparison_set_inputs_ingested.
    destruct (comparison_take_all (ingested _scalar_projection input_names sigs) m)
      as (_ & _ & _ & _ & -> & _).
    destruct (high_water_is_max
      (timestamps (ingested _scalar_projection input_names sigs))
      (Comparison._last_t m)) as (? & ? & ? & ?).
    split_and!; try assumption; [reflexivity|]. apply comparison_set_inputs_ok.
  - intros sigs m m' ts. subst m' ts.
    rewrite metrics_set_inputs_ingested.
    destruct (metrics_take_all (appended _extract_scalar input_names sigs) m)
      as (_ & _ & _ & -> & _).
    rewrite stamps_appended.
    destruct (high_water_is_max
      (timestamps (ingested _extract_scalar input_names sigs))
      (Metrics._latest_t m)) as (? & ? & ? & ?).
    split_and!; try assumption; [reflexivity|]. apply metrics_set_inputs_ok.
  - intros calls. induction calls as [|c calls IH] using rev_ind; intros m Hno.
    + apply Qcle_refl.
    + rewrite comparison_run_snoc. rewrite not_elem_of_app in Hno.
      destruct Hno as [Hcalls Hc]. eapply Qcle_trans; [by apply IH|].
      apply comparison_step_last_t. intros ->. apply Hc. by left.
  - intros calls. induction calls as [|c calls IH] using rev_ind; intros m Hno.
    + apply Qcle_refl.
    + rewrite metrics_run_snoc. rewrite not_elem_of_app in Hno.
      destruct Hno as [Hcalls Hc]. eapply Qcle_trans; [by apply IH|].
      apply metrics_step_latest_t. intros ->. apply Hc. by left.
Qed.

(** An instance: three batches at times 1, 2, 3 on a fresh monitor. *)
Lemma high_water_time_monotone_witness :
  Comparison._last_t (Comparison.init 2 1)
  <= Comparison._last_t (Comparison.run three_updates (Comparison.init 2 1)).
Proof.
  apply (proj1 (proj2 (proj2 high_water_time_monotone))).
  unfold three_updates. intros Hin.
  repeat (apply elem_of_cons in Hin as [Hin|Hin]; [discriminate|]).
  by apply elem_of_nil in Hin.
Defined.

(** ** C2: the bounded history *)

Lemma retained_length {A} (mp : Z) (obs h : list A) :
  (0 < mp)%Z → retained mp obs = Some h →
  (Z.of_nat (length h) ≤ mp)%Z
  ∧ h = most_recent (Z.to_nat mp) obs
  ∧ h `suffix_of` obs
  ∧ ((mp < Z.of_nat (length obs))%Z → Z.of_nat (length h) = mp).
Proof.
  intros Hmp. destruct obs as [|o obs]; [done|].
  intros [= <-]. rewrite most_recent_length.
  split_and!; [lia|done|apply most_recent_suffix|lia].
Qed.

(** C2: with a positive capacity, every stream's history has at most
    [max_points] entries in every reachable state, and it is the most recent
    [max_points] projected observations of the stream since the last reset,
    in arrival order (a suffix of what arrived, the oldest dropped); when
    more than [max_points] arrived its length is exactly [max_points].  For
    both monitors; what arrived is the updates taken in whole for the
    comparison monitor, and for the metrics monitor every scalar it
    appended, that of a signal whose time then failed to convert
    included. *)
Theorem history_bounded_and_most_recent (mp : Z) (dt : Qc) (calls : list call)
    (name : string) :
  (0 < mp)%Z →
  let c := Comparison.run calls (Comparison.init mp dt) in
  let k := Metrics.run calls (Metrics.init mp dt) in
  let obs := observations name (updates _scalar_projection calls) in
  let xs := scalars name (appends _extract_scalar calls) in
  Comparison._series c !! name = retained mp obs
  ∧ Metrics._history k !! name = retained mp xs
  ∧ (∀ h, Comparison._series c !! name = Some h →
       (Z.of_nat (length h) ≤ mp)%Z
       ∧ h = most_recent (Z.to_nat mp) obs
       ∧ h `suffix_of` obs
       ∧ ((mp < Z.of_nat (length obs))%Z → Z.of_nat (length h) = mp))
  ∧ (∀ h, Metrics._history k !! name = Some h →
       (Z.of_nat (length h) ≤ mp)%Z
       ∧ h = most_recent (Z.to_nat mp) xs
       ∧ h `suffix_of` xs
       ∧ ((mp < Z.of_nat (length xs))%Z → Z.of_nat (length h) = mp)).
Proof.
  intros Hmp c k obs xs.
  destruct (comparison_run_attributes mp dt calls) as (_ & _ & Hseries & _).
  destruct (metrics_run_attributes mp dt calls) as (_ & _ & Hhistory & _).
  assert (Hc : Comparison._series c !! name = retained mp obs).
  { subst c obs. rewrite Hseries. by apply store_after_lookup. }
  assert (Hk : Metrics._history k !! name = retained mp xs).
  { subst k xs. rewrite Hhistory. by apply store_after_lookup. }
  split_and!; [done|done| |].
  - intros h Hh. rewrite Hc in Hh. by apply retained_length.
  - intros h Hh. rewrite Hk in Hh. by apply retained_length.
Qed.

(** An instance: capacity 2 and three batches for [state_a]; the first
    observation is dropped. *)
Lemma history_bounded_and_most_recent_witness :
  Comparison._series (Comparison.run three_updates (Comparison.init 2 1)) !! "state_a"
    = retained 2 (observations "state_a" (updates _scalar_projection three_updates))
  ∧ Comparison._series (Comparison.run three_updates (Comparison.init 2 1)) !! "state_a"
    = Some [(Qc_of_Z 2, Qc_of_Z 20); (Qc_of_Z 3, Qc_of_Z 30)].
Proof.
  split.
  - apply (history_bounded_and_most_recent 2 1 three_updates "state_a"). lia.
  - compute_done.
Defined.

(** Without a positive capacity the bound does not hold: [l[-0:]] is the
    whole list, so with [max_points = 0] nothing is ever discarded. *)
Lemma history_unbounded_at_zero_capacity :
  length <$> Comparison._series (Comparison.run three_updates (Comparison.init 0 1))
               !! "state_a" = Some 3%nat
  ∧ length <$> Metrics._history (Metrics.run three_updates (Metrics.init 0 1))
               !! "state_a" = Some 3%nat.
Proof. split; compute_done. Qed.

(** ** C6: the effective time of a snapshot *)

Lemma metrics_per_stream history :
  Metrics.per_stream_of (sorted_items history) = Metrics._summary <$> history.
Proof. apply (comprehension_sorted_items Metrics._summary). Qed.

(** C6: the snapshot [advance_to t] stores carries [max(t, high-water
    time)] both as its payload time and as its signal time, in every state
    of either monitor; that time is the larger of the two, so an advance to
    a time below the high-water time is stamped with the high-water time. *)
Theorem advance_effective_time :
  (∀ t m, ∃ m' sig,
     Comparison.advance_to t m = Ok m'
     ∧ Comparison.get_outputs m' !! "comparison_state" = Some sig
     ∧ sig_time sig = Py.NFloat (Py.max t (Comparison._last_t m))
     ∧ Comparison.t (sig_value sig) = Py.max t (Comparison._last_t m)
     ∧ Comparison._last_t m' = Comparison._last_t m)
  ∧ (∀ t m, ∃ sig,
     Metrics.get_outputs (Metrics.advance_to t m) !! "metrics" = Some sig
     ∧ sig_time sig = Py.NFloat (Py.max t (Metrics._latest_t m))
     ∧ Metrics.t (sig_value sig) = Py.max t (Metrics._latest_t m)
     ∧ Metrics._latest_t (Metrics.advance_to t m) = Metrics._latest_t m)
  ∧ (∀ t hw : Qc,
     t <= Py.max t hw ∧ hw <= Py.max t hw
     ∧ (Py.max t hw = t ∨ Py.max t hw = hw)
     ∧ (t < hw → Py.max t hw = hw)
     ∧ (hw <= t → Py.max t hw = t)).
Proof.
  split_and!.
  - intros t m. eexists _, _. rewrite comparison_advance_to.
    split; [done|]. unfold Comparison.get_outputs. cbn.
    by rewrite lookup_singleton_eq.
  - intros t m. eexists. unfold Metrics.get_outputs, Metrics.advance_to. cbn.
    by rewrite lookup_singleton_eq.
  - intros t hw. split_and!.
    + apply py_max_l.
    + apply py_max_r.
    + apply py_max_cases.
    + intros Hlt. unfold Py.max. by rewrite bool_decide_eq_true_2.
    + apply py_max_absorb.
Qed.

(** An instance: an advance to 1 with high-water time 2. *)
Lemma advance_effective_time_witness : Py.max 1 (Qc_of_Z 2) = Qc_of_Z 2.
Proof.
  apply (proj2 (proj2 advance_effective_time) 1%Qc (Qc_of_Z 2)).
  reflexivity.
Defined.

(** ** C8: reset *)

Lemma comparison_visualize_empty m :
  Comparison._series m = ∅ → Comparison.visualize m = Ok None.
Proof. intros H. unfold Comparison.visualize. by rewrite bool_decide_eq_true_2. Qed.

Lemma metrics_visualize_empty m :
  Metrics._history m = ∅ → Metrics.visualize m = Ok None.
Proof. intros H. unfold Metrics.visualize. by rewrite bool_decide_eq_true_2. Qed.

(** C8: after [reset] the queries answer as on a monitor just built with the
    same [max_points] and [min_dt]: [get_outputs] is the empty map and
    [visualize] is absent; history and latest entries are empty and the
    high-water time is zero.  The state is the fresh one altogether, the
    world name the host may have set apart.  For both monitors, from every
    reachable state. *)
Theorem reset_is_fresh (mp : Z) (dt : Qc) (calls : list call) :
  let c := Comparison.reset (Comparison.run calls (Comparison.init mp dt)) in
  let k := Metrics.reset (Metrics.run calls (Metrics.init mp dt)) in
  (Comparison.get_outputs c = Comparison.get_outputs (Comparison.init mp dt)
   ∧ Comparison.visualize c = Comparison.visualize (Comparison.init mp dt)
   ∧ Comparison.get_outputs c = ∅
   ∧ Comparison.visualize c = Ok None
   ∧ Comparison._series c = ∅ ∧ Comparison._latest c = ∅
   ∧ Comparison._last_t c = 0
   ∧ (Comparison._world_name c = None → c = Comparison.init mp dt))
  ∧ (Metrics.get_outputs k = Metrics.get_outputs (Metrics.init mp dt)
   ∧ Metrics.visualize k = Metrics.visualize (Metrics.init mp dt)
   ∧ Metrics.get_outputs k = ∅
   ∧ Metrics.visualize k = Ok None
   ∧ Metrics._history k = ∅
   ∧ Metrics._latest_t k = 0
   ∧ (Metrics._world_name k = None → k = Metrics.init mp dt)).
Proof.
  intros c k.
  destruct (comparison_run_attributes mp dt calls) as (Hmp & Hdt & _).
  destruct (metrics_run_attributes mp dt calls) as (Hmp' & Hdt' & _).
  split; split_and!;
    try reflexivity;
    try (by rewrite ?comparison_visualize_empty, ?metrics_visualize_empty).
  - subst c. unfold Comparison.reset. rewrite Hmp, Hdt. cbn. by intros ->.
  - subst k. unfold Metrics.reset. rewrite Hmp', Hdt'. cbn. by intros ->.
Qed.

(** An instance: a reset after three batches, no world name set. *)
Lemma reset_is_fresh_witness :
  Comparison.reset (Comparison.run three_updates (Comparison.init 2 1))
  = Comparison.init 2 1.
Proof.
  apply (proj1 (reset_is_fresh 2%Z 1%Qc three_updates)). reflexivity.
Defined.

(** ** C4: the snapshot of the comparison monitor *)

Lemma updates_of_snoc {T} name (ups : list (update_ T)) u :
  updates_of name (ups ++ [u])
    = updates_of name ups ++ (if decide (u_name u = name) then [u] else []).
Proof.
  unfold updates_of. rewrite filter_app. f_equal.
Qed.

Lemma latest_after_lookup ups name :
  latest_after ups ∅ !! name = latest_entry <$> last (updates_of name ups).
Proof.
  induction ups as [|u ups IH] using rev_ind; [done|].
  unfold latest_after in *. rewrite fold_left_app, updates_of_snoc. cbn [fold_left].
  case_decide as Hname.
  - subst name. by rewrite lookup_insert_eq, last_snoc.
  - by rewrite lookup_insert_ne, app_nil_r.
Qed.

Lemma last_updates_of_is_Some {T} name (ups : list (update_ T)) :
  is_Some (last (updates_of name ups)) ↔ name ∈ active_streams ups.
Proof.
  unfold active_streams. rewrite elem_of_list_to_set, list_elem_of_fmap.
  rewrite last_is_Some. split.
  - intros Hne. destruct (updates_of name ups) as [|u l] eqn:Hl; [done|].
    assert (Hu : u ∈ updates_of name ups) by (rewrite Hl; left).
    apply list_elem_of_filter in Hu as [<- Hu]. eauto.
  - intros (u & -> & Hu) Hnil.
    assert (Hin : u ∈ updates_of (u_name u) ups) by (by apply list_elem_of_filter).
    rewrite Hnil in Hin. by apply elem_of_nil in Hin.
Qed.

Lemma active_streams_inputs proj calls name :
  name ∈ active_streams (updates proj calls) → name ∈ inputs.
Proof.
  unfold active_streams. rewrite elem_of_list_to_set, list_elem_of_fmap.
  intros (u & -> & Hu).
  pose proof (updates_names proj calls) as Hall.
  rewrite Forall_forall in Hall. by apply Hall.
Qed.

Lemma active_appends_inputs proj calls name :
  name ∈ active_streams (appends proj calls) → name ∈ inputs.
Proof.
  unfold active_streams. rewrite elem_of_list_to_set, list_elem_of_fmap.
  intros (u & -> & Hu).
  pose proof (appends_names proj calls) as Hall.
  rewrite Forall_forall in Hall. by apply Hall.
Qed.

Lemma delta_keys_NoDup lv active :
  NoDup active → (∀ k, k ∈ active → k ∈ inputs) →
  NoDup (delta_entry lv <$> ordered_pairs active).*1.
Proof.
  intros Hnodup Hin. rewrite <- list_fmap_compose.
  apply NoDup_fmap_2_strong; [|by apply ordered_pairs_NoDup].
  intros [a b] [c d] [Ha Hb]%ordered_pairs_members [Hc Hd]%ordered_pairs_members.
  cbn. intros Hkey.
  apply delta_key_inj in Hkey as [-> ->]; auto.
Qed.

Lemma snapshot_deltas_lookup lv active key v :
  StronglySorted str_lt active → NoDup active →
  (∀ k, k ∈ active → k ∈ inputs) →
  (∀ k, k ∈ active → is_Some (lv !! k)) →
  snapshot_deltas lv active !! key = Some v
  ↔ ∃ l r x y, l ∈ active ∧ r ∈ active ∧ str_lt l r
      ∧ key = Comparison.delta_key l r
      ∧ lv !! l = Some x ∧ lv !! r = Some y ∧ v = x - y.
Proof.
  intros Hsorted Hnodup Hin Hlv. unfold snapshot_deltas.
  rewrite fold_insert_lookup by (by apply delta_keys_NoDup).
  rewrite list_elem_of_fmap. split.
  - intros ([l r] & [= -> ->] & Hpair).
    apply ordered_pairs_elem in Hpair as (Hl & Hr & Hlt); [|done].
    destruct (Hlv l Hl) as [x Hx], (Hlv r Hr) as [y Hy].
    exists l, r, x, y. cbn. by rewrite Hx, Hy.
  - intros (l & r & x & y & Hl & Hr & Hlt & -> & Hx & Hy & ->).
    exists (l, r). split; [|by apply ordered_pairs_elem].
    unfold delta_entry. cbn. by rewrite Hx, Hy.
Qed.

Lemma snapshot_deltas_size lv active :
  NoDup active → (∀ k, k ∈ active → k ∈ inputs) →
  size (snapshot_deltas lv active) = length (ordered_pairs active).
Proof.
  intros Hnodup Hin. unfold snapshot_deltas.
  rewrite fold_insert_list_to_map, (right_id_L ∅ (∪)).
  rewrite map_size_list_to_map.
  - by rewrite length_reverse, length_fmap.
  - rewrite fmap_reverse, reverse_Permutation. by apply delta_keys_NoDup.
Qed.

(** The names [advance_to] iterates over, in a reachable state: the active
    streams. *)
Lemma active_names_reachable calls name :
  name ∈ active_names (latest_after (updates _scalar_projection calls) ∅)
  ↔ name ∈ active_streams (updates _scalar_projection calls).
Proof.
  rewrite active_names_elem, latest_after_lookup, fmap_is_Some,
    last_updates_of_is_Some.
  split; [tauto|]. intros Hin. split; [|done].
  by eapply active_streams_inputs.
Qed.

Lemma active_names_length calls :
  length (active_names (latest_after (updates _scalar_projection calls) ∅))
    = size (active_streams (updates _scalar_projection calls)).
Proof.
  change (size ?X) with (length (elements X)).
  apply Permutation_length, NoDup_Permutation.
  - apply active_names_NoDup.
  - apply NoDup_elements.
  - intros name. by rewrite active_names_reachable, elem_of_elements.
Qed.

(** C4: what [advance_to] of the comparison monitor stores, in every
    reachable state.  [latest_values] maps each active stream (a stream that
    received an update since the last reset) to the scalar of its most recent
    update; [pairwise_deltas] has one entry for every two active streams,
    under the label of the pair with the lexically smaller name first, equal
    to the difference of their latest values, and no entry for the reversed
    pair; [n_streams] is the number of active streams; with no active stream
    both maps are empty and [n_streams] is 0; [advance_to] does not raise.
    On the scenario of the specification the snapshot is
    [latest_values = {state_a: 15, state_b: 6}],
    [pairwise_deltas = {state_a_minus_state_b: 9}], [n_streams = 2]. *)
Theorem comparison_snapshot :
  (∀ mp dt calls t,
     let m := Comparison.run calls (Comparison.init mp dt) in
     let active := active_streams (updates _scalar_projection calls) in
     ∃ m' sig,
       Comparison.advance_to t m = Ok m'
       ∧ Comparison.get_outputs m' = {[ "comparison_state" := sig ]}
       ∧ (∀ name, Comparison.latest_values (sig_value sig) !! name
                  = u_scalar <$> last (updates_of name (updates _scalar_projection calls)))
       ∧ dom (Comparison.latest_values (sig_value sig)) = active
       ∧ Comparison.n_streams (sig_value sig) = size active
       ∧ (∀ key v,
            Comparison.pairwise_deltas (sig_value sig) !! key = Some v
            ↔ ∃ l r x y, l ∈ active ∧ r ∈ active ∧ str_lt l r
                ∧ key = Comparison.delta_key l r
                ∧ Comparison.latest_values (sig_value sig) !! l = Some x
                ∧ Comparison.latest_values (sig_value sig) !! r = Some y
                ∧ v = x - y)
       ∧ (∀ l r, l ∈ active → r ∈ active → str_lt l r →
            Comparison.pairwise_deltas (sig_value sig) !! Comparison.delta_key r l = None)
       ∧ (2 * size (Comparison.pairwise_deltas (sig_value sig))
          = size active * (size active - 1))%nat
       ∧ (active = ∅ →
            Comparison.latest_values (sig_value sig) = ∅
            ∧ Comparison.pairwise_deltas (sig_value sig) = ∅
            ∧ Comparison.n_streams (sig_value sig) = 0%nat))
  ∧ (λ m', sig_value <$> Comparison.get_outputs m' !! "comparison_state")
      <$> Comparison.advance_to 1
            (Comparison.run comparison_scenario (Comparison.init 10 1))
    = Ok (Some {|
        Comparison.t := 1;
        Comparison.latest_values :=
          {[ "state_a" := Qc_of_Z 15; "state_b" := Qc_of_Z 6 ]};
        Comparison.pairwise_deltas := {[ "state_a_minus_state_b" := Qc_of_Z 9 ]};
        Comparison.n_streams := 2 |}).
Proof.
  split; [|compute_done].
  intros mp dt calls t m active.
  destruct (comparison_run_attributes mp dt calls) as (_ & _ & _ & Hlatest & _).
  fold m in Hlatest. set (ups := updates _scalar_projection calls) in *.
  eexists _, _. rewrite comparison_advance_to. split; [reflexivity|].
  unfold Comparison.get_outputs. cbn [Comparison._outputs].
  split; [reflexivity|].
  cbn [sig_value Comparison.latest_values Comparison.pairwise_deltas
       Comparison.n_streams].
  rewrite Hlatest.
  set (lv := snapshot_latest_values (latest_after ups ∅)).
  set (names := active_names (latest_after ups ∅)).
  assert (Hlv : ∀ name, lv !! name = u_scalar <$> last (updates_of name ups)).
  { intros name. subst lv. rewrite snapshot_latest_values_lookup, latest_after_lookup.
    case_decide as Hin.
    - by destruct (last (updates_of name ups)).
    - destruct (last (updates_of name ups)) as [u|] eqn:Hlast; [|reflexivity].
      exfalso. apply Hin. apply (active_streams_inputs _scalar_projection calls).
      apply last_updates_of_is_Some. fold ups. rewrite Hlast. by eexists. }
  assert (Hnames : ∀ name, name ∈ names ↔ name ∈ active).
  { intros name. apply active_names_reachable. }
  assert (Hinputs : ∀ name, name ∈ names → name ∈ inputs).
  { intros name [? _]%active_names_elem. assumption. }
  assert (Hsome : ∀ name, name ∈ names → is_Some (lv !! name)).
  { intros name Hin%Hnames. rewrite Hlv, fmap_is_Some.
    by apply last_updates_of_is_Some. }
  assert (Hdeltas : ∀ key v,
    snapshot_deltas lv names !! key = Some v
    ↔ ∃ l r x y, l ∈ active ∧ r ∈ active ∧ str_lt l r
        ∧ key = Comparison.delta_key l r
        ∧ lv !! l = Some x ∧ lv !! r = Some y ∧ v = x - y).
  { intros key v. rewrite snapshot_deltas_lookup;
      [|apply active_names_sorted|apply active_names_NoDup|assumption..].
    split; intros (l & r & x & y & Hl & Hr & Hrest); exists l, r, x, y;
      (split; [by apply Hnames|split; [by apply Hnames|exact Hrest]]). }
  assert (Hlen : length names = size active) by apply active_names_length.
  split_and!.
  - exact Hlv.
  - apply set_eq. intros name. rewrite elem_of_dom, Hlv, fmap_is_Some.
    apply last_updates_of_is_Some.
  - exact Hlen.
  - exact Hdeltas.
  - intros l r Hl Hr Hlt.
    destruct (snapshot_deltas lv names !! Comparison.delta_key r l) as [v|] eqn:Hv;
      [|reflexivity].
    apply Hdeltas in Hv as (l' & r' & x & y & Hl' & Hr' & Hlt' & Hkey & _).
    apply delta_key_inj in Hkey as [-> ->];
      try (apply Hinputs, Hnames; assumption).
    by apply str_lt_asym in Hlt.
  - rewrite snapshot_deltas_size by (apply active_names_NoDup || assumption).
    rewrite ordered_pairs_length. by rewrite Hlen.
  - intros Hempty. rewrite Hempty in Hlen.
    assert (Hnil : names = []).
    { apply length_zero_iff_nil. by rewrite Hlen. }
    split_and!.
    + apply map_eq. intros name. rewrite lookup_empty.
      destruct (lv !! name) as [x|] eqn:Hx; [|reflexivity].
      assert (Hin : name ∈ active).
      { apply last_updates_of_is_Some. rewrite Hlv, fmap_Some in Hx.
        destruct Hx as (u & -> & _). by eexists. }
      rewrite Hempty in Hin. by apply not_elem_of_empty in Hin.
    + by rewrite Hnil.
    + by rewrite Hnil.
Qed.

(** An instance: an advance on a fresh monitor, with no active stream. *)
Lemma comparison_snapshot_witness :
  ∃ m' sig,
    Comparison.advance_to 0 (Comparison.run [] (Comparison.init 10 1)) = Ok m'
    ∧ Comparison.get_outputs m' = {[ "comparison_state" := sig ]}
    ∧ Comparison.latest_values (sig_value sig) = ∅
    ∧ Comparison.pairwise_deltas (sig_value sig) = ∅
    ∧ Comparison.n_streams (sig_value sig) = 0%nat.
Proof.
  destruct (proj1 comparison_snapshot 10%Z 1%Qc [] 0%Qc)
    as (m' & sig & Hok & Hout & _ & _ & _ & _ & _ & _ & Hempty).
  exists m', sig. split; [exact Hok|]. split; [exact Hout|].
  apply Hempty. reflexivity.
Defined.

(** ** C5: the snapshot of the metrics monitor *)

Lemma py_min_l a b : Py.min a b <= a.
Proof.
  unfold Py.min. case_bool_decide; [by apply Qclt_le_weak|apply Qcle_refl].
Qed.

Lemma py_min_r a b : Py.min a b <= b.
Proof.
  unfold Py.min. case_bool_decide; [apply Qcle_refl|by apply Qcnot_lt_le].
Qed.

Lemma py_min_cases a b : Py.min a b = a ∨ Py.min a b = b.
Proof. unfold Py.min. case_bool_decide; auto. Qed.

Lemma fold_min_is_minimum rest first :
  is_minimum (fold_left Py.min rest first) (first :: rest).
Proof.
  revert first. induction rest as [|x rest IH]; intros first.
  - split; [by left|]. repeat constructor. apply Qcle_refl.
  - cbn [fold_left]. destruct (IH (Py.min first x)) as [Hin Hall].
    apply Forall_cons in Hall as [Hhead Hrest]. split.
    + apply elem_of_cons in Hin as [->|Hin].
      * destruct (py_min_cases first x) as [-> | ->]; [by left|right; by left].
      * right. by right.
    + constructor; [|constructor; [|exact Hrest]].
      * eapply Qcle_trans; [exact Hhead|apply py_min_l].
      * eapply Qcle_trans; [exact Hhead|apply py_min_r].
Qed.

Lemma fold_max_is_maximum rest first :
  is_maximum (fold_left Py.max rest first) (first :: rest).
Proof.
  destruct (high_water_is_max rest first) as (Hstart & Hall & Hin & _).
  split; [exact Hin|]. by constructor.
Qed.

(** The summary of a non-empty window. *)
Lemma summary_of_window w :
  w ≠ [] →
  Metrics.count (Metrics._summary w) = Py.len w
  ∧ Metrics.mean (Metrics._summary w) = arithmetic_mean w
  ∧ is_minimum (Metrics.min (Metrics._summary w)) w
  ∧ is_maximum (Metrics.max (Metrics._summary w)) w.
Proof.
  destruct w as [|first rest]; [done|]. intros _.
  cbn [Metrics._summary Metrics.count Metrics.mean Metrics.min Metrics.max].
  split_and!.
  - reflexivity.
  - unfold arithmetic_mean. by rewrite sum_foldr.
  - apply fold_min_is_minimum.
  - apply fold_max_is_maximum.
Qed.

Lemma retained_nonempty {A} (mp : Z) (obs w : list A) :
  (0 < mp)%Z → retained mp obs = Some w → w ≠ [].
Proof.
  intros Hmp. destruct obs as [|o obs]; [done|]. intros [= <-] Hnil.
  apply (f_equal length) in Hnil. rewrite most_recent_length in Hnil.
  cbn [length] in Hnil. lia.
Qed.

Lemma scalars_is_nil {T} name (ups : list (update_ T)) :
  scalars name ups = [] ↔ name ∉ active_streams ups.
Proof.
  rewrite <- last_updates_of_is_Some, last_is_Some. unfold scalars.
  destruct (updates_of name ups) as [|u l]; cbn.
  - split; [|reflexivity]. intros _ Hne. by apply Hne.
  - split; [discriminate|]. intros Hne. exfalso. by apply Hne.
Qed.

(** C5: what [advance_to] of the metrics monitor stores, in every reachable
    state of a monitor with a positive capacity.  [stream_metrics] has
    exactly the streams that received an update since the last reset (the
    streams a scalar was appended for), and [stream_count] is their number;
    a stream without data has no entry; the
    entry of a stream is computed over its whole retained window, which is
    not empty: the count of the window, its arithmetic mean, its least and
    its greatest element.  On the scenario of the specification the snapshot
    is [state_a: count 2, mean 3, min 2, max 4] and
    [state_b: count 1, mean 5, min 5, max 5]. *)
Theorem metrics_snapshot :
  (∀ mp dt calls t name,
     (0 < mp)%Z →
     let m := Metrics.advance_to t (Metrics.run calls (Metrics.init mp dt)) in
     let ups := appends _extract_scalar calls in
     ∃ sig,
       Metrics.get_outputs m = {[ "metrics" := sig ]}
       ∧ dom (Metrics.stream_metrics (sig_value sig)) = active_streams ups
       ∧ Metrics.stream_count (sig_value sig) = size (active_streams ups)
       ∧ (name ∉ active_streams ups →
            Metrics.stream_metrics (sig_value sig) !! name = None)
       ∧ (name ∈ active_streams ups →
            ∃ w s,
              retained mp (scalars name ups) = Some w
              ∧ w ≠ []
              ∧ Metrics.stream_metrics (sig_value sig) !! name = Some s
              ∧ s = Metrics._summary w
              ∧ Metrics.count s = Py.len w
              ∧ Metrics.mean s = arithmetic_mean w
              ∧ is_minimum (Metrics.min s) w
              ∧ is_maximum (Metrics.max s) w))
  ∧ sig_value <$> Metrics.get_outputs
      (Metrics.advance_to (Qc_of_Z 2)
         (Metrics.run metrics_scenario (Metrics.init 10 1))) !! "metrics"
    = Some {|
        Metrics.t := Qc_of_Z 2;
        Metrics.stream_metrics := {[
          "state_a" := {| Metrics.count := Qc_of_Z 2; Metrics.mean := Qc_of_Z 3;
                          Metrics.min := Qc_of_Z 2; Metrics.max := Qc_of_Z 4 |};
          "state_b" := {| Metrics.count := 1; Metrics.mean := Qc_of_Z 5;
                          Metrics.min := Qc_of_Z 5; Metrics.max := Qc_of_Z 5 |} ]};
        Metrics.stream_count := 2 |}.
Proof.
  split; [|compute_done].
  intros mp dt calls t name Hmp m ups.
  destruct (metrics_run_attributes mp dt calls) as (_ & _ & Hhistory & _).
  fold ups in Hhistory.
  eexists. unfold Metrics.get_outputs. subst m. unfold Metrics.advance_to.
  cbn [Metrics._outputs]. split; [reflexivity|].
  cbn [sig_value Metrics.stream_metrics Metrics.stream_count].
  rewrite metrics_per_stream, Hhistory.
  assert (Hdom : dom (Metrics._summary <$> store_after mp u_scalar ups ∅)
                 = active_streams ups).
  { rewrite dom_fmap_L, store_after_dom, dom_empty_L. apply (right_id_L ∅ (∪)). }
  assert (Hlookup : ∀ name,
    (Metrics._summary <$> store_after mp u_scalar ups ∅) !! name
    = Metrics._summary <$> retained mp (scalars name ups)).
  { intros name'. rewrite lookup_fmap. f_equal. by apply store_after_lookup. }
  split_and!.
  - exact Hdom.
  - by rewrite <- Hdom, size_dom.
  - intros Hout%scalars_is_nil. by rewrite Hlookup, Hout.
  - intros Hin. destruct (scalars name ups) as [|x xs] eqn:Hxs.
    { by apply scalars_is_nil in Hxs. }
    set (w := most_recent (Z.to_nat mp) (x :: xs)).
    assert (Hw : w ≠ []).
    { apply (retained_nonempty mp (x :: xs)); [exact Hmp|reflexivity]. }
    exists w, (Metrics._summary w).
    rewrite Hlookup, Hxs.
    destruct (summary_of_window w Hw) as (? & ? & ? & ?).
    split_and!; (reflexivity || assumption).
Qed.

(** An instance: the scenario, with capacity 10. *)
Lemma metrics_snapshot_witness :
  ∃ sig,
    Metrics.get_outputs
      (Metrics.advance_to (Qc_of_Z 2)
         (Metrics.run metrics_scenario (Metrics.init 10 1)))
    = {[ "metrics" := sig ]}
    ∧ dom (Metrics.stream_metrics (sig_value sig))
      = active_streams (appends _extract_scalar metrics_scenario).
Proof.
  destruct (proj1 metrics_snapshot 10%Z 1%Qc metrics_scenario (Qc_of_Z 2) "state_a")
    as (sig & Hout & Hdom & _); [lia|].
  exists sig. split; [exact Hout|exact Hdom].
Defined.

(** ** C7: the render blocks *)

Lemma comparison_rows_of lv (items : list (string * Qc)) :
  (∀ k v, (k, v) ∈ items → lv !! k = Some v) →
  Comparison.rows_of lv items.*1 = Ok (comparison_row <$> items).
Proof.
  induction items as [|[k v] items IH]; intros Hin; [reflexivity|].
  cbn [fmap list_fmap Comparison.rows_of fst]. unfold getitem.
  rewrite (Hin k v) by left. cbn.
  rewrite IH by (intros k' v' ?; apply Hin; by right). reflexivity.
Qed.

Lemma metrics_rows_of metrics (items : list (string * Metrics.summary)) :
  (∀ k v, (k, v) ∈ items → metrics !! k = Some v) →
  Metrics.rows_of metrics items.*1 = Ok (metrics_row <$> items).
Proof.
  induction items as [|[k v] items IH]; intros Hin; [reflexivity|].
  cbn [fmap list_fmap Metrics.rows_of fst]. unfold getitem.
  rewrite (Hin k v) by left. cbn.
  rewrite IH by (intros k' v' ?; apply Hin; by right). reflexivity.
Qed.

(** [visualize] never raises. *)
Lemma comparison_visualize m :
  Comparison.visualize m =
    Ok (if bool_decide (Comparison._series m = ∅) then None else Some [
      {| render := "timeseries";
         data := TimeseriesData "State Stream Comparison"
           ((λ item, {| series_name := item.1; series_points := item.2 |})
              <$> sorted_items (Comparison._series m));
         block_description := "Scalar projections for each incoming state stream." |};
      {| render := "table";
         data := TableData ["Stream"; "Latest Scalar"]
           (comparison_row <$> sorted_items (stored_latest_values m));
         block_description := "Latest scalar value per state input stream." |} ]).
Proof.
  unfold Comparison.visualize. case_bool_decide; [reflexivity|].
  fold (stored_latest_values m).
  rewrite <- sorted_items_keys, comparison_rows_of; [reflexivity|].
  intros k v. apply sorted_items_elem.
Qed.

Lemma metrics_visualize m :
  Metrics.visualize m =
    Ok (if bool_decide (Metrics._history m = ∅) then None else Some [
      {| render := "timeseries";
         data := TimeseriesData "State Stream Metrics (Scalar History)"
           ((λ item, {| series_name := item.1;
                        series_points := Metrics.points_of item.2 |})
              <$> sorted_items (Metrics._history m));
         block_description := "Scalar history per stream for quick trend checks." |};
      {| render := "table";
         data := TableData ["Stream"; "Count"; "Mean"; "Min"; "Max"]
           (metrics_row <$> sorted_items (stored_stream_metrics m));
         block_description := "Descriptive metrics for each stream." |} ]).
Proof.
  unfold Metrics.visualize. case_bool_decide; [reflexivity|].
  fold (stored_stream_metrics m).
  rewrite <- sorted_items_keys, metrics_rows_of; [reflexivity|].
  intros k v. apply sorted_items_elem.
Qed.

Lemma round_half_even_close q :
  (Qabs (inject_Z (round_half_even q) - q) <= 1 # 2)%Q.
Proof.
  unfold round_half_even.
  pose proof (Qfloor_le q) as Hlo. pose proof (Qlt_floor q) as Hhi.
  rewrite inject_Z_plus in Hhi. change (inject_Z 1) with 1%Q in Hhi.
  apply Qabs_Qle_condition.
  destruct (Qcompare_spec (q - inject_Z (Qfloor q)) (1 # 2)) as [Heq|Hlt|Hgt];
    [destruct (Z.even (Qfloor q))|..];
    rewrite ?inject_Z_plus; change (inject_Z 1) with 1%Q;
    generalize dependent (inject_Z (Qfloor q)); intros fl; intros; lra.
Qed.

Lemma six_digits_length n : String.length (six_digits n) = 6%nat.
Proof. reflexivity. Qed.

(** [f"{x:.6f}"] has six decimals, and denotes [x] rounded at the sixth. *)
Lemma format_6f_shape (x : Qc) :
  let n := round_half_even (Qabs x * inject_Z 1000000)%Q in
  format_6f x = (if bool_decide (x < 0) then "-" else "")
                +:+ pretty (n `div` 1000000)%Z +:+ "." +:+ six_digits n
  ∧ String.length (six_digits n) = 6%nat
  ∧ (Qabs (inject_Z n - Qabs x * inject_Z 1000000) <= 1 # 2)%Q.
Proof.
  split_and!; [reflexivity|apply six_digits_length|apply round_half_even_close].
Qed.

(** The count cell of the metrics table is the length of the window, written
    as an integer. *)
Lemma count_cell {A} (w : list A) :
  str_of_int (int_of_float (Py.len w)) = pretty (Z.of_nat (length w)).
Proof.
  unfold str_of_int, int_of_float, Py.len. f_equal.
  unfold Qc_of_Z. cbn [this Q2Qc].
  replace (Qred (inject_Z (Z.of_nat (length w)))) with (inject_Z (Z.of_nat (length w))).
  - cbn. apply Z.quot_1_r.
  - symmetry. apply Qred_identity. cbn. apply Z.gcd_1_r.
Qed.

Lemma comparison_outputs_before_advance mp dt calls :
  advanced calls = false →
  Comparison._outputs (Comparison.run calls (Comparison.init mp dt)) = ∅.
Proof.
  induction calls as [|c calls IH] using rev_ind; [reflexivity|].
  unfold advanced in *. rewrite fold_left_app, comparison_run_snoc. cbn [fold_left].
  destruct c as [sigs|t| |w]; cbn [Comparison.step]; intros Hadv.
  - rewrite comparison_set_inputs_ingested.
    destruct (comparison_take_all (ingested _scalar_projection input_names sigs)
                (Comparison.run calls (Comparison.init mp dt)))
      as (_ & _ & _ & _ & _ & -> & _).
    by apply IH.
  - discriminate.
  - reflexivity.
  - by apply IH.
Qed.

Lemma metrics_outputs_before_advance mp dt calls :
  advanced calls = false →
  Metrics._outputs (Metrics.run calls (Metrics.init mp dt)) = ∅.
Proof.
  induction calls as [|c calls IH] using rev_ind; [reflexivity|].
  unfold advanced in *. rewrite fold_left_app, metrics_run_snoc. cbn [fold_left].
  destruct c as [sigs|t| |w]; cbn [Metrics.step]; intros Hadv.
  - rewrite metrics_set_inputs_ingested.
    destruct (metrics_take_all (appended _extract_scalar input_names sigs)
                (Metrics.run calls (Metrics.init mp dt)))
      as (_ & _ & _ & _ & -> & _).
    by apply IH.
  - discriminate.
  - reflexivity.
  - by apply IH.
Qed.

Lemma comparison_series_dom mp dt calls :
  dom (Comparison._series (Comparison.run calls (Comparison.init mp dt)))
    = active_streams (updates _scalar_projection calls).
Proof.
  destruct (comparison_run_attributes mp dt calls) as (_ & _ & -> & _).
  rewrite store_after_dom, dom_empty_L. apply (right_id_L ∅ (∪)).
Qed.

Lemma metrics_history_dom mp dt calls :
  dom (Metrics._history (Metrics.run calls (Metrics.init mp dt)))
    = active_streams (appends _extract_scalar calls).
Proof.
  destruct (metrics_run_attributes mp dt calls) as (_ & _ & -> & _).
  rewrite store_after_dom, dom_empty_L. apply (right_id_L ∅ (∪)).
Qed.

Lemma series_names {V} (f : string * V → series) (d : gmap string V) :
  (∀ item, series_name (f item) = item.1) →
  series_name <$> (f <$> sorted_items d) = sorted (elements (dom d)).
Proof.
  intros Hname. rewrite <- list_fmap_compose.
  rewrite (list_fmap_ext _ fst (sorted_items d)) by (intros ? item _; apply Hname).
  apply sorted_items_keys.
Qed.

(** C7 as stated fails: the count cell of the metrics table is written as an
    integer ([str(int(count))]), not with six decimals.  After the metrics
    scenario and an advance, the row of [state_a] reads ["2"] where six
    decimals would read ["2.000000"]. *)
Lemma metrics_count_cell_is_integer :
  Metrics.visualize
    (Metrics.advance_to (Qc_of_Z 2)
       (Metrics.run metrics_scenario (Metrics.init 10 1)))
  = Ok (Some [
      {| render := "timeseries";
         data := TimeseriesData "State Stream Metrics (Scalar History)" [
           {| series_name := "state_a";
              series_points := [(0, Qc_of_Z 2); (1, Qc_of_Z 4)] |};
           {| series_name := "state_b";
              series_points := [(0, Qc_of_Z 5)] |} ];
         block_description := "Scalar history per stream for quick trend checks." |};
      {| render := "table";
         data := TableData ["Stream"; "Count"; "Mean"; "Min"; "Max"] [
           ["state_a"; "2"; "3.000000"; "2.000000"; "4.000000"];
           ["state_b"; "1"; "5.000000"; "5.000000"; "5.000000"] ];
         block_description := "Descriptive metrics for each stream." |} ])
  ∧ format_6f (Qc_of_Z 2) = "2.000000"
  ∧ str_of_int (int_of_float (Qc_of_Z 2)) ≠ format_6f (Qc_of_Z 2).
Proof. split_and!; compute_done. Qed.

(** C7 (amended): in every reachable state of either monitor, [visualize]
    does not raise, and is absent exactly when no stream received data since
    construction or the last reset.  Otherwise it is two blocks: a
    ["timeseries"] block with one series per stream with data, named after
    the stream, in lexical order, holding the stream's retained history; then
    a ["table"] block with one row per stream of the stored snapshot, in
    lexical order, and no row when no advance happened.  The scalar, mean,
    min and max cells are written with six decimals; the count cell of the
    metrics table is the count written as an integer. *)
Theorem visualize_blocks (mp : Z) (dt : Qc) (calls : list call) :
  let c := Comparison.run calls (Comparison.init mp dt) in
  let k := Metrics.run calls (Metrics.init mp dt) in
  let c_active := active_streams (updates _scalar_projection calls) in
  let k_active := active_streams (appends _extract_scalar calls) in
  ((Comparison.visualize c = Ok None ↔ c_active = ∅)
   ∧ ∃ all_series rows,
       Comparison.visualize c
         = Ok (if bool_decide (c_active = ∅) then None else Some [
             {| render := "timeseries";
                data := TimeseriesData "State Stream Comparison" all_series;
                block_description :=
                  "Scalar projections for each incoming state stream." |};
             {| render := "table";
                data := TableData ["Stream"; "Latest Scalar"] rows;
                block_description :=
                  "Latest scalar value per state input stream." |} ])
       ∧ series_name <$> all_series = sorted (elements c_active)
       ∧ (∀ s, s ∈ all_series →
            Comparison._series c !! series_name s = Some (series_points s))
       ∧ rows = comparison_row <$> sorted_items (stored_latest_values c)
       ∧ (advanced calls = false → rows = []))
  ∧ ((Metrics.visualize k = Ok None ↔ k_active = ∅)
   ∧ ∃ all_series rows,
       Metrics.visualize k
         = Ok (if bool_decide (k_active = ∅) then None else Some [
             {| render := "timeseries";
                data := TimeseriesData "State Stream Metrics (Scalar History)"
                          all_series;
                block_description :=
                  "Scalar history per stream for quick trend checks." |};
             {| render := "table";
                data := TableData ["Stream"; "Count"; "Mean"; "Min"; "Max"] rows;
                block_description := "Descriptive metrics for each stream." |} ])
       ∧ series_name <$> all_series = sorted (elements k_active)
       ∧ (∀ s, s ∈ all_series →
            Metrics.points_of <$> Metrics._history k !! series_name s
            = Some (series_points s))
       ∧ rows = metrics_row <$> sorted_items (stored_stream_metrics k)
       ∧ (advanced calls = false → rows = []))
  ∧ (∀ x : Qc,
       let n := round_half_even (Qabs x * inject_Z 1000000)%Q in
       format_6f x = (if bool_decide (x < 0) then "-" else "")
                     +:+ pretty (n `div` 1000000)%Z +:+ "." +:+ six_digits n
       ∧ String.length (six_digits n) = 6%nat
       ∧ (Qabs (inject_Z n - Qabs x * inject_Z 1000000) <= 1 # 2)%Q)
  ∧ (∀ w : list Qc,
       w ≠ [] →
       str_of_int (int_of_float (Metrics.count (Metrics._summary w)))
       = pretty (Z.of_nat (length w))).
Proof.
  intros c k c_active k_active.
  assert (Hc : Comparison._series c = ∅ ↔ c_active = ∅).
  { rewrite <- dom_empty_iff_L. subst c c_active.
    by rewrite comparison_series_dom. }
  assert (Hk : Metrics._history k = ∅ ↔ k_active = ∅).
  { rewrite <- dom_empty_iff_L. subst k k_active.
    by rewrite metrics_history_dom. }
  split_and!.
  - rewrite comparison_visualize. case_bool_decide as Hempty.
    + split; [intros _; by apply Hc|reflexivity].
    + split; [discriminate|]. intros Hnone%Hc. by destruct Hempty.
  - eexists _, _. rewrite comparison_visualize.
    rewrite (bool_decide_ext _ _ Hc). split; [reflexivity|]. split_and!.
    + rewrite series_names by reflexivity. subst c c_active.
      by rewrite comparison_series_dom.
    + intros s [[name points] [-> Hin]]%list_elem_of_fmap.
      by apply sorted_items_elem.
    + reflexivity.
    + intros Hadv. unfold stored_latest_values. subst c.
      rewrite comparison_outputs_before_advance by exact Hadv. reflexivity.
  - rewrite metrics_visualize. case_bool_decide as Hempty.
    + split; [intros _; by apply Hk|reflexivity].
    + split; [discriminate|]. intros Hnone%Hk. by destruct Hempty.
  - eexists _, _. rewrite metrics_visualize.
    rewrite (bool_decide_ext _ _ Hk). split; [reflexivity|]. split_and!.
    + rewrite series_names by reflexivity. subst k k_active.
      by rewrite metrics_history_dom.
    + intros s [[name vals] [-> Hin]]%list_elem_of_fmap.
      apply sorted_items_elem in Hin. cbn. by rewrite Hin.
    + reflexivity.
    + intros Hadv. unfold stored_stream_metrics. subst k.
      rewrite metrics_outputs_before_advance by exact Hadv. reflexivity.
  - intros x. apply format_6f_shape.
  - intros [|first rest] Hw; [done|]. apply (count_cell (first :: rest)).
Qed.

(** An instance: three batches and no advance; the table has no row. *)
Lemma visualize_blocks_witness :
  ∃ all_series rows,
    Comparison.visualize (Comparison.run three_updates (Comparison.init 2 1))
    = Ok (if bool_decide
               (active_streams (updates _scalar_projection three_updates) = ∅)
          then None
          else Some [
            {| render := "timeseries";
               data := TimeseriesData "State Stream Comparison" all_series;
               block_description :=
                 "Scalar projections for each incoming state stream." |};
            {| render := "table";
               data := TableData ["Stream"; "Latest Scalar"] rows;
               block_description :=
                 "Latest scalar value per state input stream." |} ])
    ∧ rows = [].
Proof.
  destruct (proj1 (visualize_blocks 2%Z 1%Qc three_updates))
    as (_ & all_series & rows & Hvis & _ & _ & _ & Hrows).
  exists all_series, rows. split; [exact Hvis|].
  apply Hrows. reflexivity.
Defined.

(** ** C9: the dict [get_outputs] returns *)

Section heap_facts.
Context {V M : Type} (step : M → call → M) (outs : M → gmap string V).
Hypothesis outs_kept :
  ∀ m c, Heap.rebinds c = false → outs (step m c) = outs m.

#[local] Abbreviation exec := (Heap.exec step outs).
#[local] Abbreviation consistent := (Heap.consistent outs).

Lemma consistent_start m0 : outs m0 = ∅ → consistent (Heap.start m0).
Proof.
  intros Hm0. unfold Heap.consistent, Heap.stored. cbn. rewrite Hm0.
  split_and!; [apply lookup_singleton_eq|apply not_elem_of_nil|].
  intros l Hl. by apply elem_of_nil in Hl.
Qed.

Lemma consistent_event s e : consistent s → consistent (Heap.exec_event step outs s e).
Proof.
  intros (Hstored & Hmine & Hheld). unfold Heap.consistent, Heap.stored in *.
  destruct e as [c| |l mu]; cbn [Heap.exec_event].
  - destruct (Heap.rebinds c) eqn:Hc; cbn.
    + split_and!.
      * apply lookup_insert_eq.
      * intros Hin%Hheld. by apply is_fresh in Hin.
      * intros l Hl%Hheld. rewrite dom_insert_L. set_solver.
    + rewrite outs_kept by exact Hc. split_and!; assumption.
  - unfold Heap.get_outputs. rewrite Hstored. cbn.
    assert (Hfresh : fresh (dom (Heap.dicts (Heap.objects s)))
                     ≠ Heap.self_outputs (Heap.objects s)).
    { intros Heq. apply (is_fresh (dom (Heap.dicts (Heap.objects s)))).
      rewrite Heq. apply elem_of_dom. rewrite Hstored. by eexists. }
    split_and!.
    * rewrite lookup_insert_ne by exact Hfresh. exact Hstored.
    * rewrite not_elem_of_cons. split; [by apply not_eq_sym|exact Hmine].
    * intros l Hl. rewrite dom_insert_L. apply elem_of_cons in Hl as [->|Hl].
      -- set_solver.
      -- apply Hheld in Hl. set_solver.
  - case_bool_decide as Hl; [|split_and!; assumption]. cbn. split_and!.
    + rewrite lookup_alter_ne; [exact Hstored|]. intros ->. by apply Hmine.
    + exact Hmine.
    + intros l' Hl'. rewrite dom_alter_L. by apply Hheld.
Qed.

Lemma consistent_exec evs s : consistent s → consistent (exec evs s).
Proof.
  revert s. induction evs as [|e evs IH]; intros s Hs; [exact Hs|].
  apply IH. by apply consistent_event.
Qed.

Lemma monitor_exec evs s :
  Heap.monitor (exec evs s) = fold_left step (Heap.host_calls evs) (Heap.monitor s).
Proof.
  revert s. induction evs as [|e evs IH]; intros s; [reflexivity|].
  cbn [Heap.exec fold_left]. fold (exec evs (Heap.exec_event step outs s e)).
  rewrite IH. destruct e as [c| |l mu]; cbn.
  - reflexivity.
  - by destruct (Heap.get_outputs (Heap.objects s)) as [[l w']|].
  - by case_bool_decide.
Qed.

Lemma mutate_all_other l mus (w : Heap.world V) l' :
  l' ≠ l →
  Heap.dicts (Heap.mutate_all l mus w) !! l' = Heap.dicts w !! l'
  ∧ Heap.self_outputs (Heap.mutate_all l mus w) = Heap.self_outputs w.
Proof.
  intros Hne. revert w. induction mus as [|mu mus IH]; intros w; [done|].
  cbn [Heap.mutate_all fold_left]. fold (Heap.mutate_all l mus (Heap.mutate l mu w)).
  destruct (IH (Heap.mutate l mu w)) as [-> ->]. cbn.
  by rewrite lookup_alter_ne by (by apply not_eq_sym).
Qed.

(** The copy is a new object with the entries of the stored dict; however
    the caller mutates it, the stored dict and what a later [get_outputs]
    copies are the same. *)
Lemma get_outputs_copy s :
  consistent s →
  ∃ l w',
    Heap.get_outputs (Heap.objects s) = Some (l, w')
    ∧ l ∉ dom (Heap.dicts (Heap.objects s))
    ∧ l ≠ Heap.self_outputs w'
    ∧ Heap.dicts w' !! l = Some (outs (Heap.monitor s))
    ∧ Heap.stored w' = Some (outs (Heap.monitor s))
    ∧ ∀ mus,
        let w'' := Heap.mutate_all l mus w' in
        Heap.stored w'' = Some (outs (Heap.monitor s))
        ∧ ∃ l2 w3,
            Heap.get_outputs w'' = Some (l2, w3)
            ∧ Heap.dicts w3 !! l2 = Some (outs (Heap.monitor s)).
Proof.
  intros (Hstored & Hmine & Hheld). unfold Heap.stored in *.
  unfold Heap.get_outputs at 1. rewrite Hstored. cbn.
  set (h := Heap.dicts (Heap.objects s)) in *.
  set (me := Heap.self_outputs (Heap.objects s)) in *.
  assert (Hfresh : fresh (dom h) ≠ me).
  { intros Heq. apply (is_fresh (dom h)). rewrite Heq.
    apply elem_of_dom. rewrite Hstored. by eexists. }
  eexists _, _. split; [reflexivity|]. cbn. split_and!.
  - apply is_fresh.
  - exact Hfresh.
  - apply lookup_insert_eq.
  - by rewrite lookup_insert_ne.
  - intros mus.
    destruct (mutate_all_other (fresh (dom h)) mus
      {| Heap.dicts := <[fresh (dom h) := outs (Heap.monitor s)]> h;
         Heap.self_outputs := me |} me) as [Hd Hself];
      [by apply not_eq_sym|].
    cbn in Hd, Hself. rewrite lookup_insert_ne in Hd by exact Hfresh.
    assert (Hkept : Heap.stored (Heap.mutate_all (fresh (dom h)) mus
      {| Heap.dicts := <[fresh (dom h) := outs (Heap.monitor s)]> h;
         Heap.self_outputs := me |}) = Some (outs (Heap.monitor s))).
    { unfold Heap.stored. by rewrite Hself, Hd. }
    unfold Heap.stored in Hkept. split; [exact Hkept|].
    unfold Heap.get_outputs. rewrite Hkept. cbn.
    eexists _, _. split; [reflexivity|]. cbn. apply lookup_insert_eq.
Qed.
End heap_facts.

Lemma comparison_outputs_kept m c :
  Heap.rebinds c = false →
  Comparison._outputs (Comparison.step m c) = Comparison._outputs m.
Proof.
  destruct c as [sigs|t| |w]; try discriminate; intros _; [|reflexivity].
  cbn [Comparison.step]. rewrite comparison_set_inputs_ingested.
  by destruct (comparison_take_all (ingested _scalar_projection input_names sigs) m)
    as (_ & _ & _ & _ & _ & -> & _).
Qed.

Lemma metrics_outputs_kept m c :
  Heap.rebinds c = false →
  Metrics._outputs (Metrics.step m c) = Metrics._outputs m.
Proof.
  destruct c as [sigs|t| |w]; try discriminate; intros _; [|reflexivity].
  cbn [Metrics.step]. rewrite metrics_set_inputs_ingested.
  by destruct (metrics_take_all (appended _extract_scalar input_names sigs) m)
    as (_ & _ & _ & _ & -> & _).
Qed.

(** C9: [get_outputs] returns a new dict with the entries of the stored
    snapshot map.  In every reachable state of either monitor, whatever the
    host called and however the caller mutated the dicts it was handed
    before: the stored map is the one the monitor computed; [get_outputs]
    does not fail and returns a dict that is not the stored one and has its
    entries; and after any mutations of the returned dict (setting or
    deleting a key, clearing, updating) the stored map is unchanged and a
    later [get_outputs] returns the same entries again.  Before the first
    advance the map is empty. *)
Theorem get_outputs_independent_copy (mp : Z) (dt : Qc)
    (c_events : list (Heap.event (BioSignal Comparison.payload)))
    (k_events : list (Heap.event (BioSignal Metrics.payload))) :
  let cs := Heap.exec Comparison.step Comparison._outputs c_events
              (Heap.start (Comparison.init mp dt)) in
  let ks := Heap.exec Metrics.step Metrics._outputs k_events
              (Heap.start (Metrics.init mp dt)) in
  (Heap.monitor cs = Comparison.run (Heap.host_calls c_events) (Comparison.init mp dt)
   ∧ Heap.stored (Heap.objects cs) = Some (Comparison.get_outputs (Heap.monitor cs))
   ∧ (advanced (Heap.host_calls c_events) = false →
        Comparison.get_outputs (Heap.monitor cs) = ∅)
   ∧ ∃ l w',
       Heap.get_outputs (Heap.objects cs) = Some (l, w')
       ∧ l ∉ dom (Heap.dicts (Heap.objects cs))
       ∧ l ≠ Heap.self_outputs w'
       ∧ Heap.dicts w' !! l = Some (Comparison.get_outputs (Heap.monitor cs))
       ∧ Heap.stored w' = Some (Comparison.get_outputs (Heap.monitor cs))
       ∧ ∀ mus,
           let w'' := Heap.mutate_all l mus w' in
           Heap.stored w'' = Some (Comparison.get_outputs (Heap.monitor cs))
           ∧ ∃ l2 w3,
               Heap.get_outputs w'' = Some (l2, w3)
               ∧ Heap.dicts w3 !! l2
                 = Some (Comparison.get_outputs (Heap.monitor cs)))
  ∧ (Heap.monitor ks = Metrics.run (Heap.host_calls k_events) (Metrics.init mp dt)
   ∧ Heap.stored (Heap.objects ks) = Some (Metrics.get_outputs (Heap.monitor ks))
   ∧ (advanced (Heap.host_calls k_events) = false →
        Metrics.get_outputs (Heap.monitor ks) = ∅)
   ∧ ∃ l w',
       Heap.get_outputs (Heap.objects ks) = Some (l, w')
       ∧ l ∉ dom (Heap.dicts (Heap.objects ks))
       ∧ l ≠ Heap.self_outputs w'
       ∧ Heap.dicts w' !! l = Some (Metrics.get_outputs (Heap.monitor ks))
       ∧ Heap.stored w' = Some (Metrics.get_outputs (Heap.monitor ks))
       ∧ ∀ mus,
           let w'' := Heap.mutate_all l mus w' in
           Heap.stored w'' = Some (Metrics.get_outputs (Heap.monitor ks))
           ∧ ∃ l2 w3,
               Heap.get_outputs w'' = Some (l2, w3)
               ∧ Heap.dicts w3 !! l2
                 = Some (Metrics.get_outputs (Heap.monitor ks))).
Proof.
  intros cs ks.
  assert (Hcs : Heap.consistent Comparison._outputs cs).
  { apply consistent_exec; [apply comparison_outputs_kept|].
    by apply consistent_start. }
  assert (Hks : Heap.consistent Metrics._outputs ks).
  { apply consistent_exec; [apply metrics_outputs_kept|].
    by apply consistent_start. }
  assert (Hcm : Heap.monitor cs
                = Comparison.run (Heap.host_calls c_events) (Comparison.init mp dt)).
  { apply monitor_exec. }
  assert (Hkm : Heap.monitor ks
                = Metrics.run (Heap.host_calls k_events) (Metrics.init mp dt)).
  { apply monitor_exec. }
  split; split_and!.
  - exact Hcm.
  - apply Hcs.
  - intros Hadv. unfold Comparison.get_outputs. rewrite Hcm.
    by apply comparison_outputs_before_advance.
  - apply (get_outputs_copy Comparison._outputs cs Hcs).
  - exact Hkm.
  - apply Hks.
  - intros Hadv. unfold Metrics.get_outputs. rewrite Hkm.
    by apply metrics_outputs_before_advance.
  - apply (get_outputs_copy Metrics._outputs ks Hks).
Qed.

(** An instance: the caller clears the dict it was handed, before any
    advance. *)
Lemma get_outputs_independent_copy_witness :
  Comparison.get_outputs
    (Heap.monitor
       (Heap.exec Comparison.step Comparison._outputs
          [Heap.GetOutputs; Heap.Mutate 2%positive Heap.Clear;
           Heap.HostCall (Attach "world")]
          (Heap.start (Comparison.init 2 1))))
  = ∅.
Proof.
  apply (proj1 (get_outputs_independent_copy 2%Z 1%Qc
    [Heap.GetOutputs; Heap.Mutate 2%positive Heap.Clear;
     Heap.HostCall (Attach "world")] [])).
  reflexivity.
Defined.

(* ===================================================================== *)
(** * Part III: further properties of the code *)
(* ===================================================================== *)

(** ** [set_inputs]: which signals it reads *)

Lemma for_each_input_ext {M}
    (body : string → BioSignal Py.obj → M → M * result ())
    names (sigs sigs' : signals) m :
  (∀ name, name ∈ names → sigs !! name = sigs' !! name) →
  for_each_input body names sigs m = for_each_input body names sigs' m.
Proof.
  revert m. induction names as [|name names IH]; intros m Hsame; [reflexivity|].
  cbn [for_each_input]. rewrite <- (Hsame name) by left.
  assert (Hrest : ∀ n, n ∈ names → sigs !! n = sigs' !! n).
  { intros n Hn. apply Hsame. by right. }
  destruct (sigs !! name) as [sig|]; [|by apply IH].
  destruct (body name sig m) as [m' [[]|e]]; [by apply IH|reflexivity].
Qed.

Lemma for_each_input_none {M}
    (body : string → BioSignal Py.obj → M → M * result ())
    names (sigs : signals) m :
  (∀ name, name ∈ names → sigs !! name = None) →
  for_each_input body names sigs m = (m, Ok ()).
Proof.
  induction names as [|name names IH]; intros Hnone; [reflexivity|].
  cbn [for_each_input]. rewrite (Hnone name) by left.
  apply IH. intros n Hn. apply Hnone. by right.
Qed.

Lemma input_names_inputs name : name ∈ input_names ↔ name ∈ inputs.
Proof. unfold inputs, input_names. set_solver. Qed.

Lemma known_lookup sigs name : name ∈ inputs → known sigs !! name = sigs !! name.
Proof.
  intros Hin. unfold known. rewrite map_lookup_filter.
  destruct (sigs !! name) as [sig|]; [|reflexivity]. cbn.
  by rewrite option_guard_True.
Qed.

Lemma known_lookup_unknown sigs name : name ∉ inputs → known sigs !! name = None.
Proof.
  intros Hout. unfold known. apply map_lookup_filter_None. right.
  intros sig _ Hin. by apply Hout.
Qed.

Lemma known_empty sigs name : known sigs = ∅ → name ∈ inputs → sigs !! name = None.
Proof.
  intros Hempty Hin. rewrite <- known_lookup by exact Hin.
  by rewrite Hempty, lookup_empty.
Qed.

(** X1: [set_inputs] reads a batch only under the four input names: a batch
    and its restriction to those names have the same effect and the same
    outcome, two batches that agree on them are interchangeable, and a batch
    without any of them changes nothing and does not raise.  For both
    monitors, in any state. *)
Theorem set_inputs_reads_known_streams :
  (∀ sigs cm km,
     Comparison.set_inputs sigs cm = Comparison.set_inputs (known sigs) cm
     ∧ Metrics.set_inputs sigs km = Metrics.set_inputs (known sigs) km)
  ∧ (∀ sigs sigs' cm km,
       known sigs = known sigs' →
       Comparison.set_inputs sigs cm = Comparison.set_inputs sigs' cm
       ∧ Metrics.set_inputs sigs km = Metrics.set_inputs sigs' km)
  ∧ (∀ sigs cm km,
       known sigs = ∅ →
       Comparison.set_inputs sigs cm = (cm, Ok ())
       ∧ Metrics.set_inputs sigs km = (km, Ok ())).
Proof.
  assert (Hsame : ∀ sigs sigs' : signals,
    known sigs = known sigs' →
    ∀ name, name ∈ sorted (elements inputs) → sigs !! name = sigs' !! name).
  { intros sigs sigs' Hk name Hin. rewrite sorted_inputs in Hin.
    apply input_names_inputs in Hin.
    by rewrite <- (known_lookup sigs), <- (known_lookup sigs'), Hk. }
  assert (Hidem : ∀ sigs, known sigs = known (known sigs)).
  { intros sigs. apply map_eq. intros name.
    destruct (decide (name ∈ inputs)) as [Hin|Hout].
    - by rewrite (known_lookup (known sigs)).
    - by rewrite !known_lookup_unknown. }
  split_and!.
  - intros sigs cm km. unfold Comparison.set_inputs, Metrics.set_inputs.
    split; apply for_each_input_ext, Hsame, Hidem.
  - intros sigs sigs' cm km Hk. unfold Comparison.set_inputs, Metrics.set_inputs.
    split; by apply for_each_input_ext, Hsame.
  - intros sigs cm km Hempty. unfold Comparison.set_inputs, Metrics.set_inputs.
    split; apply for_each_input_none; intros name Hin;
      rewrite sorted_inputs in Hin; apply input_names_inputs in Hin;
      by apply known_empty.
Qed.

(** An instance: a batch for a stream that is not an input. *)
Lemma set_inputs_reads_known_streams_witness :
  Comparison.set_inputs unknown_batch (Comparison.init 10 1)
  = (Comparison.init 10 1, Ok ()).
Proof.
  apply (proj2 (proj2 set_inputs_reads_known_streams) unknown_batch
           (Comparison.init 10 1) (Metrics.init 10 1)).
  apply map_eq. intros name. unfold known, unknown_batch.
  rewrite map_lookup_filter, lookup_empty.
  destruct (decide (name = "state_z")) as [->|Hne].
  - rewrite lookup_singleton_eq. reflexivity.
  - by rewrite lookup_singleton_ne.
Defined.

(** ** [set_inputs]: what a batch does to each stream *)

Lemma push_lookup_any {A} (mp : Z) name (x : A) (d : gmap string (list A)) :
  push mp name x d !! name = Some (window_of mp (default [] (d !! name) ++ [x])).
Proof.
  unfold push, window_of. case_bool_decide; by rewrite lookup_insert_eq.
Qed.

Lemma store_after_untouched {T A} (mp : Z) (f : update_ T → A) ups
    (d : gmap string (list A)) name :
  name ∉ u_name <$> ups → store_after mp f ups d !! name = d !! name.
Proof.
  revert d. induction ups as [|u ups IH]; intros d Hout; [reflexivity|].
  cbn [fmap list_fmap] in Hout. apply not_elem_of_cons in Hout as [Hne Hout].
  unfold store_after in *. cbn [fold_left]. rewrite IH by exact Hout.
  by apply push_lookup_ne.
Qed.

Lemma store_after_once {T A} (mp : Z) (f : update_ T → A) ups
    (d : gmap string (list A)) u :
  NoDup (u_name <$> ups) → u ∈ ups →
  store_after mp f ups d !! u_name u
    = Some (window_of mp (default [] (d !! u_name u) ++ [f u])).
Proof.
  revert d. induction ups as [|u' ups IH]; intros d Hnodup Hin.
  { by apply elem_of_nil in Hin. }
  cbn [fmap list_fmap] in Hnodup. apply NoDup_cons in Hnodup as [Hfirst Hnodup].
  unfold store_after in *. cbn [fold_left].
  apply elem_of_cons in Hin as [->|Hin].
  - fold (store_after mp f ups (push mp (u_name u') (f u') d)).
    rewrite store_after_untouched by exact Hfirst. apply push_lookup_any.
  - rewrite IH by assumption. rewrite push_lookup_ne; [reflexivity|].
    intros Heq. apply Hfirst. rewrite Heq. by apply list_elem_of_fmap_2.
Qed.

Lemma latest_after_untouched ups (d : gmap string Comparison.latest) name :
  name ∉ u_name <$> ups → latest_after ups d !! name = d !! name.
Proof.
  revert d. induction ups as [|u ups IH]; intros d Hout; [reflexivity|].
  cbn [fmap list_fmap] in Hout. apply not_elem_of_cons in Hout as [Hne Hout].
  unfold latest_after in *. cbn [fold_left]. rewrite IH by exact Hout.
  by rewrite lookup_insert_ne.
Qed.

Lemma latest_after_once ups (d : gmap string Comparison.latest) u :
  NoDup (u_name <$> ups) → u ∈ ups →
  latest_after ups d !! u_name u = Some (latest_entry u).
Proof.
  revert d. induction ups as [|u' ups IH]; intros d Hnodup Hin.
  { by apply elem_of_nil in Hin. }
  cbn [fmap list_fmap] in Hnodup. apply NoDup_cons in Hnodup as [Hfirst Hnodup].
  unfold latest_after in *. cbn [fold_left].
  apply elem_of_cons in Hin as [->|Hin].
  - fold (latest_after ups (<[u_name u' := latest_entry u']> d)).
    rewrite latest_after_untouched by exact Hfirst. apply lookup_insert_eq.
  - by rewrite IH.
Qed.

(** The updates of a batch: one per present stream at most, in the order of
    the names. *)
Lemma ingested_elem proj names sigs u :
  u ∈ ingested proj names sigs →
  u_name u ∈ names
  ∧ ∃ sig, sigs !! u_name u = Some sig
      ∧ Py.float (sig_time sig) = Ok (u_time u)
      ∧ proj (sig_value sig) = Ok (u_scalar u)
      ∧ u = update_of (u_name u) sig (u_time u) (u_scalar u).
Proof.
  induction names as [|name names IH]; cbn [ingested].
  { by intros ?%elem_of_nil. }
  assert (Hrest : u ∈ ingested proj names sigs →
    u_name u ∈ name :: names
    ∧ ∃ sig, sigs !! u_name u = Some sig
        ∧ Py.float (sig_time sig) = Ok (u_time u)
        ∧ proj (sig_value sig) = Ok (u_scalar u)
        ∧ u = update_of (u_name u) sig (u_time u) (u_scalar u)).
  { intros [Hin Hsig]%IH. split; [by right|exact Hsig]. }
  destruct (sigs !! name) as [sig|] eqn:Hsig; [|exact Hrest].
  destruct (Py.float (sig_time sig)) as [t|e] eqn:Htime;
    [|by intros ?%elem_of_nil].
  destruct (proj (sig_value sig)) as [scalar|e] eqn:Hproj;
    [|by intros ?%elem_of_nil].
  intros [->|Hin]%elem_of_cons; [|by apply Hrest].
  cbn [u_name u_time u_scalar]. split; [by left|]. exists sig.
  split_and!; (assumption || reflexivity).
Qed.

Lemma appended_elem proj names sigs u :
  u ∈ appended proj names sigs →
  u_name u ∈ names
  ∧ ∃ sig, sigs !! u_name u = Some sig
      ∧ proj (sig_value sig) = Ok (u_scalar u).
Proof.
  induction names as [|name names IH]; cbn [appended].
  { by intros ?%elem_of_nil. }
  assert (Hrest : u ∈ appended proj names sigs →
    u_name u ∈ name :: names
    ∧ ∃ sig, sigs !! u_name u = Some sig
        ∧ proj (sig_value sig) = Ok (u_scalar u)).
  { intros [Hin Hsig]%IH. split; [by right|exact Hsig]. }
  destruct (sigs !! name) as [sig|] eqn:Hsig; [|exact Hrest].
  destruct (proj (sig_value sig)) as [scalar|e] eqn:Hproj;
    [|by intros ?%elem_of_nil].
  destruct (Py.float (sig_time sig)) as [t|e] eqn:Htime.
  - intros [->|Hin]%elem_of_cons; [|by apply Hrest].
    cbn [u_name u_scalar]. split; [by left|]. exists sig.
    split; (assumption || reflexivity).
  - intros [->|Hin]%elem_of_cons; [|by apply elem_of_nil in Hin].
    cbn [u_name u_scalar]. split; [by left|]. exists sig.
    split; (assumption || reflexivity).
Qed.

Lemma ingested_NoDup proj names sigs :
  NoDup names → NoDup (u_name <$> ingested proj names sigs).
Proof.
  induction 1 as [|name names Hfirst Hnodup IH]; cbn [ingested]; [constructor|].
  destruct (sigs !! name) as [sig|]; [|exact IH].
  destruct (Py.float (sig_time sig)) as [t|e]; [|constructor].
  destruct (proj (sig_value sig)) as [scalar|e]; [|constructor].
  cbn [fmap list_fmap u_name]. constructor; [|exact IH].
  intros (u & Hname & Hin)%list_elem_of_fmap.
  apply ingested_elem in Hin as [Hin _]. apply Hfirst. by rewrite Hname.
Qed.

Lemma appended_NoDup proj names sigs :
  NoDup names → NoDup (u_name <$> appended proj names sigs).
Proof.
  induction 1 as [|name names Hfirst Hnodup IH]; cbn [appended]; [constructor|].
  destruct (sigs !! name) as [sig|]; [|exact IH].
  destruct (proj (sig_value sig)) as [scalar|e]; [|constructor].
  destruct (Py.float (sig_time sig)) as [t|e].
  - cbn [fmap list_fmap u_name]. constructor; [|exact IH].
    intros (u & Hname & Hin)%list_elem_of_fmap.
    apply appended_elem in Hin as [Hin _]. apply Hfirst. by rewrite Hname.
  - cbn [fmap list_fmap u_name]. apply NoDup_singleton.
Qed.

Lemma input_names_NoDup : NoDup input_names.
Proof. compute_done. Qed.

(** X2: a stream that a batch does not carry, or that is not an input, is
    left as it was by [set_inputs]: its history and its latest entry do not
    change, whatever else the batch holds and whether or not the call
    raises.  For both monitors, in any state. *)
Theorem set_inputs_keeps_absent_streams (sigs : signals) (name : string)
    (cm : Comparison.monitor) (km : Metrics.monitor) :
  name ∉ inputs ∨ sigs !! name = None →
  Comparison._series (Comparison.set_inputs sigs cm).1 !! name
    = Comparison._series cm !! name
  ∧ Comparison._latest (Comparison.set_inputs sigs cm).1 !! name
    = Comparison._latest cm !! name
  ∧ Metrics._history (Metrics.set_inputs sigs km).1 !! name
    = Metrics._history km !! name.
Proof.
  intros Habsent.
  assert (Hout : ∀ proj, name ∉ u_name <$> ingested proj input_names sigs).
  { intros proj (u & -> & Hin)%list_elem_of_fmap.
    apply ingested_elem in Hin as (Hname & sig & Hsig & _).
    destruct Habsent as [Hunknown|Hnone].
    - by apply Hunknown, input_names_inputs.
    - by rewrite Hnone in Hsig. }
  assert (Hout' : ∀ proj, name ∉ u_name <$> appended proj input_names sigs).
  { intros proj (u & -> & Hin)%list_elem_of_fmap.
    apply appended_elem in Hin as (Hname & sig & Hsig & _).
    destruct Habsent as [Hunknown|Hnone].
    - by apply Hunknown, input_names_inputs.
    - by rewrite Hnone in Hsig. }
  rewrite comparison_set_inputs_ingested, metrics_set_inputs_ingested.
  destruct (comparison_take_all (ingested _scalar_projection input_names sigs) cm)
    as (_ & _ & -> & -> & _).
  destruct (metrics_take_all (appended _extract_scalar input_names sigs) km)
    as (_ & _ & -> & _).
  split_and!.
  - apply store_after_untouched, Hout.
  - apply latest_after_untouched, Hout.
  - apply store_after_untouched, Hout'.
Qed.

(** An instance: three batches for [state_a] have come in; a batch for
    [state_b] leaves the history of [state_a] as it was. *)
Lemma set_inputs_keeps_absent_streams_witness :
  Comparison._series
    (Comparison.set_inputs
       {[ "state_b" := sample_signal "b" "state_b" (PyFloat 1) 1 ]}
       (Comparison.run three_updates (Comparison.init 2 1))).1 !! "state_a"
  = Comparison._series (Comparison.run three_updates (Comparison.init 2 1))
      !! "state_a".
Proof.
  apply (set_inputs_keeps_absent_streams
           {[ "state_b" := sample_signal "b" "state_b" (PyFloat 1) 1 ]}
           "state_a" (Comparison.run three_updates (Comparison.init 2 1))
           (Metrics.init 2 1)).
  right. by rewrite lookup_singleton_ne.
Defined.

(** ** [set_inputs]: a batch with a time or a value that overflows *)

Lemma float_converts n :
  Py.float n
  = if time_converts n then Ok (number_value n) else Raise OverflowError.
Proof. destruct n as [b|z|q]; reflexivity. Qed.

Lemma names_convert_cons name names sigs :
  names_convert (name :: names) sigs
  = from_option converts true (sigs !! name) && names_convert names sigs.
Proof. reflexivity. Qed.

Lemma names_convert_elem names sigs name sig :
  names_convert names sigs = true → name ∈ names → sigs !! name = Some sig →
  converts sig = true.
Proof.
  intros Hall Hin Hsig. unfold names_convert in Hall.
  rewrite forallb_forall in Hall. specialize (Hall name).
  rewrite Hsig in Hall. apply Hall. by apply list_elem_of_In.
Qed.

(** Where a batch that does not convert stops: at the first of [names]
    whose signal does not convert. *)
Lemma first_failure names sigs :
  names_convert names sigs = false →
  ∃ pre bad post sig,
    names = pre ++ bad :: post
    ∧ sigs !! bad = Some sig
    ∧ converts sig = false
    ∧ names_convert pre sigs = true.
Proof.
  induction names as [|name names IH]; [discriminate|].
  rewrite names_convert_cons.
  destruct (sigs !! name) as [sig|] eqn:Hsig; cbn [from_option].
  - destruct (converts sig) eqn:Hconv; cbn [andb].
    + intros (pre & bad & post & sig' & -> & Hbad & Hnot & Hpre)%IH.
      exists (name :: pre), bad, post, sig'.
      split_and!; try assumption; [reflexivity|].
      rewrite names_convert_cons, Hsig. cbn [from_option].
      rewrite Hconv. exact Hpre.
    + intros _. exists [], name, names, sig.
      split_and!; (assumption || reflexivity).
  - intros (pre & bad & post & sig' & -> & Hbad & Hnot & Hpre)%IH.
    exists (name :: pre), bad, post, sig'.
    split_and!; try assumption; [reflexivity|].
    rewrite names_convert_cons, Hsig. exact Hpre.
Qed.

(** Both monitors raise on the same batches, and [OverflowError] only. *)
Lemma comparison_outcome names sigs m :
  (for_each_input Comparison.ingest names sigs m).2
  = if names_convert names sigs then Ok () else Raise OverflowError.
Proof.
  revert m. induction names as [|name names IH]; intros m; [reflexivity|].
  rewrite names_convert_cons. cbn [for_each_input].
  destruct (sigs !! name) as [sig|]; cbn [from_option]; [|apply IH].
  unfold Comparison.ingest, converts.
  rewrite float_converts, scalar_projection_spec.
  destruct (time_converts (sig_time sig)); [|reflexivity].
  destruct (convertible (sig_value sig)); [|reflexivity].
  cbn [andb]. apply IH.
Qed.

Lemma metrics_outcome names sigs m :
  (for_each_input Metrics.ingest names sigs m).2
  = if names_convert names sigs then Ok () else Raise OverflowError.
Proof.
  revert m. induction names as [|name names IH]; intros m; [reflexivity|].
  rewrite names_convert_cons. cbn [for_each_input].
  destruct (sigs !! name) as [sig|]; cbn [from_option]; [|apply IH].
  unfold Metrics.ingest, converts.
  rewrite float_converts, extract_scalar_eq, scalar_projection_spec.
  destruct (convertible (sig_value sig)); [|by rewrite andb_false_r].
  destruct (time_converts (sig_time sig)); [|reflexivity].
  cbn [andb]. apply IH.
Qed.

Lemma comparison_set_inputs_outcome sigs m :
  (Comparison.set_inputs sigs m).2
  = if names_convert input_names sigs then Ok () else Raise OverflowError.
Proof.
  unfold Comparison.set_inputs. rewrite sorted_inputs. apply comparison_outcome.
Qed.

Lemma metrics_set_inputs_outcome sigs m :
  (Metrics.set_inputs sigs m).2
  = if names_convert input_names sigs then Ok () else Raise OverflowError.
Proof.
  unfold Metrics.set_inputs. rewrite sorted_inputs. apply metrics_outcome.
Qed.

(** What a batch records: the updates of the streams before the one it
    stops at, and for the metrics monitor the scalar of that one when only
    its time does not convert. *)
Lemma ingested_converting pre rest sigs :
  names_convert pre sigs = true →
  ingested _scalar_projection (pre ++ rest) sigs
  = whole_updates pre sigs ++ ingested _scalar_projection rest sigs.
Proof.
  induction pre as [|name pre IH]; intros Hpre; [reflexivity|].
  rewrite names_convert_cons in Hpre. apply andb_true_iff in Hpre as [Hname Hpre].
  unfold whole_updates in *.
  cbn [app ingested omap list_omap].
  destruct (sigs !! name) as [sig|]; cbn [from_option fmap option_fmap option_map] in *;
    [|by apply IH].
  unfold converts in Hname. apply andb_true_iff in Hname as [Htime Hvalue].
  rewrite float_converts, Htime, scalar_projection_spec, Hvalue.
  cbn [app]. f_equal. by apply IH.
Qed.

Lemma appended_converting pre rest sigs :
  names_convert pre sigs = true →
  appended _extract_scalar (pre ++ rest) sigs
  = (timed <$> whole_updates pre sigs) ++ appended _extract_scalar rest sigs.
Proof.
  induction pre as [|name pre IH]; intros Hpre; [reflexivity|].
  rewrite names_convert_cons in Hpre. apply andb_true_iff in Hpre as [Hname Hpre].
  unfold whole_updates in *.
  cbn [app appended omap list_omap].
  destruct (sigs !! name) as [sig|]; cbn [from_option fmap option_fmap option_map] in *;
    [|by apply IH].
  unfold converts in Hname. apply andb_true_iff in Hname as [Htime Hvalue].
  rewrite float_converts, Htime, extract_scalar_eq, scalar_projection_spec, Hvalue.
  cbn [app fmap list_fmap]. f_equal. by apply IH.
Qed.

Lemma ingested_stops bad post sigs sig :
  sigs !! bad = Some sig → converts sig = false →
  ingested _scalar_projection (bad :: post) sigs = [].
Proof.
  intros Hbad Hnot. cbn [ingested]. rewrite Hbad.
  rewrite float_converts, scalar_projection_spec.
  unfold converts in Hnot.
  destruct (time_converts (sig_time sig)); [|reflexivity].
  cbn [andb] in Hnot. by rewrite Hnot.
Qed.

Lemma appended_stops bad post sigs sig :
  sigs !! bad = Some sig → converts sig = false →
  appended _extract_scalar (bad :: post) sigs
  = if convertible (sig_value sig) then [stranded_update bad sig] else [].
Proof.
  intros Hbad Hnot. cbn [appended]. rewrite Hbad.
  rewrite float_converts, extract_scalar_eq, scalar_projection_spec.
  unfold converts in Hnot.
  destruct (convertible (sig_value sig)); [|reflexivity].
  rewrite andb_true_r in Hnot. by rewrite Hnot.
Qed.

Lemma whole_updates_elem names sigs name sig :
  name ∈ names → sigs !! name = Some sig →
  whole_update name sig ∈ whole_updates names sigs.
Proof.
  intros Hin Hsig. unfold whole_updates. apply list_elem_of_omap.
  exists name. split; [exact Hin|]. by rewrite Hsig.
Qed.

Lemma whole_updates_names names sigs u :
  u ∈ whole_updates names sigs → u_name u ∈ names.
Proof.
  unfold whole_updates. intros (name & Hin & Hu)%list_elem_of_omap.
  destruct (sigs !! name) as [sig|]; [|discriminate Hu].
  injection Hu as <-. exact Hin.
Qed.

Lemma comparison_batch_recorded sigs cm u :
  u ∈ ingested _scalar_projection input_names sigs →
  Comparison._latest (Comparison.set_inputs sigs cm).1 !! u_name u
    = Some (latest_entry u)
  ∧ Comparison._series (Comparison.set_inputs sigs cm).1 !! u_name u
    = Some (window_of (Comparison.max_points cm)
              (default [] (Comparison._series cm !! u_name u)
               ++ [observation u])).
Proof.
  intros Hin. rewrite comparison_set_inputs_ingested.
  destruct (comparison_take_all (ingested _scalar_projection input_names sigs) cm)
    as (_ & _ & -> & -> & _).
  pose proof (ingested_NoDup _scalar_projection input_names sigs input_names_NoDup)
    as Hnodup.
  split.
  - apply (latest_after_once _ _ u Hnodup Hin).
  - apply (store_after_once _ observation _ _ u Hnodup Hin).
Qed.

Lemma metrics_batch_recorded sigs km (u : appended_update) :
  u ∈ appended _extract_scalar input_names sigs →
  Metrics._history (Metrics.set_inputs sigs km).1 !! u_name u
    = Some (window_of (Metrics.max_points km)
              (default [] (Metrics._history km !! u_name u) ++ [u_scalar u])).
Proof.
  intros Hin. rewrite metrics_set_inputs_ingested.
  destruct (metrics_take_all (appended _extract_scalar input_names sigs) km)
    as (_ & _ & -> & _).
  pose proof (appended_NoDup _extract_scalar input_names sigs input_names_NoDup)
    as Hnodup.
  apply (store_after_once _ u_scalar _ _ u Hnodup Hin).
Qed.

(** A stream both monitors took in whole. *)
Lemma whole_update_recorded sigs cm km name sig :
  converts sig = true →
  whole_update name sig ∈ ingested _scalar_projection input_names sigs →
  timed (whole_update name sig) ∈ appended _extract_scalar input_names sigs →
  ∃ t scalar,
    Py.float (sig_time sig) = Ok t
    ∧ _scalar_projection (sig_value sig) = Ok scalar
    ∧ Comparison._latest (Comparison.set_inputs sigs cm).1 !! name
      = Some {| Comparison.latest_t := t;
                Comparison.latest_scalar := scalar;
                Comparison.latest_source := sig_source sig |}
    ∧ Comparison._series (Comparison.set_inputs sigs cm).1 !! name
      = Some (window_of (Comparison.max_points cm)
                (default [] (Comparison._series cm !! name) ++ [(t, scalar)]))
    ∧ Metrics._history (Metrics.set_inputs sigs km).1 !! name
      = Some (window_of (Metrics.max_points km)
                (default [] (Metrics._history km !! name) ++ [scalar])).
Proof.
  intros [Htime Hvalue]%andb_true_iff Hc Hk.
  exists (number_value (sig_time sig)), (projection_spec (sig_value sig)).
  rewrite float_converts, Htime, scalar_projection_spec, Hvalue.
  destruct (comparison_batch_recorded sigs cm _ Hc) as [Hlatest Hseries].
  split_and!; [reflexivity|reflexivity|exact Hlatest|exact Hseries|].
  exact (metrics_batch_recorded sigs km _ Hk).
Qed.

(** X3: how [set_inputs] fails.  The call ends normally exactly when every
    input stream present in the batch has a time and a value that convert
    to float (their integers within the range of a double), and then every
    present input stream is recorded: its latest entry is the update, and
    its history is the old one with the observation appended and trimmed.
    Otherwise it raises [OverflowError] at the first input stream, in
    lexical order, whose time or value does not convert: the streams before
    it are recorded as in a normal call and the ones after it are left as
    they were.  The comparison monitor leaves that stream as it was; the
    metrics monitor, which converts the time last, leaves it as it was when
    its value does not convert and has appended its scalar when only its
    time does not.  Both monitors raise on the same batches. *)
Theorem set_inputs_stops_at_first_overflow (sigs : signals)
    (cm : Comparison.monitor) (km : Metrics.monitor) :
  let c := Comparison.set_inputs sigs cm in
  let k := Metrics.set_inputs sigs km in
  let all_convert := ∀ name sig,
    name ∈ inputs → sigs !! name = Some sig →
    time_converts (sig_time sig) = true ∧ convertible (sig_value sig) = true in
  let recorded := λ name sig,
    ∃ t scalar,
      Py.float (sig_time sig) = Ok t
      ∧ _scalar_projection (sig_value sig) = Ok scalar
      ∧ Comparison._latest c.1 !! name
        = Some {| Comparison.latest_t := t;
                  Comparison.latest_scalar := scalar;
                  Comparison.latest_source := sig_source sig |}
      ∧ Comparison._series c.1 !! name
        = Some (window_of (Comparison.max_points cm)
                  (default [] (Comparison._series cm !! name) ++ [(t, scalar)]))
      ∧ Metrics._history k.1 !! name
        = Some (window_of (Metrics.max_points km)
                  (default [] (Metrics._history km !! name) ++ [scalar])) in
  c.2 = k.2
  ∧ (c.2 = Ok () ↔ all_convert)
  ∧ (c.2 = Ok () →
       ∀ name sig, name ∈ inputs → sigs !! name = Some sig → recorded name sig)
  ∧ (∀ e, c.2 = Raise e →
       e = OverflowError
       ∧ ∃ pre bad post sig,
           input_names = pre ++ bad :: post
           ∧ sigs !! bad = Some sig
           ∧ (time_converts (sig_time sig) = false
              ∨ convertible (sig_value sig) = false)
           ∧ (∀ name sig', name ∈ pre → sigs !! name = Some sig' →
                recorded name sig')
           ∧ (∀ name, name ∈ post →
                Comparison._latest c.1 !! name = Comparison._latest cm !! name
                ∧ Comparison._series c.1 !! name = Comparison._series cm !! name
                ∧ Metrics._history k.1 !! name = Metrics._history km !! name)
           ∧ Comparison._latest c.1 !! bad = Comparison._latest cm !! bad
           ∧ Comparison._series c.1 !! bad = Comparison._series cm !! bad
           ∧ (convertible (sig_value sig) = false →
                Metrics._history k.1 !! bad = Metrics._history km !! bad)
           ∧ (∀ scalar, _extract_scalar (sig_value sig) = Ok scalar →
                Metrics._history k.1 !! bad
                = Some (window_of (Metrics.max_points km)
                          (default [] (Metrics._history km !! bad)
                           ++ [scalar])))).
Proof.
  intros c k all_convert recorded.
  assert (Hc2 : c.2 = if names_convert input_names sigs then Ok ()
                      else Raise OverflowError)
    by apply comparison_set_inputs_outcome.
  assert (Hk2 : k.2 = if names_convert input_names sigs then Ok ()
                      else Raise OverflowError)
    by apply metrics_set_inputs_outcome.
  destruct (names_convert input_names sigs) eqn:Hall.
  - (* the call ends normally *)
    pose proof (ingested_converting input_names [] sigs Hall) as Hing.
    pose proof (appended_converting input_names [] sigs Hall) as Happ.
    rewrite ?app_nil_r in Hing, Happ. cbn [ingested appended] in Hing, Happ.
    rewrite ?app_nil_r in Hing, Happ.
    assert (Hrec : ∀ name sig, name ∈ inputs → sigs !! name = Some sig →
      recorded name sig).
    { intros name sig Hin%input_names_inputs Hsig.
      apply whole_update_recorded.
      - exact (names_convert_elem _ _ _ _ Hall Hin Hsig).
      - rewrite Hing. by apply whole_updates_elem.
      - rewrite Happ. apply list_elem_of_fmap_2. by apply whole_updates_elem. }
    split_and!.
    + rewrite Hc2, Hk2. reflexivity.
    + split; [|intros _; exact Hc2]. intros _ name sig Hin%input_names_inputs Hsig.
      apply andb_true_iff. exact (names_convert_elem _ _ _ _ Hall Hin Hsig).
    + intros _. exact Hrec.
    + intros e He. rewrite Hc2 in He. discriminate He.
  - (* the call raises at [bad] *)
    destruct (first_failure input_names sigs Hall)
      as (pre & bad & post & sig & Hnames & Hbad & Hnot & Hpre).
    pose proof (ingested_converting pre (bad :: post) sigs Hpre) as Hing.
    pose proof (appended_converting pre (bad :: post) sigs Hpre) as Happ.
    rewrite <- Hnames in Hing, Happ.
    rewrite (ingested_stops bad post sigs sig Hbad Hnot), app_nil_r in Hing.
    rewrite (appended_stops bad post sigs sig Hbad Hnot) in Happ.
    pose proof input_names_NoDup as Hnodup. rewrite Hnames in Hnodup.
    apply NoDup_app in Hnodup as (_ & Hsep & Hrest).
    apply NoDup_cons in Hrest as [Hbadpost _].
    assert (Hc_out : ∀ name, name ∈ bad :: post →
      name ∉ u_name <$> ingested _scalar_projection input_names sigs).
    { intros name Hin (u & -> & Hu)%list_elem_of_fmap. rewrite Hing in Hu.
      apply whole_updates_names in Hu. exact (Hsep _ Hu Hin). }
    assert (Hk_pre : ∀ name, name ∈ bad :: post →
      name ∉ u_name <$> (timed <$> whole_updates pre sigs)).
    { intros name Hin (u & -> & (u' & -> & Hu)%list_elem_of_fmap)%list_elem_of_fmap.
      apply whole_updates_names in Hu. exact (Hsep _ Hu Hin). }
    assert (Hc_kept : ∀ name, name ∈ bad :: post →
      Comparison._latest c.1 !! name = Comparison._latest cm !! name
      ∧ Comparison._series c.1 !! name = Comparison._series cm !! name).
    { intros name Hin. subst c. rewrite comparison_set_inputs_ingested.
      destruct (comparison_take_all
        (ingested _scalar_projection input_names sigs) cm) as (_ & _ & -> & -> & _).
      split; [apply latest_after_untouched|apply store_after_untouched];
        exact (Hc_out name Hin). }
    assert (Hk_history : Metrics._history k.1
      = store_after (Metrics.max_points km) u_scalar
          (appended _extract_scalar input_names sigs) (Metrics._history km)).
    { subst k. rewrite metrics_set_inputs_ingested.
      by destruct (metrics_take_all
        (appended _extract_scalar input_names sigs) km) as (_ & _ & -> & _). }
    assert (Hrec : ∀ name sig', name ∈ pre → sigs !! name = Some sig' →
      recorded name sig').
    { intros name sig' Hin Hsig.
      apply whole_update_recorded.
      - exact (names_convert_elem _ _ _ _ Hpre Hin Hsig).
      - rewrite Hing. by apply whole_updates_elem.
      - rewrite Happ. apply elem_of_app. left.
        apply list_elem_of_fmap_2. by apply whole_updates_elem. }
    split_and!.
    + rewrite Hc2, Hk2. reflexivity.
    + split.
      * intros Hok. rewrite Hc2 in Hok. discriminate Hok.
      * intros Hconv. exfalso.
        assert (Hbadin : bad ∈ inputs).
        { apply input_names_inputs. rewrite Hnames. apply elem_of_app.
          right. left. }
        destruct (Hconv bad sig Hbadin Hbad) as [Htime Hvalue].
        unfold converts in Hnot. rewrite Htime, Hvalue in Hnot.
        discriminate Hnot.
    + intros Hok. rewrite Hc2 in Hok. discriminate Hok.
    + intros e He. rewrite Hc2 in He. injection He as <-.
      split; [reflexivity|]. exists pre, bad, post, sig.
      split_and!; try assumption.
      * unfold converts in Hnot. apply andb_false_iff in Hnot. exact Hnot.
      * intros name Hin.
        assert (Hin' : name ∈ bad :: post) by (by right).
        destruct (Hc_kept name Hin') as [Hl Hs].
        split_and!; [exact Hl|exact Hs|].
        rewrite Hk_history. apply store_after_untouched.
        rewrite Happ, fmap_app. intros [Hu|Hu]%elem_of_app.
        -- exact (Hk_pre name Hin' Hu).
        -- destruct (convertible (sig_value sig));
             [|by apply elem_of_nil in Hu].
           cbn [fmap list_fmap stranded_update u_name] in Hu.
           apply list_elem_of_singleton in Hu. subst name.
           exact (Hbadpost Hin).
      * apply Hc_kept. left.
      * apply Hc_kept. left.
      * intros Hvalue. rewrite Hvalue, app_nil_r in Happ.
        rewrite Hk_history. apply store_after_untouched.
        rewrite Happ. apply Hk_pre. left.
      * intros scalar Hscalar.
        rewrite extract_scalar_eq, scalar_projection_spec in Hscalar.
        destruct (convertible (sig_value sig)); [|discriminate Hscalar].
        injection Hscalar as <-.
        apply (metrics_batch_recorded sigs km (stranded_update bad sig)).
        rewrite Happ. apply elem_of_app. right. left.
Qed.

(** An instance: in [late_batch] the time of [state_b] is [10 ** 400];
    both monitors raise, the metrics monitor with the scalar of [state_b]
    in its history and the comparison monitor without an entry for it. *)
Lemma set_inputs_stops_at_first_overflow_witness :
  ∃ pre bad post sig,
    input_names = pre ++ bad :: post
    ∧ late_batch !! bad = Some sig
    ∧ (time_converts (sig_time sig) = false
       ∨ convertible (sig_value sig) = false)
    ∧ Comparison._series
        (Comparison.set_inputs late_batch (Comparison.init 10 1)).1 !! bad
      = Comparison._series (Comparison.init 10 1) !! bad
    ∧ ∀ scalar, _extract_scalar (sig_value sig) = Ok scalar →
        Metrics._history
          (Metrics.set_inputs late_batch (Metrics.init 10 1)).1 !! bad
        = Some (window_of 10
                  (default [] (Metrics._history (Metrics.init 10 1) !! bad)
                   ++ [scalar])).
Proof.
  destruct (set_inputs_stops_at_first_overflow late_batch
              (Comparison.init 10 1) (Metrics.init 10 1))
    as (_ & _ & _ & Hraise).
  destruct (Hraise OverflowError)
    as (_ & pre & bad & post & sig & Hnames & Hbad & Hnot & _ & _ & _ & Hseries
        & _ & Happended).
  { compute_done. }
  exists pre, bad, post, sig. split_and!; assumption.
Defined.

(** ** The history store at a capacity that is not positive *)

Lemma store_after_by_appends {T A} (mp : Z) (f : update_ T → A) ups name :
  store_after mp f ups ∅ !! name
    = history_by_appends mp (f <$> updates_of name ups).
Proof.
  induction ups as [|u ups IH] using rev_ind; [reflexivity|].
  unfold store_after in *. rewrite fold_left_app, updates_of_snoc. cbn [fold_left].
  case_decide as Hname.
  - subst name. rewrite push_lookup_any, IH, fmap_app.
    unfold history_by_appends. by rewrite fold_left_app.
  - rewrite push_lookup_ne by exact Hname. by rewrite IH, app_nil_r.
Qed.

Lemma window_of_zero {A} (l : list A) : window_of 0 l = l.
Proof. unfold window_of. by case_bool_decide. Qed.

Lemma window_of_negative {A} (mp : Z) (x : A) : (mp < 0)%Z → window_of mp [x] = [].
Proof.
  intros Hmp. unfold window_of. rewrite bool_decide_eq_true_2 by (cbn; lia).
  unfold Py.slice_from. rewrite bool_decide_eq_false_2 by lia.
  apply drop_ge. cbn. lia.
Qed.

Lemma history_by_appends_zero {A} (obs : list A) :
  history_by_appends 0 obs = kept_whole obs.
Proof.
  induction obs as [|x obs IH] using rev_ind; [reflexivity|].
  unfold history_by_appends in *. rewrite fold_left_app, IH. cbn [fold_left].
  rewrite window_of_zero. by destruct obs.
Qed.

Lemma history_by_appends_negative {A} (mp : Z) (obs : list A) :
  (mp < 0)%Z → history_by_appends mp obs = kept_empty obs.
Proof.
  intros Hmp. induction obs as [|x obs IH] using rev_ind; [reflexivity|].
  unfold history_by_appends in *. rewrite fold_left_app, IH. cbn [fold_left].
  destruct obs as [|o obs]; cbn; by rewrite window_of_negative.
Qed.

(** X4: with [max_points = 0] nothing is ever discarded ([l[-0:]] is the
    whole list): in every reachable state the history of a stream is all its
    observations since the last reset, however many.  For both monitors. *)
Theorem zero_capacity_keeps_everything (dt : Qc) (calls : list call)
    (name : string) :
  Comparison._series (Comparison.run calls (Comparison.init 0 dt)) !! name
    = kept_whole (observations name (updates _scalar_projection calls))
  ∧ Metrics._history (Metrics.run calls (Metrics.init 0 dt)) !! name
    = kept_whole (scalars name (appends _extract_scalar calls))
  ∧ ∀ h, Metrics._history (Metrics.run calls (Metrics.init 0 dt)) !! name = Some h →
      length h = length (updates_of name (appends _extract_scalar calls)).
Proof.
  destruct (comparison_run_attributes 0 dt calls) as (_ & _ & -> & _).
  destruct (metrics_run_attributes 0 dt calls) as (_ & _ & -> & _).
  rewrite !store_after_by_appends, !history_by_appends_zero.
  split_and!; [reflexivity..|].
  intros h Hh.
  destruct (u_scalar <$> updates_of name (appends _extract_scalar calls))
    as [|x xs] eqn:Hxs; [discriminate Hh|].
  cbn in Hh. injection Hh as <-. rewrite <- Hxs. apply length_fmap.
Qed.

(** X5: with a negative [max_points] nothing is ever kept: in every
    reachable state the history of a stream that received data is the empty
    list, and an advance of the metrics monitor gives that stream the
    all-zero summary (count 0) that [_summary] has for an empty window. *)
Theorem negative_capacity_keeps_nothing (mp : Z) (dt t : Qc)
    (calls : list call) (name : string) :
  (mp < 0)%Z →
  let c := Comparison.run calls (Comparison.init mp dt) in
  let k := Metrics.run calls (Metrics.init mp dt) in
  Comparison._series c !! name
    = kept_empty (observations name (updates _scalar_projection calls))
  ∧ Metrics._history k !! name
    = kept_empty (scalars name (appends _extract_scalar calls))
  ∧ (name ∈ active_streams (appends _extract_scalar calls) →
       Metrics._history k !! name = Some []
       ∧ ∃ sig,
           Metrics.get_outputs (Metrics.advance_to t k) = {[ "metrics" := sig ]}
           ∧ Metrics.stream_metrics (sig_value sig) !! name = Some zero_summary).
Proof.
  intros Hmp c k.
  destruct (comparison_run_attributes mp dt calls) as (_ & _ & Hseries & _).
  destruct (metrics_run_attributes mp dt calls) as (_ & _ & Hhistory & _).
  fold c in Hseries. fold k in Hhistory.
  assert (Hk : Metrics._history k !! name
               = kept_empty (scalars name (appends _extract_scalar calls))).
  { rewrite Hhistory, store_after_by_appends.
    by apply history_by_appends_negative. }
  split_and!.
  - rewrite Hseries, store_after_by_appends.
    by apply history_by_appends_negative.
  - exact Hk.
  - intros Hin.
    assert (Hempty : Metrics._history k !! name = Some []).
    { rewrite Hk. destruct (scalars name (appends _extract_scalar calls)) eqn:Hxs;
        [|reflexivity].
      by apply scalars_is_nil in Hxs. }
    split; [exact Hempty|].
    eexists. unfold Metrics.get_outputs, Metrics.advance_to.
    cbn [Metrics._outputs]. split; [reflexivity|].
    cbn [sig_value Metrics.stream_metrics].
    by rewrite metrics_per_stream, lookup_fmap, Hempty.
Qed.

(** An instance: capacity -1 and the metrics scenario. *)
Lemma negative_capacity_keeps_nothing_witness :
  Metrics._history (Metrics.run metrics_scenario (Metrics.init (-1) 1)) !! "state_a"
  = kept_empty (scalars "state_a" (appends _extract_scalar metrics_scenario)).
Proof.
  assert (Hmp : (-1 < 0)%Z) by lia.
  exact (proj1 (proj2
    (negative_capacity_keeps_nothing (-1) 1 0 metrics_scenario "state_a" Hmp))).
Defined.

(** ** The stored snapshot, in every reachable state *)

Lemma active_names_dom latest_map name :
  name ∈ active_names latest_map ↔ name ∈ dom (snapshot_latest_values latest_map).
Proof.
  rewrite active_names_elem, elem_of_dom, snapshot_latest_values_lookup.
  case_decide as Hin.
  - rewrite fmap_is_Some. tauto.
  - split; [tauto|]. by intros [? ?].
Qed.

Lemma snapshot_size latest_map :
  length (active_names latest_map) = size (snapshot_latest_values latest_map).
Proof.
  rewrite <- size_dom. change (size ?X) with (length (elements X)).
  apply Permutation_length, NoDup_Permutation.
  - apply active_names_NoDup.
  - apply NoDup_elements.
  - intros name. by rewrite active_names_dom, elem_of_elements.
Qed.

Lemma comparison_advance_snapshot_ok t m :
  ∃ m' sig,
    Comparison.advance_to t m = Ok m'
    ∧ Comparison._outputs m' = {[ "comparison_state" := sig ]}
    ∧ comparison_snapshot_ok sig.
Proof.
  eexists _, _. rewrite comparison_advance_to. split; [reflexivity|].
  cbn [Comparison._outputs]. split; [reflexivity|].
  unfold comparison_snapshot_ok.
  cbn [sig_name sig_time sig_value sig_metadata Comparison.t
       Comparison.latest_values Comparison.pairwise_deltas Comparison.n_streams].
  set (lv := snapshot_latest_values (Comparison._latest m)).
  set (names := active_names (Comparison._latest m)).
  assert (Hinputs : ∀ k, k ∈ names → k ∈ inputs).
  { intros k [? _]%active_names_elem. assumption. }
  assert (Hsome : ∀ k, k ∈ names → is_Some (lv !! k)).
  { intros k Hk%active_names_dom. by apply elem_of_dom. }
  split_and!; try reflexivity.
  - intros k Hk%active_names_dom. by apply Hinputs.
  - apply snapshot_size.
  - rewrite snapshot_deltas_size by (apply active_names_NoDup || assumption).
    apply ordered_pairs_length.
  - intros key v. rewrite snapshot_deltas_lookup;
      [|apply active_names_sorted|apply active_names_NoDup|assumption..].
    split.
    + intros (l & r & x & y & _ & _ & Hlt & Hkey & Hx & Hy & Hv).
      exists l, r, x, y. split_and!; assumption.
    + intros (l & r & x & y & Hx & Hy & Hlt & Hkey & Hv).
      exists l, r, x, y.
      split_and!; try assumption; apply active_names_dom, elem_of_dom; by eexists.
Qed.

Lemma comparison_stored_snapshot_ok mp dt calls key sig :
  Comparison._outputs (Comparison.run calls (Comparison.init mp dt)) !! key = Some sig →
  key = "comparison_state" ∧ comparison_snapshot_ok sig.
Proof.
  revert key sig. induction calls as [|c calls IH] using rev_ind; intros key sig.
  { cbn. by rewrite lookup_empty. }
  rewrite comparison_run_snoc.
  destruct c as [sigs|t| |w].
  - rewrite comparison_outputs_kept by reflexivity. apply IH.
  - cbn [Comparison.step].
    destruct (comparison_advance_snapshot_ok t
      (Comparison.run calls (Comparison.init mp dt))) as (m' & sig' & -> & -> & Hok).
    intros [<- <-]%lookup_singleton_Some. by split.
  - cbn. by rewrite lookup_empty.
  - apply IH.
Qed.

Lemma metrics_stored_snapshot_ok mp dt calls key sig :
  Metrics._outputs (Metrics.run calls (Metrics.init mp dt)) !! key = Some sig →
  key = "metrics" ∧ metrics_snapshot_ok sig.
Proof.
  revert key sig. induction calls as [|c calls IH] using rev_ind; intros key sig.
  { cbn. by rewrite lookup_empty. }
  rewrite metrics_run_snoc.
  destruct c as [sigs|t| |w].
  - rewrite metrics_outputs_kept by reflexivity. apply IH.
  - cbn [Metrics.step]. unfold Metrics.advance_to. cbn [Metrics._outputs].
    intros [<- <-]%lookup_singleton_Some. split; [reflexivity|].
    unfold metrics_snapshot_ok.
    cbn [sig_name sig_time sig_value sig_metadata Metrics.t
         Metrics.stream_metrics Metrics.stream_count].
    split_and!; try reflexivity.
    rewrite metrics_per_stream, dom_fmap_L, metrics_history_dom.
    intros name. apply active_appends_inputs.
  - cbn. by rewrite lookup_empty.
  - apply IH.
Qed.

(** X6: the monitors keep to the names they declare.  In every reachable
    state [get_outputs] has no key outside [outputs()], the signal under a
    key carries that key as its name, and every stream of a history, of the
    latest entries and of a stored snapshot is one of [inputs()]. *)
Theorem monitors_keep_to_declared_names (mp : Z) (dt : Qc) (calls : list call) :
  let c := Comparison.run calls (Comparison.init mp dt) in
  let k := Metrics.run calls (Metrics.init mp dt) in
  dom (Comparison.get_outputs c) ⊆ Comparison.outputs
  ∧ dom (Metrics.get_outputs k) ⊆ Metrics.outputs
  ∧ (∀ key sig, Comparison.get_outputs c !! key = Some sig →
       sig_name sig = key
       ∧ dom (Comparison.latest_values (sig_value sig)) ⊆ inputs)
  ∧ (∀ key sig, Metrics.get_outputs k !! key = Some sig →
       sig_name sig = key
       ∧ dom (Metrics.stream_metrics (sig_value sig)) ⊆ inputs)
  ∧ dom (Comparison._series c) ⊆ inputs
  ∧ dom (Comparison._latest c) ⊆ inputs
  ∧ dom (Metrics._history k) ⊆ inputs.
Proof.
  intros c k. unfold Comparison.get_outputs, Metrics.get_outputs.
  split_and!.
  - intros key [sig Hsig]%elem_of_dom.
    apply comparison_stored_snapshot_ok in Hsig as [-> _].
    unfold Comparison.outputs. by apply elem_of_singleton.
  - intros key [sig Hsig]%elem_of_dom.
    apply metrics_stored_snapshot_ok in Hsig as [-> _].
    unfold Metrics.outputs. by apply elem_of_singleton.
  - intros key sig Hsig.
    apply comparison_stored_snapshot_ok in Hsig as [-> (Hname & _ & _ & Hdom & _)].
    split; assumption.
  - intros key sig Hsig.
    apply metrics_stored_snapshot_ok in Hsig as [-> (Hname & _ & _ & Hdom & _)].
    split; assumption.
  - subst c. rewrite comparison_series_dom.
    intros name. apply active_streams_inputs.
  - subst c.
    destruct (comparison_run_attributes mp dt calls) as (_ & _ & _ & -> & _).
    intros name [e He]%elem_of_dom. rewrite latest_after_lookup in He.
    apply (active_streams_inputs _scalar_projection calls).
    apply last_updates_of_is_Some. apply fmap_Some in He as (u & -> & _).
    by eexists.
  - subst k. rewrite metrics_history_dom.
    intros name. apply active_appends_inputs.
Qed.

(** X7: a stored snapshot agrees with itself, in every reachable state and
    however long ago it was taken.  Its signal time is its payload time;
    [n_streams] is the number of entries of [latest_values];
    [pairwise_deltas] has one entry per two streams of [latest_values], the
    difference of their two values under the label of the pair, so
    n (n - 1) / 2 entries; and [stream_count] is the number of entries of
    [stream_metrics]. *)
Theorem stored_snapshot_agrees_with_itself (mp : Z) (dt : Qc) (calls : list call) :
  let c := Comparison.run calls (Comparison.init mp dt) in
  let k := Metrics.run calls (Metrics.init mp dt) in
  (∀ sig, Comparison.get_outputs c !! "comparison_state" = Some sig →
     sig_time sig = Py.NFloat (Comparison.t (sig_value sig))
     ∧ Comparison.n_streams (sig_value sig)
       = size (Comparison.latest_values (sig_value sig))
     ∧ (2 * size (Comparison.pairwise_deltas (sig_value sig))
        = Comparison.n_streams (sig_value sig)
          * (Comparison.n_streams (sig_value sig) - 1))%nat
     ∧ ∀ key v,
         Comparison.pairwise_deltas (sig_value sig) !! key = Some v
         ↔ ∃ l r x y,
             Comparison.latest_values (sig_value sig) !! l = Some x
             ∧ Comparison.latest_values (sig_value sig) !! r = Some y
             ∧ str_lt l r
             ∧ key = Comparison.delta_key l r
             ∧ v = x - y)
  ∧ (∀ sig, Metrics.get_outputs k !! "metrics" = Some sig →
       sig_time sig = Py.NFloat (Metrics.t (sig_value sig))
       ∧ Metrics.stream_count (sig_value sig)
         = size (Metrics.stream_metrics (sig_value sig))).
Proof.
  intros c k. unfold Comparison.get_outputs, Metrics.get_outputs. split.
  - intros sig Hsig.
    apply comparison_stored_snapshot_ok in Hsig
      as [_ (_ & Htime & _ & _ & Hn & Hsize & Hdeltas)].
    split_and!; assumption.
  - intros sig Hsig.
    apply metrics_stored_snapshot_ok in Hsig as [_ (_ & Htime & _ & _ & Hcount)].
    split; assumption.
Qed.

(** An instance: the comparison scenario, then an advance, then more data:
    the stored snapshot still has [n_streams] equal to the size of its
    [latest_values]. *)
Lemma stored_snapshot_agrees_with_itself_witness :
  ∃ sig,
    Comparison.get_outputs
      (Comparison.run (comparison_scenario ++ AdvanceTo 1 :: three_updates)
         (Comparison.init 10 1)) !! "comparison_state" = Some sig
    ∧ Comparison.n_streams (sig_value sig)
      = size (Comparison.latest_values (sig_value sig)).
Proof.
  destruct (Comparison.get_outputs
      (Comparison.run (comparison_scenario ++ AdvanceTo 1 :: three_updates)
         (Comparison.init 10 1)) !! "comparison_state") as [sig|] eqn:Hsig.
  - exists sig. split; [reflexivity|].
    apply (proj1 (stored_snapshot_agrees_with_itself 10 1
             (comparison_scenario ++ AdvanceTo 1 :: three_updates)) sig Hsig).
  - exfalso. vm_compute in Hsig. discriminate Hsig.
Defined.

(** ** When the snapshot changes *)

Lemma comparison_set_inputs_series_dom sigs cm :
  dom (Comparison._series cm) ⊆ dom (Comparison._series (Comparison.set_inputs sigs cm).1).
Proof.
  rewrite comparison_set_inputs_ingested.
  destruct (comparison_take_all (ingested _scalar_projection input_names sigs) cm)
    as (_ & _ & -> & _).
  rewrite store_after_dom. set_solver.
Qed.

Lemma metrics_set_inputs_history_dom sigs km :
  dom (Metrics._history km) ⊆ dom (Metrics._history (Metrics.set_inputs sigs km).1).
Proof.
  rewrite metrics_set_inputs_ingested.
  destruct (metrics_take_all (appended _extract_scalar input_names sigs) km)
    as (_ & _ & -> & _).
  rewrite store_after_dom. set_solver.
Qed.

Lemma nonempty_dom_subseteq {V} (d d' : gmap string V) :
  dom d ⊆ dom d' → d ≠ ∅ → d' ≠ ∅.
Proof.
  intros Hsub Hd Hd'. apply Hd. apply dom_empty_iff_L.
  rewrite Hd', dom_empty_L in Hsub. set_solver.
Qed.

(** X8: the snapshot changes only on [advance_to] and [reset].  In any
    state, [set_inputs] leaves [get_outputs] as it was, and with it the table
    of [visualize], which keeps showing the last snapshot while the
    timeseries follows the new data; and an [advance_to] replaces the
    snapshot by one that does not depend on the one before: advancing twice
    gives what the second advance alone gives.  For both monitors. *)
Theorem snapshot_changes_only_on_advance :
  (∀ sigs cm,
     Comparison.get_outputs (Comparison.set_inputs sigs cm).1
       = Comparison.get_outputs cm
     ∧ (Comparison._series cm ≠ ∅ →
          ∃ before after table,
            Comparison.visualize cm = Ok (Some [before; table])
            ∧ Comparison.visualize (Comparison.set_inputs sigs cm).1
              = Ok (Some [after; table])
            ∧ render table = "table"))
  ∧ (∀ sigs km,
     Metrics.get_outputs (Metrics.set_inputs sigs km).1 = Metrics.get_outputs km
     ∧ (Metrics._history km ≠ ∅ →
          ∃ before after table,
            Metrics.visualize km = Ok (Some [before; table])
            ∧ Metrics.visualize (Metrics.set_inputs sigs km).1
              = Ok (Some [after; table])
            ∧ render table = "table"))
  ∧ (∀ t1 t2 cm,
       Comparison.advance_to t1 cm ≫= Comparison.advance_to t2
       = Comparison.advance_to t2 cm)
  ∧ (∀ t1 t2 km,
       Metrics.advance_to t2 (Metrics.advance_to t1 km) = Metrics.advance_to t2 km).
Proof.
  split_and!.
  - intros sigs cm.
    assert (Hout : Comparison._outputs (Comparison.set_inputs sigs cm).1
                   = Comparison._outputs cm).
    { apply (comparison_outputs_kept cm (SetInputs sigs)). reflexivity. }
    split; [exact Hout|]. intros Hdata.
    rewrite !comparison_visualize.
    rewrite bool_decide_eq_false_2 by exact Hdata.
    rewrite bool_decide_eq_false_2
      by exact (nonempty_dom_subseteq _ _
                  (comparison_set_inputs_series_dom sigs cm) Hdata).
    unfold stored_latest_values. rewrite Hout.
    eexists _, _, _. split_and!; reflexivity.
  - intros sigs km.
    assert (Hout : Metrics._outputs (Metrics.set_inputs sigs km).1
                   = Metrics._outputs km).
    { apply (metrics_outputs_kept km (SetInputs sigs)). reflexivity. }
    split; [exact Hout|]. intros Hdata.
    rewrite !metrics_visualize.
    rewrite bool_decide_eq_false_2 by exact Hdata.
    rewrite bool_decide_eq_false_2
      by exact (nonempty_dom_subseteq _ _
                  (metrics_set_inputs_history_dom sigs km) Hdata).
    unfold stored_stream_metrics. rewrite Hout.
    eexists _, _, _. split_and!; reflexivity.
  - intros t1 t2 cm. rewrite (comparison_advance_to t1 cm). cbn [mbind result_bind].
    rewrite !comparison_advance_to. reflexivity.
  - intros t1 t2 km. reflexivity.
Qed.

(** An instance: after the comparison scenario and an advance, a further
    batch leaves the table of [visualize] as it was. *)
Lemma snapshot_changes_only_on_advance_witness :
  ∃ before after table,
    Comparison.visualize
      (Comparison.run (comparison_scenario ++ [AdvanceTo 1]) (Comparison.init 10 1))
    = Ok (Some [before; table])
    ∧ Comparison.visualize
        (Comparison.set_inputs overflowing_batch
           (Comparison.run (comparison_scenario ++ [AdvanceTo 1])
              (Comparison.init 10 1))).1
      = Ok (Some [after; table])
    ∧ render table = "table".
Proof.
  apply (proj1 snapshot_changes_only_on_advance overflowing_batch
           (Comparison.run (comparison_scenario ++ [AdvanceTo 1])
              (Comparison.init 10 1))).
  compute_done.
Defined.

(** ** The world name and [reset] *)

Lemma last_world_name_snoc calls c :
  last_world_name (calls ++ [c])
  = match c with Attach n => Some n | _ => last_world_name calls end.
Proof. unfold last_world_name. by rewrite fold_left_app. Qed.

Lemma comparison_world_name mp dt calls :
  Comparison._world_name (Comparison.run calls (Comparison.init mp dt))
  = last_world_name calls.
Proof.
  induction calls as [|c calls IH] using rev_ind; [reflexivity|].
  rewrite comparison_run_snoc, last_world_name_snoc.
  destruct c as [sigs|t| |w]; cbn [Comparison.step].
  - rewrite comparison_set_inputs_ingested.
    by destruct (comparison_take_all (ingested _scalar_projection input_names sigs)
      (Comparison.run calls (Comparison.init mp dt))) as (_ & _ & _ & _ & _ & _ & ->).
  - by rewrite comparison_advance_to.
  - exact IH.
  - reflexivity.
Qed.

Lemma metrics_world_name mp dt calls :
  Metrics._world_name (Metrics.run calls (Metrics.init mp dt))
  = last_world_name calls.
Proof.
  induction calls as [|c calls IH] using rev_ind; [reflexivity|].
  rewrite metrics_run_snoc, last_world_name_snoc.
  destruct c as [sigs|t| |w]; cbn [Metrics.step].
  - rewrite metrics_set_inputs_ingested.
    by destruct (metrics_take_all (appended _extract_scalar input_names sigs)
      (Metrics.run calls (Metrics.init mp dt))) as (_ & _ & _ & _ & _ & ->).
  - exact IH.
  - exact IH.
  - reflexivity.
Qed.

(** X9: [reset] forgets everything but the world name, for good: whatever
    was called before it, a monitor that is reset and then driven by further
    calls is in the state of a new monitor (same [max_points] and [min_dt],
    the world name set if it had been) driven by those calls alone.  For
    both monitors. *)
Theorem reset_forgets_all_but_world_name (mp : Z) (dt : Qc)
    (before after : list call) :
  Comparison.run (before ++ ResetCall :: after) (Comparison.init mp dt)
    = Comparison.run (attach_of (last_world_name before) ++ after)
        (Comparison.init mp dt)
  ∧ Metrics.run (before ++ ResetCall :: after) (Metrics.init mp dt)
    = Metrics.run (attach_of (last_world_name before) ++ after)
        (Metrics.init mp dt).
Proof.
  unfold Comparison.run, Metrics.run. rewrite !fold_left_app. cbn [fold_left].
  fold (Comparison.run before (Comparison.init mp dt)).
  fold (Metrics.run before (Metrics.init mp dt)).
  split; f_equal.
  - unfold Comparison.step at 1, Comparison.reset.
    destruct (comparison_run_attributes mp dt before) as (-> & -> & _).
    rewrite comparison_world_name. by destruct (last_world_name before).
  - unfold Metrics.step at 1, Metrics.reset.
    destruct (metrics_run_attributes mp dt before) as (-> & -> & _).
    rewrite metrics_world_name. by destruct (last_world_name before).
Qed.

(** X10: the source a snapshot is signed with.  In every reachable state,
    [advance_to] stores a signal whose source is the world name the host set
    last on the monitor (a reset does not clear it), and the name of the
    class when none was ever set; its name is the output name and its kind
    is ["state"]. *)
Theorem snapshot_source (mp : Z) (dt t : Qc) (calls : list call) :
  (∃ m' sig,
     Comparison.advance_to t (Comparison.run calls (Comparison.init mp dt)) = Ok m'
     ∧ Comparison.get_outputs m' = {[ "comparison_state" := sig ]}
     ∧ sig_source sig = default "StateComparisonMonitor" (last_world_name calls)
     ∧ sig_name sig = "comparison_state"
     ∧ kind (sig_metadata sig) = Some "state")
  ∧ (∃ sig,
     Metrics.get_outputs
       (Metrics.advance_to t (Metrics.run calls (Metrics.init mp dt)))
     = {[ "metrics" := sig ]}
     ∧ sig_source sig = default "StateMetricsMonitor" (last_world_name calls)
     ∧ sig_name sig = "metrics"
     ∧ kind (sig_metadata sig) = Some "state")
  ∧ last_world_name (calls ++ [ResetCall]) = last_world_name calls.
Proof.
  split_and!.
  - eexists _, _. rewrite comparison_advance_to. split; [reflexivity|].
    unfold Comparison.get_outputs. cbn [Comparison._outputs].
    split; [reflexivity|]. cbn [sig_source sig_name sig_metadata kind].
    rewrite comparison_world_name. by split_and!.
  - eexists. unfold Metrics.get_outputs, Metrics.advance_to. cbn [Metrics._outputs].
    split; [reflexivity|]. cbn [sig_source sig_name sig_metadata kind].
    rewrite metrics_world_name. by split_and!.
  - apply last_world_name_snoc.
Qed.

(** ** The latest entry and the history of a stream *)

Lemma window_of_last {A} (mp : Z) (l : list A) x :
  (0 ≤ mp)%Z → last (window_of mp (l ++ [x])) = Some x.
Proof.
  intros Hmp. unfold window_of. case_bool_decide as Hlen; [|apply last_snoc].
  unfold Py.slice_from. case_bool_decide.
  - rewrite length_app in *. cbn [length] in *.
    rewrite drop_app_le by lia. apply last_snoc.
  - replace mp with 0%Z by lia. cbn. apply last_snoc.
Qed.

Lemma history_by_appends_last {A} (mp : Z) (obs : list A) x :
  (0 ≤ mp)%Z →
  ∃ h, history_by_appends mp (obs ++ [x]) = Some h ∧ last h = Some x.
Proof.
  intros Hmp. unfold history_by_appends. rewrite fold_left_app. cbn [fold_left].
  eexists. split; [reflexivity|]. by apply window_of_last.
Qed.

(** X11: the two stores of the comparison monitor stay in step.  In every
    reachable state a stream has a latest entry exactly when it has a
    history, and for a capacity that is not negative the last point of the
    history is the time and the scalar of the latest entry. *)
Theorem latest_agrees_with_series (mp : Z) (dt : Qc) (calls : list call)
    (name : string) :
  let c := Comparison.run calls (Comparison.init mp dt) in
  (Comparison._latest c !! name = None ↔ Comparison._series c !! name = None)
  ∧ ((0 ≤ mp)%Z →
     ∀ e, Comparison._latest c !! name = Some e →
       ∃ h, Comparison._series c !! name = Some h
            ∧ last h = Some (Comparison.latest_t e, Comparison.latest_scalar e)).
Proof.
  intros c. subst c.
  destruct (comparison_run_attributes mp dt calls) as (_ & _ & -> & -> & _).
  rewrite latest_after_lookup, store_after_by_appends.
  destruct (updates_of name (updates _scalar_projection calls))
    as [|u l _] using rev_ind.
  - split; [split; reflexivity|]. intros _ e He. discriminate He.
  - rewrite last_snoc, fmap_app. cbn [fmap list_fmap option_fmap option_map].
    split.
    + unfold history_by_appends. rewrite fold_left_app. cbn [fold_left].
      split; intros He; discriminate He.
    + intros Hmp e [= <-].
      exact (history_by_appends_last mp (observation <$> l) (observation u) Hmp).
Qed.

(** An instance: after the comparison scenario, the history of [state_a]
    ends with its latest entry. *)
Lemma latest_agrees_with_series_witness :
  ∃ e h,
    Comparison._latest (Comparison.run comparison_scenario (Comparison.init 10 1))
      !! "state_a" = Some e
    ∧ Comparison._series (Comparison.run comparison_scenario (Comparison.init 10 1))
      !! "state_a" = Some h
    ∧ last h = Some (Comparison.latest_t e, Comparison.latest_scalar e).
Proof.
  destruct (Comparison._latest
              (Comparison.run comparison_scenario (Comparison.init 10 1))
            !! "state_a") as [e|] eqn:He.
  - assert (Hmp : (0 ≤ 10)%Z) by lia.
    destruct (proj2 (latest_agrees_with_series 10 1 comparison_scenario "state_a")
                Hmp e He) as (h & Hh & Hlast).
    exists e, h. split; [reflexivity|]. split; [exact Hh|exact Hlast].
  - vm_compute in He. discriminate He.
Defined.

(** ** The time of a snapshot *)

(** X12: the time a snapshot carries.  In every reachable state the
    snapshot [advance_to t] stores is stamped with a time that is not
    negative (the high-water time starts at [0.0]), not before [t], and not
    before any timestamp taken in since the last reset; and it is [t], [0]
    or one of those timestamps.  For both monitors. *)
Theorem snapshot_time_bounds (mp : Z) (dt t : Qc) (calls : list call) :
  (∃ m' sig now,
     Comparison.advance_to t (Comparison.run calls (Comparison.init mp dt)) = Ok m'
     ∧ Comparison.get_outputs m' = {[ "comparison_state" := sig ]}
     ∧ sig_time sig = Py.NFloat now
     ∧ 0 <= now
     ∧ t <= now
     ∧ Forall (λ u, u <= now) (timestamps (updates _scalar_projection calls))
     ∧ now ∈ t :: 0 :: timestamps (updates _scalar_projection calls))
  ∧ (∃ sig now,
     Metrics.get_outputs
       (Metrics.advance_to t (Metrics.run calls (Metrics.init mp dt)))
     = {[ "metrics" := sig ]}
     ∧ sig_time sig = Py.NFloat now
     ∧ 0 <= now
     ∧ t <= now
     ∧ Forall (λ u, u <= now) (timestamps (updates _extract_scalar calls))
     ∧ now ∈ t :: 0 :: timestamps (updates _extract_scalar calls)).
Proof.
  assert (Hbounds : ∀ ts,
    0 <= Py.max t (high_water ts 0)
    ∧ t <= Py.max t (high_water ts 0)
    ∧ Forall (λ u, u <= Py.max t (high_water ts 0)) ts
    ∧ Py.max t (high_water ts 0) ∈ t :: 0 :: ts).
  { intros ts. destruct (high_water_is_max ts 0) as (H0 & Hall & Hin & _).
    pose proof (py_max_r t (high_water ts 0)) as Hr.
    split_and!.
    - exact (Qcle_trans _ _ _ H0 Hr).
    - apply py_max_l.
    - eapply Forall_impl; [exact Hall|].
      intros u Hu. exact (Qcle_trans _ _ _ Hu Hr).
    - destruct (py_max_cases t (high_water ts 0)) as [-> | ->];
        [left|right; exact Hin]. }
  split.
  - eexists _, _, _. rewrite comparison_advance_to. split; [reflexivity|].
    unfold Comparison.get_outputs. cbn [Comparison._outputs].
    split; [reflexivity|]. cbn [sig_time]. split; [reflexivity|].
    destruct (comparison_run_attributes mp dt calls) as (_ & _ & _ & _ & ->).
    apply Hbounds.
  - eexists _, _. unfold Metrics.get_outputs, Metrics.advance_to.
    cbn [Metrics._outputs].
    split; [reflexivity|]. cbn [sig_time]. split; [reflexivity|].
    rewrite metrics_run_latest_t.
    apply Hbounds.
Qed.

(** ** The attribute [min_dt] *)

Lemma comparison_step_same_but_min_dt a b c :
  comparison_same_but_min_dt a b →
  comparison_same_but_min_dt (Comparison.step a c) (Comparison.step b c).
Proof.
  intros (Hmp & Hl & Hs & Ht & Ho & Hw).
  destruct c as [sigs|t| |w]; cbn [Comparison.step].
  - rewrite !comparison_set_inputs_ingested. unfold comparison_same_but_min_dt.
    destruct (comparison_take_all (ingested _scalar_projection input_names sigs) a)
      as (-> & _ & -> & -> & -> & -> & ->).
    destruct (comparison_take_all (ingested _scalar_projection input_names sigs) b)
      as (-> & _ & -> & -> & -> & -> & ->).
    rewrite Hmp, Hl, Hs, Ht, Ho, Hw. split_and!; reflexivity.
  - rewrite !comparison_advance_to. unfold comparison_same_but_min_dt.
    cbn [Comparison.max_points Comparison._latest Comparison._series
         Comparison._last_t Comparison._outputs Comparison._world_name].
    rewrite Hl, Ht, Hw. split_and!; first [assumption|reflexivity].
  - unfold comparison_same_but_min_dt, Comparison.reset.
    cbn [Comparison.max_points Comparison._latest Comparison._series
         Comparison._last_t Comparison._outputs Comparison._world_name].
    split_and!; first [assumption|reflexivity].
  - unfold comparison_same_but_min_dt.
    cbn [Comparison.max_points Comparison._latest Comparison._series
         Comparison._last_t Comparison._outputs Comparison._world_name].
    split_and!; first [assumption|reflexivity].
Qed.

Lemma metrics_step_same_but_min_dt a b c :
  metrics_same_but_min_dt a b →
  metrics_same_but_min_dt (Metrics.step a c) (Metrics.step b c).
Proof.
  intros (Hmp & Hh & Ht & Ho & Hw).
  destruct c as [sigs|t| |w]; cbn [Metrics.step].
  - rewrite !metrics_set_inputs_ingested. unfold metrics_same_but_min_dt.
    destruct (metrics_take_all (appended _extract_scalar input_names sigs) a)
      as (-> & _ & -> & -> & -> & ->).
    destruct (metrics_take_all (appended _extract_scalar input_names sigs) b)
      as (-> & _ & -> & -> & -> & ->).
    rewrite Hmp, Hh, Ht, Ho, Hw. split_and!; reflexivity.
  - unfold metrics_same_but_min_dt, Metrics.advance_to.
    cbn [Metrics.max_points Metrics._history Metrics._latest_t Metrics._outputs
         Metrics._world_name].
    rewrite Hh, Ht, Hw. split_and!; first [assumption|reflexivity].
  - unfold metrics_same_but_min_dt, Metrics.reset.
    cbn [Metrics.max_points Metrics._history Metrics._latest_t Metrics._outputs
         Metrics._world_name].
    split_and!; first [assumption|reflexivity].
  - unfold metrics_same_but_min_dt.
    cbn [Metrics.max_points Metrics._history Metrics._latest_t Metrics._outputs
         Metrics._world_name].
    split_and!; first [assumption|reflexivity].
Qed.

(** X13: [min_dt] is stored and never read.  Two monitors built with the
    same [max_points] and different [min_dt], driven by the same calls, hold
    the same stores, high-water time, snapshot and world name, and answer
    [get_outputs] and [visualize] alike: no update and no advance is skipped
    or delayed on account of [min_dt].  For both monitors. *)
Theorem min_dt_is_never_read (mp : Z) (dt1 dt2 : Qc) (calls : list call) :
  let c1 := Comparison.run calls (Comparison.init mp dt1) in
  let c2 := Comparison.run calls (Comparison.init mp dt2) in
  let k1 := Metrics.run calls (Metrics.init mp dt1) in
  let k2 := Metrics.run calls (Metrics.init mp dt2) in
  (comparison_same_but_min_dt c1 c2
   ∧ Comparison.min_dt c1 = dt1
   ∧ Comparison.get_outputs c1 = Comparison.get_outputs c2
   ∧ Comparison.visualize c1 = Comparison.visualize c2)
  ∧ (metrics_same_but_min_dt k1 k2
   ∧ Metrics.min_dt k1 = dt1
   ∧ Metrics.get_outputs k1 = Metrics.get_outputs k2
   ∧ Metrics.visualize k1 = Metrics.visualize k2).
Proof.
  intros c1 c2 k1 k2.
  assert (Hc : comparison_same_but_min_dt c1 c2).
  { subst c1 c2. induction calls as [|c calls IH] using rev_ind.
    - unfold comparison_same_but_min_dt. split_and!; reflexivity.
    - rewrite !comparison_run_snoc. by apply comparison_step_same_but_min_dt. }
  assert (Hk : metrics_same_but_min_dt k1 k2).
  { subst k1 k2. clear. induction calls as [|c calls IH] using rev_ind.
    - unfold metrics_same_but_min_dt. split_and!; reflexivity.
    - rewrite !metrics_run_snoc. by apply metrics_step_same_but_min_dt. }
  split.
  - split; [exact Hc|]. destruct Hc as (_ & _ & Hs & _ & Ho & _).
    split; [apply comparison_run_attributes|]. split; [exact Ho|].
    rewrite !comparison_visualize. unfold stored_latest_values.
    rewrite Hs, Ho. reflexivity.
  - split; [exact Hk|]. destruct Hk as (_ & Hh & _ & Ho & _).
    split; [apply metrics_run_attributes|]. split; [exact Ho|].
    rewrite !metrics_visualize. unfold stored_stream_metrics.
    rewrite Hh, Ho. reflexivity.
Qed.

(** ** The table against the timeseries *)

Lemma sorted_items_aligned {V W} (d1 : gmap string V) (d2 : gmap string W) :
  dom d1 = dom d2 →
  Forall2 (λ a b, a.1 = b.1 ∧ d1 !! a.1 = Some a.2 ∧ d2 !! b.1 = Some b.2)
    (sorted_items d1) (sorted_items d2).
Proof.
  intros Hdom.
  assert (Hkeys : (sorted_items d1).*1 = (sorted_items d2).*1).
  { rewrite !sorted_items_keys. unfold sorted_keys. by rewrite Hdom. }
  apply Forall2_same_length_lookup. split.
  - rewrite <- (length_fmap fst (sorted_items d1)), Hkeys. apply length_fmap.
  - intros i a b Ha Hb. split_and!.
    + assert (H1 : (sorted_items d1).*1 !! i = Some a.1)
        by (by rewrite list_lookup_fmap, Ha).
      assert (H2 : (sorted_items d2).*1 !! i = Some b.1)
        by (by rewrite list_lookup_fmap, Hb).
      rewrite Hkeys in H1. congruence.
    + apply sorted_items_elem. destruct a.
      exact (list_elem_of_lookup_2 _ _ _ Ha).
    + apply sorted_items_elem. destruct b.
      exact (list_elem_of_lookup_2 _ _ _ Hb).
Qed.

Lemma comparison_snapshot_dom mp dt calls :
  dom (snapshot_latest_values
         (Comparison._latest (Comparison.run calls (Comparison.init mp dt))))
  = dom (Comparison._series (Comparison.run calls (Comparison.init mp dt))).
Proof.
  rewrite comparison_series_dom. apply set_eq. intros name.
  rewrite elem_of_dom, snapshot_latest_values_lookup.
  destruct (comparison_run_attributes mp dt calls) as (_ & _ & _ & -> & _).
  rewrite latest_after_lookup. case_decide as Hin.
  - by rewrite !fmap_is_Some, last_updates_of_is_Some.
  - split; [by intros [? [=]]|].
    intros Hact. destruct Hin. by eapply active_streams_inputs.
Qed.

Lemma empty_window_count :
  str_of_int (int_of_float (Metrics.count (Metrics._summary [])))
  = pretty (Z.of_nat 0).
Proof. vm_compute. reflexivity. Qed.

(** X14: right after an advance the table has one row per series.  In every
    reachable state, what [visualize] returns after [advance_to] pairs the
    rows of the table with the series of the timeseries block, in the same
    order: each row starts with the name of its series, and in the metrics
    monitor its count cell is the number of points of that series. *)
Theorem table_has_a_row_per_series (mp : Z) (dt t : Qc) (calls : list call) :
  let c := Comparison.run calls (Comparison.init mp dt) in
  let k := Metrics.run calls (Metrics.init mp dt) in
  (∃ m' all_series rows,
     Comparison.advance_to t c = Ok m'
     ∧ Comparison.visualize m'
       = Ok (if bool_decide (Comparison._series c = ∅) then None else Some [
           {| render := "timeseries";
              data := TimeseriesData "State Stream Comparison" all_series;
              block_description :=
                "Scalar projections for each incoming state stream." |};
           {| render := "table";
              data := TableData ["Stream"; "Latest Scalar"] rows;
              block_description :=
                "Latest scalar value per state input stream." |} ])
     ∧ Forall2 (λ row s, ∃ cell, row = [series_name s; cell]) rows all_series)
  ∧ (∃ all_series rows,
     Metrics.visualize (Metrics.advance_to t k)
       = Ok (if bool_decide (Metrics._history k = ∅) then None else Some [
           {| render := "timeseries";
              data := TimeseriesData "State Stream Metrics (Scalar History)"
                        all_series;
              block_description :=
                "Scalar history per stream for quick trend checks." |};
           {| render := "table";
              data := TableData ["Stream"; "Count"; "Mean"; "Min"; "Max"] rows;
              block_description := "Descriptive metrics for each stream." |} ])
     ∧ Forall2 (λ row s, ∃ mean lo hi,
                  row = [series_name s;
                         pretty (Z.of_nat (length (series_points s)));
                         mean; lo; hi])
         rows all_series).
Proof.
  intros c k. split.
  - rewrite comparison_advance_to. eexists _, _, _. split; [reflexivity|].
    rewrite comparison_visualize. cbn [Comparison._series].
    split; [reflexivity|].
    unfold stored_latest_values. cbn [Comparison._outputs].
    rewrite lookup_singleton_eq. cbn [sig_value Comparison.latest_values].
    apply Forall2_fmap.
    eapply Forall2_impl; [exact (sorted_items_aligned _ _
                                   (comparison_snapshot_dom mp dt calls))|].
    intros [name v] [name' h] (Hname & _ & _). cbn in Hname. subst name'.
    eexists. reflexivity.
  - eexists _, _. rewrite metrics_visualize.
    unfold Metrics.advance_to at 1. cbn [Metrics._history].
    split; [reflexivity|].
    unfold stored_stream_metrics, Metrics.advance_to. cbn [Metrics._outputs].
    rewrite lookup_singleton_eq. cbn [sig_value Metrics.stream_metrics].
    rewrite metrics_per_stream.
    apply Forall2_fmap.
    eapply Forall2_impl;
      [exact (sorted_items_aligned (Metrics._summary <$> Metrics._history k)
                (Metrics._history k) (dom_fmap_L _ _))|].
    intros [name s] [name' h] (Hname & Hs & Hh). cbn in Hname, Hs, Hh.
    subst name'. rewrite lookup_fmap, Hh in Hs. injection Hs as <-.
    eexists _, _, _. unfold metrics_row.
    cbn [fst snd series_name series_points].
    rewrite length_imap || (unfold Metrics.points_of; rewrite length_imap).
    f_equal. f_equal.
    destruct h as [|x h]; [exact empty_window_count|].
    destruct (summary_of_window (x :: h)) as (-> & _); [discriminate|].
    apply count_cell.
Qed.

(** ** A batch against one call per stream *)

Lemma py_max_swap a b c : Py.max (Py.max a b) c = Py.max (Py.max a c) b.
Proof.
  assert (Hle : ∀ x y z, Py.max (Py.max x y) z <= Py.max (Py.max x z) y).
  { intros x y z.
    destruct (py_max_cases (Py.max x y) z) as [Hxyz|Hxyz]; rewrite Hxyz.
    - destruct (py_max_cases x y) as [Hxy|Hxy]; rewrite Hxy.
      + exact (Qcle_trans _ _ _ (py_max_l x z) (py_max_l _ y)).
      + apply py_max_r.
    - exact (Qcle_trans _ _ _ (py_max_r x z) (py_max_l _ y)). }
  apply Qcle_antisym; apply Hle.
Qed.

Lemma push_commute {A} (mp : Z) n1 n2 (x1 x2 : A) d :
  n1 ≠ n2 → push mp n2 x2 (push mp n1 x1 d) = push mp n1 x1 (push mp n2 x2 d).
Proof.
  intros Hne. apply map_eq. intros key.
  destruct (decide (key = n1)) as [->|Hn1].
  - rewrite push_lookup_ne by (intros Heq; apply Hne; by rewrite Heq).
    rewrite !push_lookup_any.
    rewrite push_lookup_ne by (intros Heq; apply Hne; by rewrite Heq).
    reflexivity.
  - destruct (decide (key = n2)) as [->|Hn2].
    + rewrite push_lookup_any, (push_lookup_ne mp n1 n2) by exact Hne.
      rewrite (push_lookup_ne mp n1 n2) by exact Hne.
      rewrite push_lookup_any. reflexivity.
    + rewrite !push_lookup_ne by (intros Heq; by rewrite Heq in *). reflexivity.
Qed.

Lemma comparison_take_commute m u1 u2 :
  u_name u1 ≠ u_name u2 →
  comparison_take (comparison_take m u1) u2 = comparison_take (comparison_take m u2) u1.
Proof.
  intros Hne. unfold comparison_take.
  cbn [Comparison.min_dt Comparison.max_points Comparison._latest
       Comparison._series Comparison._last_t Comparison._outputs
       Comparison._world_name].
  f_equal.
  - apply insert_insert_ne. intros Heq. apply Hne. by rewrite Heq.
  - by apply push_commute.
  - apply py_max_swap.
Qed.

Lemma metrics_take_commute m u1 u2 :
  u_name u1 ≠ u_name u2 →
  metrics_take (metrics_take m u1) u2 = metrics_take (metrics_take m u2) u1.
Proof.
  intros Hne. unfold metrics_take.
  cbn [Metrics.min_dt Metrics.max_points Metrics._history Metrics._latest_t
       Metrics._outputs Metrics._world_name].
  f_equal.
  - by apply push_commute.
  - destruct (u_time u1), (u_time u2); try reflexivity. apply py_max_swap.
Qed.

Lemma whole_updates_NoDup names sigs :
  NoDup names → NoDup (u_name <$> whole_updates names sigs).
Proof.
  induction 1 as [|name names Hfirst Hnodup IH]; [constructor|].
  unfold whole_updates in *. cbn [omap list_omap].
  destruct (sigs !! name) as [sig|]; cbn [fmap option_fmap option_map]; [|exact IH].
  cbn [list_fmap]. constructor; [|exact IH].
  intros (u & Hname & Hin)%list_elem_of_fmap.
  apply whole_updates_names in Hin. apply Hfirst.
  by rewrite (Hname : name = u_name u).
Qed.

Lemma whole_updates_absent names (sigs : signals) :
  (∀ name, name ∈ names → sigs !! name = None) → whole_updates names sigs = [].
Proof.
  induction names as [|n names IH]; intros Hnone; [reflexivity|].
  unfold whole_updates in *. cbn [omap list_omap]. rewrite (Hnone n) by left.
  apply IH. intros name Hin. apply Hnone. by right.
Qed.

Lemma whole_updates_singleton names name sig :
  NoDup names → name ∈ names →
  whole_updates names {[ name := sig ]} = [whole_update name sig].
Proof.
  intros Hnodup Hin.
  induction Hnodup as [|n names Hfirst Hnodup IH]; [by apply elem_of_nil in Hin|].
  unfold whole_updates in *. cbn [omap list_omap].
  apply elem_of_cons in Hin as [->|Hin].
  - rewrite lookup_singleton_eq. cbn [fmap option_fmap option_map]. f_equal.
    apply whole_updates_absent. intros name' Hin'.
    apply lookup_singleton_ne. intros ->. exact (Hfirst Hin').
  - rewrite lookup_singleton_ne by (intros ->; exact (Hfirst Hin)).
    by apply IH.
Qed.

Lemma names_convert_singleton names name sig :
  converts sig = true → names_convert names {[ name := sig ]} = true.
Proof.
  intros Hconv. unfold names_convert. apply forallb_forall. intros n _.
  destruct (decide (n = name)) as [->|Hne].
  - by rewrite lookup_singleton_eq.
  - by rewrite lookup_singleton_ne.
Qed.

(** A batch that converts records the updates of its input streams. *)
Lemma comparison_set_inputs_whole sigs m :
  names_convert input_names sigs = true →
  (Comparison.set_inputs sigs m).1
  = fold_left comparison_take (whole_updates input_names sigs) m.
Proof.
  intros Hall. rewrite comparison_set_inputs_ingested.
  pose proof (ingested_converting input_names [] sigs Hall) as Hing.
  rewrite ?app_nil_r in Hing. cbn [ingested] in Hing. rewrite ?app_nil_r in Hing.
  by rewrite Hing.
Qed.

Lemma metrics_set_inputs_whole sigs m :
  names_convert input_names sigs = true →
  (Metrics.set_inputs sigs m).1
  = fold_left (λ m u, metrics_take m (timed u)) (whole_updates input_names sigs) m.
Proof.
  intros Hall. rewrite metrics_set_inputs_ingested.
  pose proof (appended_converting input_names [] sigs Hall) as Happ.
  rewrite ?app_nil_r in Happ. cbn [appended] in Happ. rewrite ?app_nil_r in Happ.
  rewrite Happ. generalize (whole_updates input_names sigs) as l. intros l.
  revert m. induction l as [|u l IH]; intros m; [reflexivity|].
  cbn [fmap list_fmap fold_left]. apply IH.
Qed.

Section order_of_updates.
Context {M : Type} (step : M → call → M) (take : M → update → M).
Hypothesis step_takes : ∀ sigs m,
  names_convert input_names sigs = true →
  step m (SetInputs sigs) = fold_left take (whole_updates input_names sigs) m.
Hypothesis take_commutes : ∀ m u1 u2,
  u_name u1 ≠ u_name u2 → take (take m u1) u2 = take (take m u2) u1.

Lemma fold_left_take_permutation l l' m :
  l ≡ₚ l' → NoDup (u_name <$> l) → fold_left take l m = fold_left take l' m.
Proof.
  intros Hperm. revert m.
  induction Hperm as [|u l l' Hperm IH|u1 u2 l|l1 l2 l3 H12 IH12 H23 IH23];
    intros m Hnodup.
  - reflexivity.
  - cbn [fold_left]. apply IH. cbn in Hnodup.
    by apply NoDup_cons in Hnodup as [_ ?].
  - cbn [fold_left]. f_equal. apply take_commutes. cbn in Hnodup.
    apply NoDup_cons in Hnodup as [Hnotin _].
    intros Heq. apply Hnotin. rewrite Heq. left.
  - rewrite IH12 by exact Hnodup. apply IH23. by rewrite <- H12.
Qed.

Lemma one_by_one_takes names sigs m :
  (∀ name, name ∈ names → name ∈ input_names) →
  names_convert names sigs = true →
  fold_left step (one_by_one names sigs) m
  = fold_left take (whole_updates names sigs) m.
Proof.
  revert m. induction names as [|n names IH]; intros m Hknown Hok; [reflexivity|].
  assert (Hknown' : ∀ name, name ∈ names → name ∈ input_names).
  { intros name Hin. apply Hknown. by right. }
  rewrite names_convert_cons in Hok. apply andb_true_iff in Hok as [Hn Hok].
  unfold one_by_one, whole_updates. cbn [omap list_omap].
  fold (one_by_one names sigs). fold (whole_updates names sigs).
  destruct (sigs !! n) as [sig|] eqn:Hsig;
    cbn [from_option fmap option_fmap option_map] in *.
  - cbn [fold_left].
    rewrite step_takes by (by apply names_convert_singleton).
    rewrite (whole_updates_singleton input_names n sig input_names_NoDup)
      by (apply Hknown; left).
    cbn [fold_left]. by apply IH.
  - by apply IH.
Qed.

Lemma one_by_one_is_batch names sigs m :
  names ≡ₚ input_names →
  names_convert input_names sigs = true →
  fold_left step (one_by_one names sigs) m = step m (SetInputs sigs).
Proof.
  intros Hperm Hok. rewrite step_takes by exact Hok. rewrite one_by_one_takes.
  - apply fold_left_take_permutation.
    + unfold whole_updates. by rewrite Hperm.
    + apply whole_updates_NoDup. rewrite Hperm. exact input_names_NoDup.
  - intros name Hin. by rewrite <- Hperm.
  - unfold names_convert in *. rewrite forallb_forall in *.
    intros name Hin. apply Hok. apply list_elem_of_In.
    rewrite <- Hperm. by apply list_elem_of_In.
Qed.

End order_of_updates.

Lemma comparison_batch_all_ok sigs cm :
  (Comparison.set_inputs sigs cm).2 = Ok () →
  names_convert input_names sigs = true.
Proof.
  rewrite comparison_set_inputs_outcome.
  destruct (names_convert input_names sigs); [reflexivity|discriminate].
Qed.

Lemma metrics_batch_all_ok sigs km :
  (Metrics.set_inputs sigs km).2 = Ok () →
  names_convert input_names sigs = true.
Proof.
  rewrite metrics_set_inputs_outcome.
  destruct (names_convert input_names sigs); [reflexivity|discriminate].
Qed.

(** X15: a batch is one call per stream, in any order.  When [set_inputs]
    on a batch ends normally, feeding the input streams of the batch one per
    call, in whatever order, leaves the monitor in the state the single call
    does: streams do not interact on the way in.  For both monitors, in any
    state. *)
Theorem batch_is_one_call_per_stream (sigs : signals) (names : list string)
    (cm : Comparison.monitor) (km : Metrics.monitor) :
  names ≡ₚ input_names →
  ((Comparison.set_inputs sigs cm).2 = Ok () →
     Comparison.run (one_by_one names sigs) cm = (Comparison.set_inputs sigs cm).1)
  ∧ ((Metrics.set_inputs sigs km).2 = Ok () →
     Metrics.run (one_by_one names sigs) km = (Metrics.set_inputs sigs km).1).
Proof.
  intros Hperm. split; intros Hok.
  - apply (one_by_one_is_batch Comparison.step comparison_take
             (λ sigs' m, comparison_set_inputs_whole sigs' m)
             comparison_take_commute names sigs cm Hperm).
    exact (comparison_batch_all_ok sigs cm Hok).
  - apply (one_by_one_is_batch Metrics.step (λ m u, metrics_take m (timed u))
             (λ sigs' m, metrics_set_inputs_whole sigs' m)
             (λ m u1 u2, metrics_take_commute m (timed u1) (timed u2))
             names sigs km Hperm).
    exact (metrics_batch_all_ok sigs km Hok).
Qed.

(** An instance: the two-stream batch fed stream by stream from [state_d]
    down to [state_a]. *)
Lemma batch_is_one_call_per_stream_witness :
  Comparison.run
    (one_by_one ["state_d"; "state_c"; "state_b"; "state_a"] two_stream_batch)
    (Comparison.init 10 1)
  = (Comparison.set_inputs two_stream_batch (Comparison.init 10 1)).1.
Proof.
  apply (proj1 (batch_is_one_call_per_stream two_stream_batch
                  ["state_d"; "state_c"; "state_b"; "state_a"]
                  (Comparison.init 10 1) (Metrics.init 10 1)
                  (reverse_Permutation input_names))).
  vm_compute. reflexivity.
Defined.

(** ** The two monitors side by side *)

Lemma window_of_fmap {A B} (g : A → B) (mp : Z) (l : list A) :
  window_of mp (g <$> l) = g <$> window_of mp l.
Proof.
  unfold window_of, Py.slice_from. rewrite length_fmap.
  repeat case_bool_decide; by rewrite ?fmap_drop.
Qed.

Lemma history_by_appends_fmap {A B} (g : A → B) (mp : Z) (obs : list A) :
  history_by_appends mp (g <$> obs)
  = (λ h : list A, g <$> h) <$> history_by_appends mp obs.
Proof.
  induction obs as [|x obs IH] using rev_ind; [reflexivity|].
  unfold history_by_appends in *. rewrite fmap_app, !fold_left_app, IH.
  cbn [fold_left fmap list_fmap option_fmap option_map]. f_equal.
  rewrite <- window_of_fmap. f_equal. rewrite fmap_app. f_equal.
  by destruct (fold_left _ obs None).
Qed.

(** What the metrics monitor appends begins with the updates taken in
    whole, and is just those when the times convert. *)
Lemma appended_ingested proj names sigs :
  ∃ tail, appended proj names sigs = (timed <$> ingested proj names sigs) ++ tail.
Proof.
  induction names as [|name names [tail IH]]; [by exists []|].
  cbn [appended ingested].
  destruct (sigs !! name) as [sig|]; [|by exists tail].
  destruct (proj (sig_value sig)) as [scalar|e];
    destruct (Py.float (sig_time sig)) as [t|e']; try (by exists []).
  - exists tail. cbn [fmap list_fmap app]. by rewrite IH.
  - eexists. reflexivity.
Qed.

Lemma appended_timed proj names sigs :
  batch_times_convert names sigs = true →
  appended proj names sigs = timed <$> ingested proj names sigs.
Proof.
  induction names as [|name names IH]; intros Hall; [reflexivity|].
  unfold batch_times_convert in Hall. cbn [forallb] in Hall.
  apply andb_true_iff in Hall as [Hname Hall].
  cbn [appended ingested].
  destruct (sigs !! name) as [sig|]; cbn [from_option] in Hname; [|by apply IH].
  rewrite float_converts, Hname.
  destruct (proj (sig_value sig)) as [scalar|e]; [|reflexivity].
  cbn [fmap list_fmap]. f_equal. by apply IH.
Qed.

Lemma updates_active_subseteq proj calls :
  active_streams (updates proj calls) ⊆ active_streams (appends proj calls).
Proof.
  induction calls as [|c calls IH] using rev_ind; [reflexivity|].
  rewrite updates_snoc, appends_snoc.
  destruct c as [sigs|t| |w]; cbn [record_call]; try exact IH; [|reflexivity].
  destruct (appended_ingested proj input_names sigs) as [tail ->].
  unfold active_streams in *. rewrite !fmap_app, !list_to_set_app_L.
  rewrite <- list_fmap_compose.
  rewrite (list_fmap_ext (u_name ∘ timed) u_name
             (ingested proj input_names sigs)) by reflexivity.
  set_solver.
Qed.

Lemma appends_timed proj calls :
  times_convert calls = true → appends proj calls = timed <$> updates proj calls.
Proof.
  induction calls as [|c calls IH] using rev_ind; intros Hall; [reflexivity|].
  unfold times_convert in Hall. rewrite forallb_app in Hall.
  apply andb_true_iff in Hall as [Hcalls Hc]. cbn [forallb] in Hc.
  rewrite andb_true_r in Hc.
  rewrite updates_snoc, appends_snoc.
  destruct c as [sigs|t| |w]; cbn [record_call]; try (by apply IH); [|reflexivity].
  rewrite fmap_app, (IH Hcalls). f_equal. by apply appended_timed.
Qed.

Lemma scalars_timed name (ups : list update) :
  scalars name (timed <$> ups) = scalars name ups.
Proof.
  unfold scalars, updates_of.
  induction ups as [|u ups IH]; [reflexivity|].
  cbn [fmap list_fmap]. rewrite !filter_cons.
  change (u_name (timed u)) with (u_name u).
  case_decide; cbn [fmap list_fmap]; by rewrite IH.
Qed.

Lemma active_streams_timed (ups : list update) :
  active_streams (timed <$> ups) = active_streams ups.
Proof.
  unfold active_streams. rewrite <- list_fmap_compose.
  by rewrite (list_fmap_ext (u_name ∘ timed) u_name ups) by reflexivity.
Qed.

(** X16: the two monitors side by side.  Driven by the same calls, with
    the same [max_points], their high-water times are equal, snapshots taken
    by the same [advance_to] carry the same time, and every stream of the
    comparison snapshot is a stream of the metrics snapshot.  When the time
    of every signal converts to float, they see the same data: the history
    the metrics monitor keeps for a stream is the scalars of the points the
    comparison monitor keeps for it, and the snapshots have the same streams
    and the same number of streams.  (When a time does not convert, the
    metrics monitor has appended the scalar of that signal and the
    comparison monitor has not: see X3.) *)
Theorem monitors_see_the_same_data (mp : Z) (dt t : Qc) (calls : list call)
    (name : string) :
  let c := Comparison.run calls (Comparison.init mp dt) in
  let k := Metrics.run calls (Metrics.init mp dt) in
  Metrics._latest_t k = Comparison._last_t c
  ∧ (∃ m' csig ksig,
      Comparison.advance_to t c = Ok m'
      ∧ Comparison.get_outputs m' = {[ "comparison_state" := csig ]}
      ∧ Metrics.get_outputs (Metrics.advance_to t k) = {[ "metrics" := ksig ]}
      ∧ sig_time csig = sig_time ksig
      ∧ dom (Comparison.latest_values (sig_value csig))
        ⊆ dom (Metrics.stream_metrics (sig_value ksig))
      ∧ (Comparison.n_streams (sig_value csig)
         ≤ Metrics.stream_count (sig_value ksig))%nat
      ∧ (times_convert calls = true →
           dom (Comparison.latest_values (sig_value csig))
           = dom (Metrics.stream_metrics (sig_value ksig))
           ∧ Comparison.n_streams (sig_value csig)
             = Metrics.stream_count (sig_value ksig)))
  ∧ (times_convert calls = true →
       Metrics._history k !! name
       = (λ h, h.*2) <$> Comparison._series c !! name).
Proof.
  intros c k.
  assert (Hsame : updates _extract_scalar calls = updates _scalar_projection calls)
    by reflexivity.
  destruct (comparison_run_attributes mp dt calls) as (_ & _ & Hs & Hl & Ht).
  destruct (metrics_run_attributes mp dt calls) as (_ & _ & Hh & _).
  pose proof (metrics_run_latest_t mp dt calls) as Hkt.
  fold c in Hs, Hl, Ht. fold k in Hh, Hkt.
  assert (Hcdom : dom (snapshot_latest_values (Comparison._latest c))
                  = active_streams (updates _scalar_projection calls)).
  { subst c. by rewrite comparison_snapshot_dom, comparison_series_dom. }
  assert (Hkdom : dom (Metrics._summary <$> Metrics._history k)
                  = active_streams (appends _extract_scalar calls)).
  { subst k. by rewrite dom_fmap_L, metrics_history_dom. }
  assert (Hn : length (active_names (Comparison._latest c))
               = size (active_streams (updates _scalar_projection calls))).
  { rewrite Hl. apply active_names_length. }
  assert (Hcount : size (Metrics._summary <$> Metrics._history k)
                   = size (active_streams (appends _extract_scalar calls))).
  { by rewrite <- Hkdom, size_dom. }
  split_and!.
  - rewrite Hkt, Ht, Hsame. reflexivity.
  - rewrite comparison_advance_to. eexists _, _, _.
    split; [reflexivity|].
    unfold Comparison.get_outputs, Metrics.get_outputs, Metrics.advance_to.
    cbn [Comparison._outputs Metrics._outputs].
    split; [reflexivity|]. split; [reflexivity|].
    cbn [sig_time sig_value Comparison.latest_values Comparison.n_streams
         Metrics.stream_metrics Metrics.stream_count].
    rewrite metrics_per_stream, Hcdom, Hkdom, Hn, Hcount.
    split_and!.
    + rewrite Hkt, Ht, Hsame. reflexivity.
    + apply updates_active_subseteq.
    + apply subseteq_size, updates_active_subseteq.
    + intros Htimes. rewrite (appends_timed _ _ Htimes), active_streams_timed.
      split; reflexivity.
  - intros Htimes.
    rewrite Hh, Hs, !store_after_by_appends.
    fold (scalars name (appends _extract_scalar calls)).
    rewrite (appends_timed _ _ Htimes), scalars_timed, Hsame.
    unfold scalars.
    rewrite <- history_by_appends_fmap, <- list_fmap_compose. reflexivity.
Qed.

(** An instance: the metrics scenario, whose times are floats. *)
Lemma monitors_see_the_same_data_witness :
  Metrics._history (Metrics.run metrics_scenario (Metrics.init 10 1)) !! "state_a"
  = (λ h, h.*2)
      <$> Comparison._series (Comparison.run metrics_scenario (Comparison.init 10 1))
            !! "state_a".
Proof.
  apply (proj2 (proj2 (monitors_see_the_same_data 10 1 0 metrics_scenario
                         "state_a"))).
  reflexivity.
Defined.

(** ** The capacity and the comparison snapshot *)

(** X17: [max_points] never reaches what the comparison monitor emits.  Two
    comparison monitors built with any two capacities and driven by the same
    calls hold the same latest entries and high-water time and answer
    [get_outputs] alike; only the points of their histories differ, not the
    streams that have one. *)
Theorem comparison_outputs_ignore_capacity (mp1 mp2 : Z) (dt1 dt2 : Qc)
    (calls : list call) :
  let c1 := Comparison.run calls (Comparison.init mp1 dt1) in
  let c2 := Comparison.run calls (Comparison.init mp2 dt2) in
  Comparison.get_outputs c1 = Comparison.get_outputs c2
  ∧ Comparison._latest c1 = Comparison._latest c2
  ∧ Comparison._last_t c1 = Comparison._last_t c2
  ∧ dom (Comparison._series c1) = dom (Comparison._series c2).
Proof.
  intros c1 c2.
  assert (Hinv : Comparison._latest c1 = Comparison._latest c2
                 ∧ Comparison._last_t c1 = Comparison._last_t c2
                 ∧ Comparison._outputs c1 = Comparison._outputs c2
                 ∧ Comparison._world_name c1 = Comparison._world_name c2).
  { subst c1 c2. induction calls as [|c calls IH] using rev_ind.
    - split_and!; reflexivity.
    - rewrite !comparison_run_snoc. destruct IH as (Hl & Ht & Ho & Hw).
      destruct c as [sigs|t| |w]; cbn [Comparison.step].
      + rewrite !comparison_set_inputs_ingested.
        destruct (comparison_take_all
                    (ingested _scalar_projection input_names sigs)
                    (Comparison.run calls (Comparison.init mp1 dt1)))
          as (_ & _ & _ & -> & -> & -> & ->).
        destruct (comparison_take_all
                    (ingested _scalar_projection input_names sigs)
                    (Comparison.run calls (Comparison.init mp2 dt2)))
          as (_ & _ & _ & -> & -> & -> & ->).
        rewrite Hl, Ht, Ho, Hw. split_and!; reflexivity.
      + rewrite !comparison_advance_to.
        cbn [Comparison._latest Comparison._last_t Comparison._outputs
             Comparison._world_name].
        rewrite Hl, Ht, Hw. split_and!; reflexivity.
      + unfold Comparison.reset.
        cbn [Comparison._latest Comparison._last_t Comparison._outputs
             Comparison._world_name].
        split_and!; first [assumption|reflexivity].
      + cbn [Comparison._latest Comparison._last_t Comparison._outputs
             Comparison._world_name].
        split_and!; first [assumption|reflexivity]. }
  destruct Hinv as (Hl & Ht & Ho & _).
  split_and!; [exact Ho|exact Hl|exact Ht|].
  subst c1 c2. by rewrite !comparison_series_dom.
Qed.
